(** * Mesh: a collection of n-D vertices and simplices

    A shallow embedding of [lib/src/Base/Geom/Mesh.cxx] and the properties
    of its store, caches, validity check, localisation queries, volumes,
    integration weights, P1 Gram matrix, regularity and equality tests, and
    of the faces that its 3-D drawing keeps.

    Conventions of the embedding.
    - A [Scalar] (a C++ [double]) is an exact rational: rounding, overflow
      and NaN are outside the model.
    - A C++ exception is a value of [Exception]; a member function that can
      throw returns a [Result].
    - The [mutable] members that [const] member functions refresh (the
      incidence map, the bounding boxes, the memoised volume) are fields of
      the [Mesh] record; such functions return the mesh they leave behind.
    - Unchecked [operator[]] reads are total lookups ([!!!]), unchecked
      writes are stdpp updates (no effect out of range); C++ leaves both
      undefined out of range.
    - What the mesh takes from classes outside this file is either a field
      of [Collaborators] or a definition marked as modelled. *)

From Stdlib Require Import QArith Qabs Lqa Lia String DecimalString Sorted.
From stdpp Require Import base list.

Set Default Proof Using "Type".
Open Scope Q_scope.
Open Scope nat_scope.
Open Scope list_scope.

(** ** Scalars, points, samples, indices *)

Abbreviation Scalar := Q (only parsing).
Abbreviation Point := (list Q) (only parsing).
Abbreviation Sample := (list (list Q)) (only parsing).
Abbreviation Indices := (list nat) (only parsing).
Abbreviation IndicesCollection := (list (list nat)) (only parsing).
Abbreviation SquareMatrix := (list (list Q)) (only parsing).

#[global] Instance Q_inhabited : Inhabited Q := populate 0%Q.

(** [a < b] on scalars, as a boolean. *)
Definition Qltb (a b : Q) : bool :=
  match (a ?= b)%Q with Lt => true | _ => false end.

(** [sample(i, k)]: coordinate [k] of row [i]. *)
Definition at2 (sample : Sample) (i k : nat) : Q := (sample !!! i) !!! k.

(** [sample(i, k) = x]. *)
Definition set2 (sample : Sample) (i k : nat) (x : Q) : Sample :=
  alter (fun row => <[k := x]> row) i sample.

(** [Sample::getDimension]: the length of the rows.  A sample is a dense
    table, given here by its rows; the dimension that a sample without rows
    keeps is not represented, and a function whose answer depends on it
    takes that dimension beside the rows. *)
Definition Sample_getDimension (sample : Sample) : nat :=
  match sample with [] => 0 | row :: _ => length row end.

(** ** Exceptions *)

Inductive Exception : Type :=
| InvalidArgumentException (what : string)
| OutOfRangeException (what : string)
| InternalException (what : string)
| FileNotFoundException (what : string)
| InvalidDimensionException (what : string)
| NotYetImplementedException (what : string).

Inductive Result (A : Type) : Type :=
| Ok (a : A)
| Throw (e : Exception).
Arguments Ok {A} a.
Arguments Throw {A} e.

(** The [OSS] stream prints an unsigned integer in decimal. *)
Definition show (n : nat) : string := NilEmpty.string_of_uint (Nat.to_uint n).

(** ** Computations on a mesh whose caches may be refreshed *)

Module MeshMonad.
Section Monad.
Context {St : Type}.

Definition M (A : Type) : Type := St -> Result A * St.

Definition ret {A} (a : A) : M A := fun m => (Ok a, m).

Definition bind {A B} (c : M A) (k : A -> M B) : M B :=
fun m => match c m with
       | (Ok a, m') => k a m'
       | (Throw e, m') => (Throw e, m')
       end.

Definition throw {A} (e : Exception) : M A := fun m => (Throw e, m).

(** A [const] query that touches no cache. *)
Definition query {A} (f : St -> Result A) : M A := fun m => (f m, m).

Definition gets {A} (f : St -> A) : M A := fun m => (Ok (f m), m).

Definition modify (f : St -> St) : M unit := fun m => (Ok tt, f m).
End Monad.
End MeshMonad.
Import MeshMonad.

Notation "x <- c ;; k" := (bind c (fun x => k))
  (at level 100, c at next level, right associativity).
Notation "c ;;; k" := (bind c (fun _ => k))
  (at level 100, right associativity).

(** ** External collaborators *)

(** Modelled from the spec: the k-d tree class is an external collaborator
    (a nearest-neighbour index over the vertices, built on demand).  A tree
    is either the default, empty one or one built over a copy of a sample. *)
Inductive KDTree : Type :=
| KDTree_default
| KDTree_of (points : Sample).

Definition KDTree_isEmpty (tree : KDTree) : bool :=
  match tree with KDTree_default => true | KDTree_of _ => false end.

(** Modelled from the spec: [TBB::ParallelReduce] partitions the range, runs
    the body on each part and merges in index order.
    How a parallel reduction cuts a range [[lo, hi)]: the body runs the whole
    range in one call ([Whole]), carries on sequentially over two sub-ranges
    ([Cut]), or hands the right sub-range to a split copy and joins it
    afterwards ([Fork]).  The scheduler, not the program, chooses. *)
Inductive Schedule : Type :=
| Whole
| Cut (mid : nat) (left right : Schedule)
| Fork (mid : nat) (left right : Schedule).

(** What the mesh takes from the rest of the library. *)
Class Collaborators : Type := {
  (** [SpecFunc::MaxScalar] *)
  MaxScalar : Q;
  (** [SquareMatrix::solveLinearSystem] *)
  solveLinearSystem : SquareMatrix -> Point -> Point;
  (** exponential of [SquareMatrix::computeLogAbsoluteDeterminant] *)
  computeAbsoluteDeterminant : SquareMatrix -> Q;
  (** [KDTree::getNearestNeighbourIndex], over the points of the tree *)
  getNearestNeighbourIndex : Sample -> Point -> nat;
  (** the partition [TBB::ParallelReduce] picks for a range *)
  partition : nat -> nat -> Schedule
}.

(** ** The mesh *)

Record Mesh : Type := mkMesh {
  dimension_ : nat;
  vertices_ : Sample;
  simplices_ : IndicesCollection;
  tree_ : KDTree;
  verticesToSimplices_ : IndicesCollection;
  lowerBoundingBoxSimplices_ : Sample;
  upperBoundingBoxSimplices_ : Sample;
  isAlreadyComputedVolume_ : bool;
  volume_ : Q
}.

Definition set_vertices_ (x : Sample) (m : Mesh) : Mesh :=
  mkMesh (dimension_ m) x (simplices_ m) (tree_ m) (verticesToSimplices_ m)
    (lowerBoundingBoxSimplices_ m) (upperBoundingBoxSimplices_ m)
    (isAlreadyComputedVolume_ m) (volume_ m).
Definition set_simplices_ (x : IndicesCollection) (m : Mesh) : Mesh :=
  mkMesh (dimension_ m) (vertices_ m) x (tree_ m) (verticesToSimplices_ m)
    (lowerBoundingBoxSimplices_ m) (upperBoundingBoxSimplices_ m)
    (isAlreadyComputedVolume_ m) (volume_ m).
Definition set_tree_ (x : KDTree) (m : Mesh) : Mesh :=
  mkMesh (dimension_ m) (vertices_ m) (simplices_ m) x (verticesToSimplices_ m)
    (lowerBoundingBoxSimplices_ m) (upperBoundingBoxSimplices_ m)
    (isAlreadyComputedVolume_ m) (volume_ m).
Definition set_verticesToSimplices_ (x : IndicesCollection) (m : Mesh) : Mesh :=
  mkMesh (dimension_ m) (vertices_ m) (simplices_ m) (tree_ m) x
    (lowerBoundingBoxSimplices_ m) (upperBoundingBoxSimplices_ m)
    (isAlreadyComputedVolume_ m) (volume_ m).
Definition set_lowerBoundingBoxSimplices_ (x : Sample) (m : Mesh) : Mesh :=
  mkMesh (dimension_ m) (vertices_ m) (simplices_ m) (tree_ m)
    (verticesToSimplices_ m) x (upperBoundingBoxSimplices_ m)
    (isAlreadyComputedVolume_ m) (volume_ m).
Definition set_upperBoundingBoxSimplices_ (x : Sample) (m : Mesh) : Mesh :=
  mkMesh (dimension_ m) (vertices_ m) (simplices_ m) (tree_ m)
    (verticesToSimplices_ m) (lowerBoundingBoxSimplices_ m) x
    (isAlreadyComputedVolume_ m) (volume_ m).
Definition set_isAlreadyComputedVolume_ (x : bool) (m : Mesh) : Mesh :=
  mkMesh (dimension_ m) (vertices_ m) (simplices_ m) (tree_ m)
    (verticesToSimplices_ m) (lowerBoundingBoxSimplices_ m)
    (upperBoundingBoxSimplices_ m) x (volume_ m).
Definition set_volume_ (x : Q) (m : Mesh) : Mesh :=
  mkMesh (dimension_ m) (vertices_ m) (simplices_ m) (tree_ m)
    (verticesToSimplices_ m) (lowerBoundingBoxSimplices_ m)
    (upperBoundingBoxSimplices_ m) (isAlreadyComputedVolume_ m) x.

Definition getDimension (m : Mesh) : nat := dimension_ m.
Definition getVertices (m : Mesh) : Sample := vertices_ m.
Definition getSimplices (m : Mesh) : IndicesCollection := simplices_ m.
Definition getVerticesNumber (m : Mesh) : nat := length (vertices_ m).
Definition getSimplicesNumber (m : Mesh) : nat := length (simplices_ m).

(** *** Store: constructors and accessors *)

(** The description of the sample (the names of its components) is not
    modelled. *)
Definition setVertices (vertices : Sample) (m : Mesh) : Mesh :=
  let m := set_isAlreadyComputedVolume_ false m in
  let m := set_vertices_ vertices m in
  let m := set_verticesToSimplices_ [] m in
  let m := set_lowerBoundingBoxSimplices_ [] m in
  set_upperBoundingBoxSimplices_ [] m.

Definition computeKDTree (m : Mesh) : Mesh :=
  set_tree_ (KDTree_of (vertices_ m)) m.

(** [Mesh(dimension)]: one vertex at the origin, no simplex. *)
Definition Mesh_default (dimension : nat) : Mesh :=
  mkMesh dimension [replicate dimension 0%Q] [] KDTree_default [] [] []
    false 0%Q.

(** [Mesh(vertices)] *)
Definition Mesh_of_vertices (vertices : Sample) : Mesh :=
  setVertices vertices
    (mkMesh (Sample_getDimension vertices) [] [] KDTree_default [] [] []
       false 0%Q).

(** [Mesh(vertices, simplices)] *)
Definition Mesh_of (vertices : Sample) (simplices : IndicesCollection) : Mesh :=
  setVertices vertices
    (mkMesh (Sample_getDimension vertices) [] simplices KDTree_default [] [] []
       false 0%Q).

Definition getVertex (index : nat) (m : Mesh) : Result (list Q) :=
  if getVerticesNumber m <=? index
  then Throw (InvalidArgumentException
                ("Error: the vertex index=" ++ show index
                 ++ " must be less than the number of vertices="
                 ++ show (getVerticesNumber m)))
  else Ok (vertices_ m !!! index).

(** No bound check: the write is unchecked in the source.  The row is
    replaced by [vertex] as it is given; the assignment is that of the
    source when [vertex] has the dimension of the sample, which is all that
    a row of a dense sample can hold. *)
Definition setVertex (index : nat) (vertex : Point) (m : Mesh) : Mesh :=
  let m := set_isAlreadyComputedVolume_ false m in
  set_vertices_ (<[index := vertex]> (vertices_ m)) m.

Definition setSimplices (simplices : IndicesCollection) (m : Mesh) : Mesh :=
  if decide (simplices = simplices_ m) then m
  else
    let m := set_simplices_ simplices m in
    let m := set_verticesToSimplices_ [] m in
    let m := set_lowerBoundingBoxSimplices_ [] m in
    set_upperBoundingBoxSimplices_ [] m.

Definition getSimplex (index : nat) (m : Mesh) : Result (list nat) :=
  if getSimplicesNumber m <=? index
  then Throw (InvalidArgumentException
                ("Error: the simplex index=" ++ show index
                 ++ " must be less than the number of simplices="
                 ++ show (getSimplicesNumber m)))
  else Ok (simplices_ m !!! index).

(** *** Validity *)

(** Modelled from the spec: [Indices::check] is not part of the sources at
    hand; the validity invariant it serves is that every index referenced by
    a simplex is below the number of vertices. *)
Definition Indices_check (indices : Indices) (bound : nat) : bool :=
  forallb (fun index => index <? bound) indices.

(** The loop of [checkValidity] from simplex [i] on. *)
Fixpoint checkValidity_from (m : Mesh) (i : nat) (rest : IndicesCollection)
  : Result unit :=
  match rest with
  | [] => Ok tt
  | simplex :: rest' =>
      if negb (length simplex =? getDimension m + 1)
      then Throw (InvalidArgumentException
                    ("Error: mesh has dimension " ++ show (getDimension m)
                     ++ " but simplex #" ++ show i ++ " has size"
                     ++ show (length simplex)))
      else if negb (Indices_check simplex (getVerticesNumber m))
      then Throw (InvalidArgumentException
                    ("Error: mesh has " ++ show (getVerticesNumber m)
                     ++ " vertices but simplex #" ++ show i
                     ++ " refers to an unknown vertex"))
      else checkValidity_from m (S i) rest'
  end.

Definition checkValidity (m : Mesh) : Result unit :=
  checkValidity_from m 0 (simplices_ m).

Definition isValid (m : Mesh) : bool :=
  match checkValidity m with
  | Ok _ => true
  | Throw _ => false
  end.

(** *** Points, intervals, results *)

(** Modelled from the spec: the difference of two points is not part of the
    sources at hand; operands of different dimensions are an invalid
    argument. *)
Definition Point_sub (a b : Point) : Result (list Q) :=
  if negb (length a =? length b)
  then Throw (InvalidArgumentException
                ("Points of different dimensions cannot be substracted"
                 ++ " (LHS dimension = " ++ show (length a)
                 ++ "; RHS dimension = " ++ show (length b)))
  else Ok (zip_with Qminus a b).

(** Modelled from the spec: the squared Euclidean norm of a point. *)
Definition normSquare (a : Point) : Q :=
  fold_left (fun acc x => (acc + x * x)%Q) a 0%Q.

Definition Qmin (a b : Q) : Q := if Qltb b a then b else a.
Definition Qmax (a b : Q) : Q := if Qltb a b then b else a.

(** Modelled from the spec: [Sample::getMin] and [Sample::getMax] are not
    part of the sources at hand; they give the corners of the overall
    bounding box of the vertices, and refuse a sample without rows. *)
Definition Sample_getMin (sample : Sample) : Result (list Q) :=
  match sample with
  | [] => Throw (InternalException
                   "Impossible to get the minimum of an empty Sample")
  | row :: rest => Ok (fold_left (zip_with Qmin) rest row)
  end.

Definition Sample_getMax (sample : Sample) : Result (list Q) :=
  match sample with
  | [] => Throw (InternalException
                   "Impossible to get the maximum of an empty Sample")
  | row :: rest => Ok (fold_left (zip_with Qmax) rest row)
  end.

(** Modelled from the spec: [Interval(lower, upper).contains(point)], the
    closed box test; a point of another dimension is an invalid argument. *)
Definition Interval_contains (lower upper point : Point) : Result bool :=
  if negb (length point =? length lower)
  then Throw (InvalidArgumentException
                ("Error: expected a point of dimension " ++ show (length lower)
                 ++ ", got a point of dimension " ++ show (length point)))
  else Ok (negb (existsb
                   (fun i => Qltb (point !!! i) (lower !!! i)
                             || Qltb (upper !!! i) (point !!! i))
                   (seq 0 (length lower)))).

Definition Result_bind {A B} (r : Result A) (k : A -> Result B) : Result B :=
  match r with Ok a => k a | Throw e => Throw e end.

Fixpoint Result_mapM {A B} (f : A -> Result B) (l : list A)
  : Result (list B) :=
  match l with
  | [] => Ok []
  | a :: l' =>
      Result_bind (f a) (fun b =>
      Result_bind (Result_mapM f l') (fun bs => Ok (b :: bs)))
  end.

(** *** Parallel reduction *)

(** The body of a [TBB::ParallelReduce]: [operator()] over a blocked range,
    the splitting constructor and [join]. *)
Class Body (B : Type) : Type := {
  body_apply : B -> nat -> nat -> Result B;
  body_split : B -> B;
  body_join : B -> B -> B
}.

(** A cut point outside the range is brought back into it. *)
Definition clamp (lo hi mid : nat) : nat := Nat.max lo (Nat.min mid hi).

Fixpoint runSchedule {B} `{Body B} (s : Schedule) (lo hi : nat) (body : B)
  : Result B :=
  match s with
  | Whole => body_apply body lo hi
  | Cut mid l r =>
      Result_bind (runSchedule l lo (clamp lo hi mid) body) (fun body' =>
      runSchedule r (clamp lo hi mid) hi body')
  | Fork mid l r =>
      let other := body_split body in
      Result_bind (runSchedule l lo (clamp lo hi mid) body) (fun body' =>
      Result_bind (runSchedule r (clamp lo hi mid) hi other) (fun other' =>
      Ok (body_join body' other')))
  end.

Record NearestFunctor : Type := mkNearestFunctor {
  nf_mesh_ : Mesh;
  nf_point_ : list Q;
  minDistance_ : Q;
  minIndex_ : nat
}.

Record VolumeFunctor : Type := mkVolumeFunctor {
  vf_mesh_ : Mesh;
  accumulator_ : Q
}.

Section MeshQueries.
Context {lib : Collaborators}.

Definition ParallelReduce {B} `{Body B} (from to : nat) (body : B)
  : Result B :=
  runSchedule (partition from to) from to body.

(** **** Bounding box of the domain *)

Definition getLowerBound (m : Mesh) : Result (list Q) :=
  Sample_getMin (vertices_ m).

Definition getUpperBound (m : Mesh) : Result (list Q) :=
  Sample_getMax (vertices_ m).

(** **** Point in simplex *)

Definition buildSimplexMatrix (index : nat) (m : Mesh)
  : Result (list (list Q)) :=
  if getSimplicesNumber m <=? index
  then Throw (InvalidArgumentException
                ("Error: the simplex index=" ++ show index
                 ++ " must be less than the number of simplices="
                 ++ show (getSimplicesNumber m)))
  else
    let vertexIndices := simplices_ m !!! index in
    let vertexJ j := vertices_ m !!! (vertexIndices !!! j) in
    Ok (map (fun i => map (fun j => vertexJ j !!! i)
                        (seq 0 (dimension_ m + 1)))
            (seq 0 (dimension_ m))
        ++ [replicate (dimension_ m + 1) 1%Q]).

(** The second component is the [coordinates] out-parameter. *)
Definition checkPointInSimplexWithCoordinates
    (point : Point) (index : nat) (coordinates : Point) (m : Mesh)
  : Result (bool * list Q) :=
  if (0 <? length (lowerBoundingBoxSimplices_ m))
     && existsb
          (fun i =>
             Qltb (point !!! i) (at2 (lowerBoundingBoxSimplices_ m) index i)
             || Qltb (at2 (upperBoundingBoxSimplices_ m) index i)
                     (point !!! i))
          (seq 0 (dimension_ m))
  then Ok (false, coordinates)
  else
    Result_bind (buildSimplexMatrix index m) (fun matrix =>
    let v := point ++ [1%Q] in
    let coordinates := solveLinearSystem matrix v in
    Ok (negb (existsb
                (fun i => Qltb (coordinates !!! i) 0
                          || Qltb 1 (coordinates !!! i))
                (seq 0 (dimension_ m + 1))),
        coordinates)).

Definition checkPointInSimplex (point : Point) (index : nat) (m : Mesh)
  : Result bool :=
  Result_bind (checkPointInSimplexWithCoordinates point index [] m)
    (fun r => Ok (fst r)).

(** **** Incidence map and bounding boxes of the simplices *)

(** Body of the loop over the coordinates [k]. *)
Definition boundingBoxStep (i index : nat) (m : Mesh) (k : nat) : Mesh :=
  let x := at2 (vertices_ m) index k in
  let m :=
    if Qltb x (at2 (lowerBoundingBoxSimplices_ m) i k)
    then set_lowerBoundingBoxSimplices_
           (set2 (lowerBoundingBoxSimplices_ m) i k x) m
    else m in
  if Qltb (at2 (upperBoundingBoxSimplices_ m) i k) x
  then set_upperBoundingBoxSimplices_
         (set2 (upperBoundingBoxSimplices_ m) i k x) m
  else m.

(** Body of the loop over the entries [index = simplex[j]]. *)
Definition simplexVertexStep (i : nat) (m : Mesh) (index : nat) : Mesh :=
  let m := fold_left (boundingBoxStep i index) (seq 0 (dimension_ m)) m in
  set_verticesToSimplices_
    (alter (fun simplices => simplices ++ [i]) index (verticesToSimplices_ m))
    m.

(** The loop over the simplices, from simplex [i] on. *)
Fixpoint simplicesLoop (i : nat) (rest : IndicesCollection) (m : Mesh)
  : Mesh :=
  match rest with
  | [] => m
  | simplex :: rest' =>
      simplicesLoop (S i) rest' (fold_left (simplexVertexStep i) simplex m)
  end.

Definition getVerticesToSimplicesMap : M (list (list nat)) :=
  fun m =>
    if 0 <? length (verticesToSimplices_ m)
    then (Ok (verticesToSimplices_ m), m)
    else
      let numSimplices := getSimplicesNumber m in
      let numVertices := getVerticesNumber m in
      let m := set_verticesToSimplices_ (replicate numVertices []) m in
      let m := set_lowerBoundingBoxSimplices_
                 (replicate numSimplices
                    (replicate (dimension_ m) MaxScalar)) m in
      let m := set_upperBoundingBoxSimplices_
                 (replicate numSimplices
                    (replicate (dimension_ m) (- MaxScalar)%Q)) m in
      let m := simplicesLoop 0 (simplices_ m) m in
      (Ok (verticesToSimplices_ m), m).

(** **** Nearest vertex *)

Definition NearestFunctor_new (m : Mesh) (point : Point) : NearestFunctor :=
  mkNearestFunctor m point MaxScalar 0.

(** Body of the loop of [operator()]. *)
Definition NearestFunctor_step (f : NearestFunctor) (i : nat)
  : Result NearestFunctor :=
  Result_bind (Point_sub (nf_point_ f) (getVertices (nf_mesh_ f) !!! i))
    (fun difference =>
       let d := normSquare difference in
       Ok (if Qltb d (minDistance_ f)
           then mkNearestFunctor (nf_mesh_ f) (nf_point_ f) d i
           else f)).

(** [for (i = r.begin(); i != r.end(); ++i) ...] *)
Fixpoint NearestFunctor_loop (f : NearestFunctor) (range : list nat)
  : Result NearestFunctor :=
  match range with
  | [] => Ok f
  | i :: range' =>
      Result_bind (NearestFunctor_step f i) (fun f' =>
      NearestFunctor_loop f' range')
  end.

#[export] Instance NearestFunctor_Body : Body NearestFunctor := {
  body_apply f lo hi := NearestFunctor_loop f (seq lo (hi - lo));
  body_split other := NearestFunctor_new (nf_mesh_ other) (nf_point_ other);
  body_join f other :=
    if Qltb (minDistance_ other) (minDistance_ f)
    then mkNearestFunctor (nf_mesh_ f) (nf_point_ f)
           (minDistance_ other) (minIndex_ other)
    else f
}.

Definition KDTree_getNearestNeighbourIndex (tree : KDTree) (point : Point)
  : nat :=
  match tree with
  | KDTree_default => 0
  | KDTree_of points => getNearestNeighbourIndex points point
  end.

Definition getNearestVertexIndex (point : Point) (m : Mesh) : Result nat :=
  if negb (length point =? getDimension m)
  then Throw (InvalidArgumentException
                ("Error: expected a point of dimension "
                 ++ show (getDimension m)
                 ++ ", got a point of dimension " ++ show (length point)))
  else if negb (KDTree_isEmpty (tree_ m))
  then Ok (KDTree_getNearestNeighbourIndex (tree_ m) point)
  else
    Result_bind
      (ParallelReduce 0 (getVerticesNumber m) (NearestFunctor_new m point))
      (fun functor => Ok (minIndex_ functor)).

(** **** Containment *)

(** [for (...) if (checkPointInSimplex(point, i)) return true;] *)
Fixpoint anyInSimplex (point : Point) (candidates : Indices) (m : Mesh)
  : Result bool :=
  match candidates with
  | [] => Ok false
  | i :: rest =>
      Result_bind (checkPointInSimplex point i m) (fun inside =>
      if inside then Ok true else anyInSimplex point rest m)
  end.

Definition refreshVerticesToSimplicesMap : M unit :=
  size <- gets (fun m => length (verticesToSimplices_ m)) ;;
  if size =? 0 then (getVerticesToSimplicesMap ;;; ret tt) else ret tt.

Definition contains (point : Point) : M bool :=
  lower <- query getLowerBound ;;
  upper <- query getUpperBound ;;
  inside <- query (fun _ => Interval_contains lower upper point) ;;
  if negb inside then ret false
  else
    nearestIndex <- query (getNearestVertexIndex point) ;;
    refreshVerticesToSimplicesMap ;;;
    simplicesCandidates <-
      gets (fun m => verticesToSimplices_ m !!! nearestIndex) ;;
    found <- query (anyInSimplex point simplicesCandidates) ;;
    if found then ret true
    else
      simplicesSize <- gets getSimplicesNumber ;;
      query (anyInSimplex point (seq 0 simplicesSize)).

(** The loop over the candidates, left at the first simplex that holds the
    point; [result] and [coordinates] are the variables it updates. *)
Fixpoint candidatesLoop (point : Point) (candidates : Indices)
    (result : Indices) (coordinates : Point) (m : Mesh)
  : Result (list nat * list Q) :=
  match candidates with
  | [] => Ok (result, coordinates)
  | simplexIndex :: rest =>
      Result_bind
        (checkPointInSimplexWithCoordinates point simplexIndex coordinates m)
        (fun r =>
           if fst r then Ok (result ++ [simplexIndex], snd r)
           else candidatesLoop point rest result (snd r) m)
  end.

Definition getNearestVertexAndSimplexIndicesWithCoordinates (point : Point)
  : M (list nat * list Q) :=
  dimension <- gets getDimension ;;
  if negb (length point =? dimension)
  then throw (InvalidArgumentException
                ("Error: expected a point of dimension " ++ show dimension
                 ++ ", got a point of dimension " ++ show (length point)))
  else
    nearestIndex <- query (getNearestVertexIndex point) ;;
    let result := [nearestIndex] in
    refreshVerticesToSimplicesMap ;;;
    simplicesCandidates <-
      gets (fun m => verticesToSimplices_ m !!! nearestIndex) ;;
    found <- query (candidatesLoop point simplicesCandidates result []) ;;
    let '(result, coordinates) := found in
    ret (result, if length result =? 1 then [] else coordinates).

(** **** Volumes and weights *)

Definition computeSimplexVolume (index : nat) (m : Mesh) : Result Q :=
  if getSimplicesNumber m <=? index
  then Throw (InvalidArgumentException
                ("Error: the simplex index=" ++ show index
                 ++ " must be less than the number of simplices="
                 ++ show (getSimplicesNumber m)))
  else if getDimension m =? 1 then
    let x0 := at2 (vertices_ m) ((simplices_ m !!! index) !!! 0) 0 in
    let x1 := at2 (vertices_ m) ((simplices_ m !!! index) !!! 1) 0 in
    Ok (Qabs (x1 - x0))
  else if getDimension m =? 2 then
    let x0 := at2 (vertices_ m) ((simplices_ m !!! index) !!! 0) 0 in
    let y0 := at2 (vertices_ m) ((simplices_ m !!! index) !!! 0) 1 in
    let x1 := at2 (vertices_ m) ((simplices_ m !!! index) !!! 1) 0 in
    let y1 := at2 (vertices_ m) ((simplices_ m !!! index) !!! 1) 1 in
    let x2 := at2 (vertices_ m) ((simplices_ m !!! index) !!! 2) 0 in
    let y2 := at2 (vertices_ m) ((simplices_ m !!! index) !!! 2) 1 in
    Ok ((1 # 2) * Qabs ((x2 - x0) * (y1 - y0) - (x0 - x1) * (y2 - y0)))%Q
  else
    Result_bind (buildSimplexMatrix index m) (fun matrix =>
    (* exp(log|det| - LogGamma(dimension_ + 1)) *)
    Ok (computeAbsoluteDeterminant matrix
        / inject_Z (Z.of_nat (fact (dimension_ m))))%Q).

Definition VolumeFunctor_new (m : Mesh) : VolumeFunctor :=
  mkVolumeFunctor m 0%Q.

(** [for (i = r.begin(); i != r.end(); ++i) accumulator_ += ...] *)
Fixpoint VolumeFunctor_loop (f : VolumeFunctor) (range : list nat)
  : Result VolumeFunctor :=
  match range with
  | [] => Ok f
  | i :: range' =>
      Result_bind (computeSimplexVolume i (vf_mesh_ f)) (fun v =>
      VolumeFunctor_loop
        (mkVolumeFunctor (vf_mesh_ f) (accumulator_ f + v)%Q) range')
  end.

#[export] Instance VolumeFunctor_Body : Body VolumeFunctor := {
  body_apply f lo hi := VolumeFunctor_loop f (seq lo (hi - lo));
  body_split other := VolumeFunctor_new (vf_mesh_ other);
  body_join f other :=
    mkVolumeFunctor (vf_mesh_ f) (accumulator_ f + accumulator_ other)%Q
}.

Definition computeVolume : M Q :=
  functor <- query (fun m => ParallelReduce 0 (getSimplicesNumber m)
                               (VolumeFunctor_new m)) ;;
  modify (set_isAlreadyComputedVolume_ true) ;;;
  ret (accumulator_ functor).

Definition getVolume : M Q :=
  computed <- gets isAlreadyComputedVolume_ ;;
  (if negb computed
   then (v <- computeVolume ;; modify (set_volume_ v))
   else ret tt) ;;;
  gets volume_.

Definition computeWeights : M (list Q) :=
  numSimplices <- gets getSimplicesNumber ;;
  simplicesVolume <-
    query (fun m => Result_mapM (fun i => computeSimplexVolume i m)
                      (seq 0 numSimplices)) ;;
  verticesToSimplices <- getVerticesToSimplicesMap ;;
  numVertices <- gets getVerticesNumber ;;
  let weights :=
    map (fun i =>
           fold_left (fun weight s => (weight + simplicesVolume !!! s)%Q)
             (verticesToSimplices !!! i) 0%Q)
        (seq 0 numVertices) in
  dimension <- gets dimension_ ;;
  ret (map (fun w => (w / (inject_Z (Z.of_nat dimension) + 1))%Q) weights).

End MeshQueries.

Arguments refreshVerticesToSimplicesMap : simpl never.

(** *** Inner faces *)

(** [std::set_intersection] over two ranges, written to a fresh vector. *)
Fixpoint set_intersection (range1 range2 : list nat) : list nat :=
  match range1 with
  | [] => []
  | x :: rest1 =>
      (fix advance2 (range2 : list nat) : list nat :=
         match range2 with
         | [] => []
         | y :: rest2 =>
             if x <? y then set_intersection rest1 range2
             else if y <? x then advance2 rest2
             else x :: set_intersection rest1 rest2
         end) range2
  end.

(** Arguments must be sorted. *)
Definition isInnerFace (simplices0 simplices1 simplices2 : Indices) : bool :=
  let common01 := set_intersection simplices0 simplices1 in
  if length common01 <? 2 then false
  else
    let common012 := set_intersection simplices2 common01 in
    1 <? length common012.

(** ** The states a program can bring a mesh into *)

Inductive reachable {lib : Collaborators} : Mesh -> Prop :=
| reachable_default dimension :
    reachable (Mesh_default dimension)
| reachable_of_vertices vertices :
    reachable (Mesh_of_vertices vertices)
| reachable_of vertices simplices :
    reachable (Mesh_of vertices simplices)
| reachable_setVertices vertices m :
    reachable m -> reachable (setVertices vertices m)
| reachable_setVertex index vertex m :
    reachable m -> index < getVerticesNumber m ->
    reachable (setVertex index vertex m)
| reachable_setSimplices simplices m :
    reachable m -> reachable (setSimplices simplices m)
| reachable_computeKDTree m :
    reachable m -> reachable (computeKDTree m)
| reachable_getVerticesToSimplicesMap m :
    reachable m -> reachable (snd (getVerticesToSimplicesMap m))
| reachable_contains point m :
    reachable m -> reachable (snd (contains point m))
| reachable_getNearestVertexAndSimplexIndicesWithCoordinates point m :
    reachable m ->
    reachable (snd (getNearestVertexAndSimplexIndicesWithCoordinates point m))
| reachable_computeVolume m :
    reachable m -> reachable (snd (computeVolume m))
| reachable_getVolume m :
    reachable m -> reachable (snd (getVolume m))
| reachable_computeWeights m :
    reachable m -> reachable (snd (computeWeights m)).

(** ** Notions the properties are stated with *)

(** The incidence part of [simplicesLoop], on its own. *)
Fixpoint incidenceLoop (i : nat) (rest : IndicesCollection)
    (incidence : IndicesCollection) : list (list nat) :=
  match rest with
  | [] => incidence
  | simplex :: rest' =>
      incidenceLoop (S i) rest'
        (fold_left
           (fun incidence index =>
              alter (fun simplices => simplices ++ [i]) index incidence)
           simplex incidence)
  end.

(** The simplices of vertex [v] are listed in increasing order, strictly or
    not. *)
Definition increasing (simplices : Indices) : Prop :=
  StronglySorted le simplices.

Definition strictly_increasing (simplices : Indices) : Prop :=
  StronglySorted lt simplices.

(** The incidence map is unset, or the one of the present simplices. *)
Definition incidence_coherent (m : Mesh) : Prop :=
  verticesToSimplices_ m = []
  \/ verticesToSimplices_ m
     = incidenceLoop 0 (simplices_ m) (replicate (getVerticesNumber m) []).

(** The bounding box of each simplex encloses the vertices of the simplex. *)
Definition boxes_enclose (m : Mesh) : Prop :=
  forall i j k,
    i < getSimplicesNumber m ->
    j < length (simplices_ m !!! i) ->
    k < dimension_ m ->
    (at2 (lowerBoundingBoxSimplices_ m) i k
       <= at2 (vertices_ m) ((simplices_ m !!! i) !!! j) k)%Q
    /\ (at2 (vertices_ m) ((simplices_ m !!! i) !!! j) k
          <= at2 (upperBoundingBoxSimplices_ m) i k)%Q.

(** The caches are unset, or the boxes enclose the vertices as they are. *)
Definition boxes_coherent (m : Mesh) : Prop :=
  verticesToSimplices_ m = []
  \/ lowerBoundingBoxSimplices_ m = []
  \/ boxes_enclose m.

(** The box tables have one row of [dimension_] coordinates per simplex. *)
Definition box_shape (m : Mesh) : Prop :=
  length (lowerBoundingBoxSimplices_ m) = getSimplicesNumber m
  /\ length (upperBoundingBoxSimplices_ m) = getSimplicesNumber m
  /\ Forall (fun row => length row = dimension_ m)
       (lowerBoundingBoxSimplices_ m)
  /\ Forall (fun row => length row = dimension_ m)
       (upperBoundingBoxSimplices_ m).

(** From [m] to [m'] no box has shrunk. *)
Definition box_widened (m m' : Mesh) : Prop :=
  forall i k,
    (at2 (lowerBoundingBoxSimplices_ m') i k
       <= at2 (lowerBoundingBoxSimplices_ m) i k)%Q
    /\ (at2 (upperBoundingBoxSimplices_ m) i k
          <= at2 (upperBoundingBoxSimplices_ m') i k)%Q.

(** Coordinate [k] of vertex [index] is within the box of simplex [i]. *)
Definition box_holds (m : Mesh) (i index k : nat) : Prop :=
  (at2 (lowerBoundingBoxSimplices_ m) i k <= at2 (vertices_ m) index k)%Q
  /\ (at2 (vertices_ m) index k <= at2 (upperBoundingBoxSimplices_ m) i k)%Q.

(** Every vertex has as many coordinates as the mesh has dimensions. *)
Definition rectangular (m : Mesh) : Prop :=
  Forall (fun vertex => length vertex = dimension_ m) (vertices_ m).

(** [m'] differs from [m] in its caches at most. *)
Definition same_store (m m' : Mesh) : Prop :=
  dimension_ m' = dimension_ m
  /\ vertices_ m' = vertices_ m
  /\ simplices_ m' = simplices_ m
  /\ tree_ m' = tree_ m
  /\ isAlreadyComputedVolume_ m' = isAlreadyComputedVolume_ m
  /\ volume_ m' = volume_ m.

(** One step of the incidence loop: simplex [i] is appended to the list of
    vertex [index]. *)
Definition addIncidence (i : nat) (incidence : IndicesCollection)
    (index : nat) : list (list nat) :=
  alter (fun simplices => simplices ++ [i]) index incidence.

(** Every simplex index held by the incidence map is below [bound]. *)
Definition incidence_below (bound : nat) (incidence : IndicesCollection)
  : Prop :=
  Forall (Forall (fun s => s < bound)) incidence.

(** Every incidence list is sorted along [R] and holds simplex indices below
    [i] only. *)
Definition lists_below (R : nat -> nat -> Prop) (i : nat)
    (incidence : IndicesCollection) : Prop :=
  Forall (fun l => StronglySorted R l /\ Forall (fun s => s < i) l)
    incidence.

(** The functor still looks at the mesh and the point it was made for. *)
Definition looks_at (m : Mesh) (point : Point) (f : NearestFunctor) : Prop :=
  nf_mesh_ f = m /\ nf_point_ f = point.

(** What [checkValidity] rejects a simplex for. *)
Definition ill_formed (m : Mesh) (simplex : Indices) : Prop :=
  length simplex <> getDimension m + 1
  \/ Exists (fun index => getVerticesNumber m <= index) simplex.

Definition Qsum (l : list Q) : Q := fold_right Qplus 0%Q l.

Definition dot (row x : list Q) : Q :=
  Qsum (zip_with Qmult row x).

(** [x] solves [matrix * x = rhs], row by row. *)
Definition solves (matrix : SquareMatrix) (x rhs : Point) : Prop :=
  Forall2 (fun row b => (dot row x == b)%Q) matrix rhs.

Definition in_unit_interval (c : Q) : Prop := (0 <= c)%Q /\ (c <= 1)%Q.

Section Notions.
Context {lib : Collaborators}.

(** The barycentric coordinates of [point] in simplex [index]: the solution
    of the simplex matrix system for the homogeneous point. *)
Definition barycentric (point : Point) (index : nat) (m : Mesh) : list Q :=
  match buildSimplexMatrix index m with
  | Ok matrix => solveLinearSystem matrix (point ++ [1%Q])
  | Throw _ => []
  end.

(** All [dimension + 1] barycentric coordinates lie in [[0, 1]]. *)
Definition barycentric_in_simplex (point : Point) (index : nat) (m : Mesh)
  : Prop :=
  forall j, j <= dimension_ m ->
            in_unit_interval (barycentric point index m !!! j).

(** The linear solver returns a solution for every simplex of the mesh. *)
Definition solver_exact_on (point : Point) (m : Mesh) : Prop :=
  forall index matrix,
    buildSimplexMatrix index m = Ok matrix ->
    solves matrix (solveLinearSystem matrix (point ++ [1%Q]))
      (point ++ [1%Q]).

(** The early exit of [checkPointInSimplexWithCoordinates]: boxes are there
    and the point is outside the box of simplex [index]. *)
Definition outsideBoundingBox (point : Point) (index : nat) (m : Mesh) : bool :=
  (0 <? length (lowerBoundingBoxSimplices_ m))
  && existsb
       (fun i =>
          Qltb (point !!! i) (at2 (lowerBoundingBoxSimplices_ m) index i)
          || Qltb (at2 (upperBoundingBoxSimplices_ m) index i) (point !!! i))
       (seq 0 (dimension_ m)).

(** Its final loop: the first [n] coordinates lie in [[0, 1]]. *)
Definition coordinatesInUnitInterval (n : nat) (coordinates : Point) : bool :=
  negb (existsb
          (fun i => Qltb (coordinates !!! i) 0 || Qltb 1 (coordinates !!! i))
          (seq 0 n)).

(** The volumes of the simplices that the incidence map lists, every simplex
    as often as it is listed. *)
Definition listedVolume (volume : nat -> Q) (incidence : IndicesCollection)
  : Q :=
  Qsum (map (fun simplices => Qsum (map volume simplices)) incidence).

(** Squared distance from [point] to vertex [i]. *)
Definition squaredDistance (point : Point) (m : Mesh) (i : nat) : Q :=
  normSquare (zip_with Qminus point (getVertices m !!! i)).

(** The step of the scan over the vertices, for a point and vertices of one
    dimension. *)
Definition scanStep (f : NearestFunctor) (i : nat) : NearestFunctor :=
  let d := squaredDistance (nf_point_ f) (nf_mesh_ f) i in
  if Qltb d (minDistance_ f)
  then mkNearestFunctor (nf_mesh_ f) (nf_point_ f) d i
  else f.

(** The volume of simplex [index], when there is such a simplex. *)
Definition simplexVolume (m : Mesh) (index : nat) : Q :=
  match computeSimplexVolume index m with
  | Ok v => v
  | Throw _ => 0%Q
  end.
End Notions.

(** ** An exact instance of the collaborators *)

Module Exact.

Definition dropColumn (j : nat) (row : list Q) : list Q :=
  take j row ++ drop (S j) row.

(** Determinant of an [n] by [n] matrix, expanded along its first row. *)
Fixpoint determinant (n : nat) (matrix : list (list Q)) : Q :=
  match n, matrix with
  | S n', row :: rest =>
      Qsum (map (fun j =>
                   ((if Nat.even j then 1 else -1) * (row !!! j)
                    * determinant n' (map (dropColumn j) rest))%Q)
                (seq 0 n))
  | _, _ => 1%Q
  end.

Definition replaceColumn (j : nat) (b : list Q) (matrix : list (list Q))
  : list (list Q) :=
  zip_with (fun row bi => <[j := bi]> row) matrix b.

(** Cramer's rule. *)
Definition solve (matrix : list (list Q)) (b : list Q) : list Q :=
  let n := length matrix in
  map (fun j => Qred (determinant n (replaceColumn j b matrix)
                      / determinant n matrix)%Q)
      (seq 0 n).

(** Linear scan for the nearest point, first minimum kept. *)
Definition nearest (points : list (list Q)) (point : list Q) : nat :=
  snd (fold_left
         (fun best i =>
            let d := normSquare (zip_with Qminus point (points !!! i)) in
            match fst best with
            | Some d0 => if Qltb d d0 then (Some d, i) else best
            | None => (Some d, i)
            end)
         (seq 0 (length points)) (None, 0)).

(** The largest finite [double]. *)
Definition maxDouble : Q := inject_Z (2 ^ 1024 - 2 ^ 971).

#[export] Instance collaborators : Collaborators := {
  MaxScalar := maxDouble;
  solveLinearSystem := solve;
  computeAbsoluteDeterminant matrix :=
    Qabs (determinant (length matrix) matrix);
  getNearestNeighbourIndex := nearest;
  partition lo hi := Fork ((lo + hi) / 2) Whole Whole
}.

(** The unit segment of the line. *)
Definition segment : Mesh := Mesh_of [[0%Q]; [1%Q]] [[0; 1]].

(** The segment from 0 to 10 and a vertex at 4 that no simplex uses. *)
Definition looseVertex : Mesh :=
Mesh_of [[0%Q]; [10%Q]; [4%Q]] [[0; 1]].

(** Three vertices on the line, the first two joined by a segment. *)
Definition threeOnALine : Mesh :=
Mesh_of [[0%Q]; [1%Q]; [3%Q]] [[0; 1]].

(** A mesh of the line whose only simplex has three entries. *)
Definition overlong : Mesh :=
Mesh_of [[0%Q]; [1%Q]; [2%Q]] [[0; 1; 2]].

(** The unit right triangle of the plane. *)
Definition triangle : Mesh :=
  Mesh_of [[0%Q; 0%Q]; [1%Q; 0%Q]; [0%Q; 1%Q]] [[0; 1; 2]].

End Exact.

(** ** More of the mesh: batched queries, regularity, equality, faces *)

(** What the mesh reads from [ResourceMap]. *)
Class Resources : Type := {
  (** the scalar at ["Domain-SmallVolume"] *)
  Domain_SmallVolume : Q;
  (** the scalar at ["Mesh-VertexEpsilon"] *)
  Mesh_VertexEpsilon : Q;
  (** the flag at ["Mesh-BackfaceCulling"] *)
  Mesh_BackfaceCulling : bool
}.

(** Modelled from the spec: [TBB::ParallelFor] runs the body on each part of
    the range, over an output that the parts share.  The parts are run one
    after the other in the order the schedule gives; the right part of a
    [Fork] comes first. *)
Fixpoint runParallelFor {Shared : Type}
    (body : nat -> nat -> Shared -> Result Shared)
    (s : Schedule) (lo hi : nat) (shared : Shared) : Result Shared :=
  match s with
  | Whole => body lo hi shared
  | Cut mid l r =>
      Result_bind (runParallelFor body l lo (clamp lo hi mid) shared)
        (runParallelFor body r (clamp lo hi mid) hi)
  | Fork mid l r =>
      Result_bind (runParallelFor body r (clamp lo hi mid) hi shared)
        (runParallelFor body l lo (clamp lo hi mid))
  end.

(** The policy holds references to the points and to the mesh; the indices
    it writes are the shared output. *)
Record MeshNearestPolicy : Type := mkMeshNearestPolicy {
  mnp_points_ : Sample;
  mnp_mesh_ : Mesh
}.

(** Modelled from the spec: two samples are equal when they are equal by
    value, scalar by scalar. *)
Fixpoint Point_eqb (a b : Point) : bool :=
  match a, b with
  | [], [] => true
  | x :: a', y :: b' => Qeq_bool x y && Point_eqb a' b'
  | _, _ => false
  end.

Fixpoint Sample_eqb (a b : Sample) : bool :=
  match a, b with
  | [], [] => true
  | x :: a', y :: b' => Point_eqb x y && Sample_eqb a' b'
  | _, _ => false
  end.

(** [operator==]; a mesh compared with itself is equal by value as well. *)
Definition Mesh_eqb (m other : Mesh) : bool :=
  Sample_eqb (vertices_ m) (vertices_ other)
  && bool_decide (simplices_ m = simplices_ other).

(** The loop of [isRegular] over the simplices [range], left at the first
    step that is off. *)
Fixpoint isRegular_loop (m : Mesh) (epsilon step : Q) (range : list nat)
    (regular : bool) : bool :=
  match range with
  | [] => regular
  | i :: range' =>
      let regular :=
        regular
        && Qltb (Qabs (Qminus
                         (Qminus
                            (at2 (vertices_ m) ((simplices_ m !!! i) !!! 1) 0)
                            (at2 (vertices_ m) ((simplices_ m !!! i) !!! 0) 0))
                         step))
                epsilon in
      if negb regular then regular
      else isRegular_loop m epsilon step range' regular
  end.

(** Orientation of a face on the screen. *)
Definition isVisible (visuVertex0 visuVertex1 visuVertex2 : Point) : bool :=
  Qle_bool
    ((visuVertex1 !!! 0%nat - visuVertex0 !!! 0%nat)
     * (visuVertex2 !!! 1%nat - visuVertex0 !!! 1%nat))%Q
    ((visuVertex1 !!! 1%nat - visuVertex0 !!! 1%nat)
     * (visuVertex2 !!! 0%nat - visuVertex0 !!! 0%nat))%Q.

(** [draw3D], third step: the four faces of a simplex, in the order in
    which the loop over the simplices goes through them. *)
Definition simplexFaces (simplex : Indices) : list (nat * nat * nat) :=
  let i0 := simplex !!! 0 in
  let i1 := simplex !!! 1 in
  let i2 := simplex !!! 2 in
  let i3 := simplex !!! 3 in
  [(i0, i1, i2); (i0, i2, i3); (i0, i3, i1); (i1, i3, i2)].

(** One face: it is entered, with the sum of the depths of its vertices,
    when it faces the viewer or culling is off, and is no inner face. *)
Definition addFace (backfaceCulling : bool) (visuVertices : Sample)
    (verticesToSimplices : IndicesCollection)
    (trianglesAndDepth : list (Q * list nat)) (face : nat * nat * nat)
  : list (Q * list nat) :=
  let '(a, b, c) := face in
  if (negb backfaceCulling
      || isVisible (visuVertices !!! a) (visuVertices !!! b)
           (visuVertices !!! c))
     && negb (isInnerFace (verticesToSimplices !!! a)
                (verticesToSimplices !!! b) (verticesToSimplices !!! c))
  then trianglesAndDepth
       ++ [(Qplus (Qplus (at2 visuVertices a 2) (at2 visuVertices b 2))
              (at2 visuVertices c 2),
            [a; b; c])]
  else trianglesAndDepth.

Section FurtherQueries.
Context {lib : Collaborators} {resources : Resources}.

(** [draw3D], third step: the simplices are split into triangles, over the
    vertices [visuVertices] that the second step has turned towards the
    viewer.  The checks and the rotation before it and the drawing after it
    are not modelled. *)
Definition splitIntoTriangles (visuVertices : Sample)
  : M (list (Q * list nat)) :=
  refreshVerticesToSimplicesMap ;;;
  backfaceCulling <- ret Mesh_BackfaceCulling ;;
  gets (fun m =>
          fold_left
            (fun trianglesAndDepth i =>
               fold_left
                 (addFace backfaceCulling visuVertices (verticesToSimplices_ m))
                 (simplexFaces (simplices_ m !!! i)) trianglesAndDepth)
            (seq 0 (getSimplicesNumber m)) []).

Definition ParallelFor {Shared : Type}
    (from to : nat) (body : nat -> nat -> Shared -> Result Shared)
    (shared : Shared) : Result Shared :=
  runParallelFor body (partition from to) from to shared.

(** [getNearestVertex(const Point &)] *)
Definition getNearestVertex (point : Point) (m : Mesh) : Result (list Q) :=
  Result_bind (getNearestVertexIndex point m) (fun index =>
  Ok (vertices_ m !!! index)).

(** [for (i = r.begin(); i != r.end(); ++i) indices_[i] = ...] *)
Fixpoint MeshNearestPolicy_loop (policy : MeshNearestPolicy)
    (range : list nat) (indices_ : Indices) : Result (list nat) :=
  match range with
  | [] => Ok indices_
  | i :: range' =>
      Result_bind
        (getNearestVertexIndex (mnp_points_ policy !!! i) (mnp_mesh_ policy))
        (fun index =>
           MeshNearestPolicy_loop policy range' (<[i := index]> indices_))
  end.

Definition MeshNearestPolicy_apply (policy : MeshNearestPolicy)
    (lo hi : nat) (indices_ : Indices) : Result (list nat) :=
  MeshNearestPolicy_loop policy (seq lo (hi - lo)) indices_.

(** [getNearestVertexIndex(const Sample &)], on the sample of dimension
    [pointsDimension] whose rows are [points]: [points.getDimension()] is
    [pointsDimension], also when the sample has no row, and
    [points.getSize()] is the number of rows. *)
Definition getNearestVertexIndex_Sample_of (pointsDimension : nat)
    (points : Sample) (m : Mesh) : Result (list nat) :=
  if negb (pointsDimension =? getDimension m)
  then Throw (InvalidArgumentException
                ("Error: expected points of dimension "
                 ++ show (getDimension m)
                 ++ ", got points of dimension "
                 ++ show pointsDimension))
  else
    let size := length points in
    let indices := replicate size 0 in
    if size =? 0 then Ok indices
    else
      ParallelFor 0 size
        (MeshNearestPolicy_apply (mkMeshNearestPolicy points m)) indices.

(** [getNearestVertexIndex(const Sample &)], on a sample given by its rows
    alone, whose dimension is read off its first row. *)
Definition getNearestVertexIndex_Sample (points : Sample) (m : Mesh)
  : Result (list nat) :=
  getNearestVertexIndex_Sample_of (Sample_getDimension points) points m.

(** [getNearestVertex(const Sample &)], on a sample given by its rows
    alone. *)
Definition getNearestVertex_Sample (points : Sample) (m : Mesh)
  : Result (list (list Q)) :=
  Result_bind (getNearestVertexIndex_Sample points m) (fun indices =>
  let size := length indices in
  let neighbours := replicate size (replicate (getDimension m) 0%Q) in
  Ok (fold_left
        (fun neighbours i => <[i := vertices_ m !!! (indices !!! i)]> neighbours)
        (seq 0 size) neighbours)).

Definition isNumericallyEmpty : M bool :=
  volume <- getVolume ;;
  ret (Qle_bool volume Domain_SmallVolume).

Definition isRegular (m : Mesh) : bool :=
  if negb (getDimension m =? 1) then false
  else
    let size := getSimplicesNumber m in
    if size <=? 1 then true
    else
      let epsilon := Mesh_VertexEpsilon in
      let step :=
        Qminus (at2 (vertices_ m) ((simplices_ m !!! 0) !!! 1) 0)
               (at2 (vertices_ m) ((simplices_ m !!! 0) !!! 0) 0) in
      isRegular_loop m epsilon step (seq 1 (size - 1)) true.

End FurtherQueries.

(** *** P1 Gram matrix *)

(** [elementaryGram], filled with [1 / Gamma(simplexSize + 2)] and its
    diagonal doubled; [SpecFunc::Gamma] at the integer [simplexSize + 2] is
    the factorial of [simplexSize + 1]. *)
Definition elementaryGram (simplexSize : nat) : SquareMatrix :=
  let matrix :=
    replicate simplexSize
      (replicate simplexSize
         (1 / inject_Z (Z.of_nat (fact (simplexSize + 1))))%Q) in
  fold_left (fun matrix i => set2 matrix i i (at2 matrix i i * 2)%Q)
    (seq 0 simplexSize) matrix.

(** Body of the loop over the second vertex [k]. *)
Definition gramStep (simplex : Indices) (delta : Q) (elementary : SquareMatrix)
    (j : nat) (gram : SquareMatrix) (k : nat) : SquareMatrix :=
  let newJ := simplex !!! j in
  let newK := simplex !!! k in
  set2 gram newJ newK (at2 gram newJ newK + delta * at2 elementary j k)%Q.

(** The loops over the first vertex [j] and the second vertex [k]. *)
Definition gramSimplex (simplexSize : nat) (elementary : SquareMatrix)
    (simplex : Indices) (delta : Q) (gram : SquareMatrix) : SquareMatrix :=
  fold_left
    (fun gram j =>
       fold_left (gramStep simplex delta elementary j) (seq 0 simplexSize) gram)
    (seq 0 simplexSize) gram.

Section P1Gram.
Context {lib : Collaborators}.

(** The loop over the simplices [range]. *)
Fixpoint gramLoop (m : Mesh) (simplexSize : nat) (elementary : SquareMatrix)
    (range : list nat) (gram : SquareMatrix) : Result (list (list Q)) :=
  match range with
  | [] => Ok gram
  | i :: range' =>
      Result_bind (getSimplex i m) (fun simplex =>
      Result_bind (computeSimplexVolume i m) (fun delta =>
      gramLoop m simplexSize elementary range'
        (gramSimplex simplexSize elementary simplex delta gram)))
  end.

(** The matrix is given back as a [CovarianceMatrix], a symmetric view of
    the same entries; here it is the table of the entries. *)
Definition computeP1Gram (m : Mesh) : Result (list (list Q)) :=
  if getSimplicesNumber m =? 0 then Ok []
  else
    let simplexSize := Sample_getDimension (getVertices m) + 1 in
    let elementary := elementaryGram simplexSize in
    let verticesSize := length (vertices_ m) in
    let simplicesSize := length (simplices_ m) in
    let gram := replicate verticesSize (replicate verticesSize 0%Q) in
    gramLoop m simplexSize elementary (seq 0 simplicesSize) gram.

End P1Gram.

(** ** Notions for the further properties *)

(** Half the absolute value of the cross product of the edges that lead
    from the first vertex of simplex [index] to its second and to its third
    vertex: the area of the triangle. *)
Definition halfCrossProduct (m : Mesh) (index : nat) : Q :=
  let x0 := at2 (vertices_ m) ((simplices_ m !!! index) !!! 0) 0 in
  let y0 := at2 (vertices_ m) ((simplices_ m !!! index) !!! 0) 1 in
  let x1 := at2 (vertices_ m) ((simplices_ m !!! index) !!! 1) 0 in
  let y1 := at2 (vertices_ m) ((simplices_ m !!! index) !!! 1) 1 in
  let x2 := at2 (vertices_ m) ((simplices_ m !!! index) !!! 2) 0 in
  let y2 := at2 (vertices_ m) ((simplices_ m !!! index) !!! 2) 1 in
  ((1 # 2) * Qabs ((x1 - x0) * (y2 - y0) - (x2 - x0) * (y1 - y0)))%Q.

(** The signed step of simplex [i] of a mesh of the line: from its first to
    its second vertex. *)
Definition simplexStep (m : Mesh) (i : nat) : Q :=
  Qminus (at2 (vertices_ m) ((simplices_ m !!! i) !!! 1) 0)
         (at2 (vertices_ m) ((simplices_ m !!! i) !!! 0) 0).

(** Twice the signed area of the triangle of three points on the screen. *)
Definition signedArea (v0 v1 v2 : Point) : Q :=
  ((v1 !!! 0%nat - v0 !!! 0%nat) * (v2 !!! 1%nat - v0 !!! 1%nat)
   - (v1 !!! 1%nat - v0 !!! 1%nat) * (v2 !!! 0%nat - v0 !!! 0%nat))%Q.

(** The simplices that name vertex [v], in increasing order, each as often
    as it names [v]. *)
Definition ownersOf (simplices : IndicesCollection) (v : nat) : list nat :=
  flat_map (fun i => replicate (count_occ Nat.eq_dec (simplices !!! i) v) i)
    (seq 0 (length simplices)).

(** Each bound of the boxes of [m] is the one of [m0] or a coordinate of a
    vertex that the simplex of the box names. *)
Definition box_attained (m0 m : Mesh) : Prop :=
  forall i k,
    (at2 (lowerBoundingBoxSimplices_ m) i k
     = at2 (lowerBoundingBoxSimplices_ m0) i k
     \/ exists index,
          index ∈ simplices_ m0 !!! i
          /\ at2 (lowerBoundingBoxSimplices_ m) i k
             = at2 (vertices_ m0) index k)
    /\ (at2 (upperBoundingBoxSimplices_ m) i k
        = at2 (upperBoundingBoxSimplices_ m0) i k
        \/ exists index,
             index ∈ simplices_ m0 !!! i
             /\ at2 (upperBoundingBoxSimplices_ m) i k
                = at2 (vertices_ m0) index k).

(** The sum of the entries of a matrix. *)
Definition matrixTotal (matrix : SquareMatrix) : Q := Qsum (map Qsum matrix).

(** [n] rows of [n] entries. *)
Definition square (n : nat) (matrix : SquareMatrix) : Prop :=
  length matrix = n /\ Forall (fun row => length row = n) matrix.

(** 1 when the entries [j] and [k] of the simplex are the vertices [a] and
    [b] of a mesh of [n] vertices, 0 otherwise. *)
Definition gramHit (simplex : Indices) (n a b j k : nat) : Q :=
  if decide (simplex !!! j = a /\ simplex !!! k = b /\ a < n /\ b < n)
  then 1%Q else 0%Q.

(** What a simplex adds to the entry [(a, b)] of the Gram matrix. *)
Definition gramShare (simplexSize : nat) (elementary : SquareMatrix)
    (simplex : Indices) (delta : Q) (n a b : nat) : Q :=
  Qsum (map (fun j =>
               Qsum (map (fun k =>
                            (gramHit simplex n a b j k
                             * (delta * at2 elementary j k))%Q)
                         (seq 0 simplexSize)))
            (seq 0 simplexSize)).

(** ** Further examples *)

Module Examples.

(** Thresholds for the examples. *)
#[export] Instance resources : Resources := {
  Domain_SmallVolume := 1 # 1000000000000;
  Mesh_VertexEpsilon := 1 # 100000000;
  Mesh_BackfaceCulling := false
}.

(** Two tetrahedra that share the face of the vertices 1, 2 and 3. *)
Definition twoTetrahedra : Mesh :=
  Mesh_of
    [[0%Q; 0%Q; 0%Q]; [1%Q; 0%Q; 0%Q]; [0%Q; 1%Q; 0%Q]; [0%Q; 0%Q; 1%Q];
     [1%Q; 1%Q; 1%Q]]
    [[0; 1; 2; 3]; [1; 2; 3; 4]].

(** Three segments of the line, of length 1. *)
Definition regularLine : Mesh :=
  Mesh_of [[0%Q]; [1%Q]; [2%Q]; [3%Q]] [[0; 1]; [1; 2]; [2; 3]].

End Examples.

(** * Properties *)

(** ** Store *)

Lemma setVertices_resets (vertices : Sample) (m : Mesh) :
  vertices_ (setVertices vertices m) = vertices
  /\ verticesToSimplices_ (setVertices vertices m) = []
  /\ lowerBoundingBoxSimplices_ (setVertices vertices m) = []
  /\ upperBoundingBoxSimplices_ (setVertices vertices m) = []
  /\ isAlreadyComputedVolume_ (setVertices vertices m) = false.
Proof. repeat split. Qed.

Lemma setVertices_frame (vertices : Sample) (m : Mesh) :
  dimension_ (setVertices vertices m) = dimension_ m
  /\ simplices_ (setVertices vertices m) = simplices_ m
  /\ tree_ (setVertices vertices m) = tree_ m
  /\ volume_ (setVertices vertices m) = volume_ m.
Proof. repeat split. Qed.

Lemma setSimplices_frame (simplices : IndicesCollection) (m : Mesh) :
  dimension_ (setSimplices simplices m) = dimension_ m
  /\ vertices_ (setSimplices simplices m) = vertices_ m
  /\ tree_ (setSimplices simplices m) = tree_ m
  /\ isAlreadyComputedVolume_ (setSimplices simplices m)
     = isAlreadyComputedVolume_ m
  /\ volume_ (setSimplices simplices m) = volume_ m.
Proof. unfold setSimplices. case_decide; repeat split. Qed.

Lemma setSimplices_simplices (simplices : IndicesCollection) (m : Mesh) :
  simplices_ (setSimplices simplices m) = simplices.
Proof. unfold setSimplices. case_decide; [congruence | reflexivity]. Qed.

(** C3, as the code has it: [getVertex] and [getSimplex] refuse an index at
    or above the number of vertices (of simplices) with an invalid-argument
    error whose message names the index and the bound. *)
Theorem index_access_InvalidArgument (m : Mesh) (index : nat) :
  (getVerticesNumber m <= index ->
   getVertex index m
   = Throw (InvalidArgumentException
              ("Error: the vertex index=" ++ show index
               ++ " must be less than the number of vertices="
               ++ show (getVerticesNumber m))))
  /\ (getSimplicesNumber m <= index ->
      getSimplex index m
      = Throw (InvalidArgumentException
                 ("Error: the simplex index=" ++ show index
                  ++ " must be less than the number of simplices="
                  ++ show (getSimplicesNumber m)))).
Proof.
  unfold getVertex, getSimplex. split; intros Hle.
  - apply Nat.leb_le in Hle. now rewrite Hle.
  - apply Nat.leb_le in Hle. now rewrite Hle.
Qed.

Lemma index_access_InvalidArgument_witness :
  getVertex 2 Exact.segment
  = Throw (InvalidArgumentException
             "Error: the vertex index=2 must be less than the number of vertices=2")
  /\ getSimplex 2 Exact.segment
     = Throw (InvalidArgumentException
                "Error: the simplex index=2 must be less than the number of simplices=1").
Proof.
  destruct (index_access_InvalidArgument Exact.segment 2) as [Hv Hs].
  split; [apply Hv | apply Hs]; vm_compute; lia.
Defined.

(** C3, as stated, fails: the error of an out-of-range access is not an
    out-of-range error. *)
Lemma index_access_not_OutOfRange :
  ~ (forall (m : Mesh) (index : nat),
        (getVerticesNumber m <= index ->
         exists what, getVertex index m = Throw (OutOfRangeException what))
        /\ (getSimplicesNumber m <= index ->
            exists what, getSimplex index m = Throw (OutOfRangeException what))).
Proof.
  intros H. destruct (H Exact.segment 2) as [Hv _].
  destruct Hv as [what Hwhat]; [vm_compute; lia | discriminate Hwhat].
Qed.

(** C6: [setSimplices] with the simplices the mesh already has changes
    nothing; with other simplices it installs them and empties the incidence
    map and both bounding-box tables. *)
Theorem setSimplices_same_or_different
    (simplices : IndicesCollection) (m : Mesh) :
  (simplices = simplices_ m -> setSimplices simplices m = m)
  /\ (simplices <> simplices_ m ->
      simplices_ (setSimplices simplices m) = simplices
      /\ verticesToSimplices_ (setSimplices simplices m) = []
      /\ lowerBoundingBoxSimplices_ (setSimplices simplices m) = []
      /\ upperBoundingBoxSimplices_ (setSimplices simplices m) = []).
Proof.
  unfold setSimplices. split; intros Hs; case_decide; try contradiction.
  - reflexivity.
  - repeat split.
Qed.

Lemma setSimplices_same_or_different_witness :
  let built :=
    snd (getVerticesToSimplicesMap (lib := Exact.collaborators)
           Exact.segment) in
  verticesToSimplices_ built = [[0]; [0]]
  /\ setSimplices [[0; 1]] built = built
  /\ verticesToSimplices_ (setSimplices [[1; 0]] built) = []
  /\ lowerBoundingBoxSimplices_ (setSimplices [[1; 0]] built) = [].
Proof.
  cbn zeta.
  set (built := snd (getVerticesToSimplicesMap (lib := Exact.collaborators)
                       Exact.segment)).
  destruct (setSimplices_same_or_different [[0; 1]] built) as [Hsame _].
  destruct (setSimplices_same_or_different [[1; 0]] built) as [_ Hother].
  split; [reflexivity |]. split; [apply Hsame; reflexivity |].
  destruct Hother as (_ & Hv & Hl & _); [discriminate |].
  split; assumption.
Defined.

(** C4 at work: a spatial index built over two vertices survives the
    replacement of the vertex set by a single vertex, and the nearest-vertex
    query then answers from it with an index the mesh no longer has. *)
Theorem setVertices_keeps_spatial_index :
  let m := setVertices [[5%Q]] (computeKDTree Exact.segment) in
  reachable (lib := Exact.collaborators) m
  /\ tree_ m = KDTree_of [[0%Q]; [1%Q]]
  /\ KDTree_isEmpty (tree_ m) = false
  /\ verticesToSimplices_ m = []
  /\ isAlreadyComputedVolume_ m = false
  /\ getVerticesNumber m = 1
  /\ getNearestVertexIndex (lib := Exact.collaborators) [5%Q] m = Ok 1.
Proof.
  split.
  - apply reachable_setVertices, reachable_computeKDTree, reachable_of.
  - vm_compute. repeat split.
Qed.

(** ** Validity *)

Lemma Indices_check_true (indices : Indices) (bound : nat) :
  Indices_check indices bound = true <-> Forall (fun index => index < bound) indices.
Proof.
  unfold Indices_check. rewrite forallb_forall, Forall_forall.
  split; intros H x Hx.
  - apply Nat.ltb_lt, H. now apply list_elem_of_In.
  - apply Nat.ltb_lt, H. now apply list_elem_of_In.
Qed.

Lemma ill_formed_dec (m : Mesh) (simplex : Indices) :
  (negb (length simplex =? getDimension m + 1) = false
   /\ negb (Indices_check simplex (getVerticesNumber m)) = false)
  <-> ~ ill_formed m simplex.
Proof.
  unfold ill_formed. rewrite !negb_false_iff, Nat.eqb_eq, Indices_check_true.
  rewrite Forall_forall, Exists_exists. split.
  - intros [Hlen Hall] [Hne | (index & Hin & Hge)]; [contradiction |].
    specialize (Hall index Hin). lia.
  - intros Hn. split; [lia |].
    intros index Hin.
    destruct (le_lt_dec (getVerticesNumber m) index); [| assumption].
    exfalso. apply Hn. right. eauto.
Qed.

Lemma checkValidity_from_Ok (m : Mesh) (rest : IndicesCollection) (i : nat) :
  checkValidity_from m i rest = Ok tt
  <-> Forall (fun simplex => ~ ill_formed m simplex) rest.
Proof.
  revert i. induction rest as [| simplex rest IH]; intros i; cbn.
  - split; [constructor | reflexivity].
  - rewrite Forall_cons, <- ill_formed_dec.
    destruct (negb (length simplex =? getDimension m + 1)).
    + split; [discriminate | intros [[? _] _]; discriminate].
    + destruct (negb (Indices_check simplex (getVerticesNumber m))).
      * split; [discriminate | intros [[_ ?] _]; discriminate].
      * rewrite IH. tauto.
Qed.

Lemma Indices_check_false (indices : Indices) (bound : nat) :
  Indices_check indices bound = false ->
  Exists (fun index => bound <= index) indices.
Proof.
  unfold Indices_check. induction indices as [| index indices IH]; cbn [forallb].
  - discriminate.
  - destruct (index <? bound) eqn:E; cbn [andb].
    + intros H. right. now apply IH.
    + intros _. left. apply Nat.ltb_ge in E. exact E.
Qed.

Lemma checkValidity_from_Throw (m : Mesh) (rest : IndicesCollection) (i : nat)
    (e : Exception) :
  checkValidity_from m i rest = Throw e ->
  (exists what, e = InvalidArgumentException what)
  /\ Exists (ill_formed m) rest.
Proof.
  revert i. induction rest as [| simplex rest IH]; intros i; cbn.
  - discriminate.
  - destruct (negb (length simplex =? getDimension m + 1)) eqn:Elen.
    + intros [= <-]. split; [eauto |]. left. left.
      apply negb_true_iff, Nat.eqb_neq in Elen. exact Elen.
    + destruct (negb (Indices_check simplex (getVerticesNumber m))) eqn:Echk.
      * intros [= <-]. split; [eauto |]. left. right.
        apply negb_true_iff in Echk. now apply Indices_check_false.
      * intros H. destruct (IH _ H) as [Hw Hex]. split; [exact Hw |].
        now right.
Qed.

Lemma isValid_Forall (m : Mesh) :
  isValid m = true
  <-> Forall (fun simplex => ~ ill_formed m simplex) (simplices_ m).
Proof.
  rewrite <- (checkValidity_from_Ok m (simplices_ m) 0).
  unfold isValid, checkValidity.
  destruct (checkValidity_from m 0 (simplices_ m)) as [[] | e].
  - tauto.
  - split; discriminate.
Qed.

(** C9: [isValid] answers [true] exactly when [checkValidity] raises
    nothing; [checkValidity] raises an invalid-argument error exactly when
    some simplex has a size other than [dimension + 1] or refers to a vertex
    index at or above the number of vertices; without simplices the mesh is
    valid. *)
Theorem isValid_iff_checkValidity (m : Mesh) :
  (isValid m = true <-> checkValidity m = Ok tt)
  /\ ((exists what, checkValidity m = Throw (InvalidArgumentException what))
      <-> Exists (ill_formed m) (simplices_ m))
  /\ (simplices_ m = [] -> isValid m = true).
Proof.
  unfold isValid, checkValidity. split; [| split].
  - destruct (checkValidity_from m 0 (simplices_ m)) as [[] | e].
    + tauto.
    + split; discriminate.
  - split.
    + intros [what E]. now apply checkValidity_from_Throw in E.
    + intros Hex.
      destruct (checkValidity_from m 0 (simplices_ m)) as [[] | e] eqn:E.
      * apply checkValidity_from_Ok, Forall_Exists_neg in E. contradiction.
      * destruct (checkValidity_from_Throw _ _ _ _ E) as [[what ->] _]. eauto.
  - intros ->. reflexivity.
Qed.

Lemma isValid_iff_checkValidity_witness :
  isValid (Mesh_default 2) = true.
Proof.
  apply (isValid_iff_checkValidity (Mesh_default 2)). reflexivity.
Defined.

(** ** Incidence map and bounding boxes *)

Section Incidence.
Context {lib : Collaborators}.

Lemma same_store_refl (m : Mesh) : same_store m m.
Proof. repeat split. Qed.

Lemma same_store_trans (m1 m2 m3 : Mesh) :
  same_store m1 m2 -> same_store m2 m3 -> same_store m1 m3.
Proof. unfold same_store. intuition congruence. Qed.

Lemma fold_left_invariant {A B} (f : A -> B -> A) (P : A -> Prop) :
  (forall a b, P a -> P (f a b)) ->
  forall l a, P a -> P (fold_left f l a).
Proof.
  intros Hstep l. induction l as [| b l IH]; intros a Ha; cbn; [exact Ha |].
  apply IH, Hstep, Ha.
Qed.

Lemma boundingBoxStep_frame (i index k : nat) (m : Mesh) :
  same_store m (boundingBoxStep i index m k)
  /\ verticesToSimplices_ (boundingBoxStep i index m k)
     = verticesToSimplices_ m.
Proof.
  unfold boundingBoxStep.
  destruct (Qltb _ (at2 (lowerBoundingBoxSimplices_ m) i k));
    match goal with |- context [if ?c then _ else _] => destruct c end;
    repeat split.
Qed.

Lemma boundingBox_fold_frame (i index : nat) (ks : list nat) (m : Mesh) :
  same_store m (fold_left (boundingBoxStep i index) ks m)
  /\ verticesToSimplices_ (fold_left (boundingBoxStep i index) ks m)
     = verticesToSimplices_ m.
Proof.
  revert m. induction ks as [| k ks IH]; intros m; cbn.
  - split; [apply same_store_refl | reflexivity].
  - destruct (IH (boundingBoxStep i index m k)) as [Hs Hv].
    destruct (boundingBoxStep_frame i index k m) as [Hs' Hv'].
    split; [eapply same_store_trans; eassumption | congruence].
Qed.

Lemma simplexVertexStep_frame (i index : nat) (m : Mesh) :
  same_store m (simplexVertexStep i m index)
  /\ verticesToSimplices_ (simplexVertexStep i m index)
     = addIncidence i (verticesToSimplices_ m) index.
Proof.
  unfold simplexVertexStep.
  destruct (boundingBox_fold_frame i index (seq 0 (dimension_ m)) m)
    as [Hs Hv].
  split.
  - eapply same_store_trans; [exact Hs |]. repeat split.
  - cbn. unfold addIncidence. now rewrite Hv.
Qed.

Lemma simplexVertex_fold_frame (i : nat) (simplex : Indices) (m : Mesh) :
  same_store m (fold_left (simplexVertexStep i) simplex m)
  /\ verticesToSimplices_ (fold_left (simplexVertexStep i) simplex m)
     = fold_left (addIncidence i) simplex (verticesToSimplices_ m).
Proof.
  revert m. induction simplex as [| index simplex IH]; intros m; cbn.
  - split; [apply same_store_refl | reflexivity].
  - destruct (IH (simplexVertexStep i m index)) as [Hs Hv].
    destruct (simplexVertexStep_frame i index m) as [Hs' Hv'].
    split; [eapply same_store_trans; eassumption | congruence].
Qed.

Lemma simplicesLoop_frame (rest : IndicesCollection) (i : nat) (m : Mesh) :
  same_store m (simplicesLoop i rest m)
  /\ verticesToSimplices_ (simplicesLoop i rest m)
     = incidenceLoop i rest (verticesToSimplices_ m).
Proof.
  revert i m. induction rest as [| simplex rest IH]; intros i m; cbn.
  - split; [apply same_store_refl | reflexivity].
  - destruct (IH (S i) (fold_left (simplexVertexStep i) simplex m))
      as [Hs Hv].
    destruct (simplexVertex_fold_frame i simplex m) as [Hs' Hv'].
    split; [eapply same_store_trans; eassumption |].
    rewrite Hv, Hv'. reflexivity.
Qed.

(** What [getVerticesToSimplicesMap] returns and leaves behind. *)
Lemma getVerticesToSimplicesMap_spec (m : Mesh) :
  let m' := snd (getVerticesToSimplicesMap m) in
  fst (getVerticesToSimplicesMap m) = Ok (verticesToSimplices_ m')
  /\ same_store m m'
  /\ (verticesToSimplices_ m <> [] -> m' = m)
  /\ (verticesToSimplices_ m = [] ->
      verticesToSimplices_ m'
      = incidenceLoop 0 (simplices_ m)
          (replicate (getVerticesNumber m) [])).
Proof.
  unfold getVerticesToSimplicesMap.
  destruct (0 <? length (verticesToSimplices_ m)) eqn:E; cbn.
  - apply Nat.ltb_lt in E. repeat split.
    intros Hnil. rewrite Hnil in E. cbn in E. lia.
  - apply Nat.ltb_ge in E.
    match goal with
    | |- context [simplicesLoop 0 ?ss ?m0] =>
        destruct (simplicesLoop_frame ss 0 m0) as [Hs Hv];
        generalize dependent (simplicesLoop 0 ss m0)
    end.
    intros m' Hs Hv. cbn in Hs, Hv.
    repeat split; try apply Hs.
    + intros Hne. destruct (verticesToSimplices_ m); [congruence | cbn in E; lia].
    + intros _. exact Hv.
Qed.

Lemma refreshVerticesToSimplicesMap_spec (m : Mesh) :
  refreshVerticesToSimplicesMap m
  = (Ok tt, snd (getVerticesToSimplicesMap m)).
Proof.
  destruct (getVerticesToSimplicesMap_spec m) as (Hfst & _ & Hne & _).
  unfold refreshVerticesToSimplicesMap, bind, gets, ret.
  destruct (length (verticesToSimplices_ m) =? 0) eqn:E.
  - destruct (getVerticesToSimplicesMap m) as [[map | e] m']; cbn in *.
    + reflexivity.
    + discriminate Hfst.
  - rewrite Hne; [reflexivity |].
    intros Hnil. rewrite Hnil in E. discriminate E.
Qed.

(** Case analysis on the scrutinee of the first [match] of the goal. *)
Ltac step_match :=
  match goal with
  | |- context [match ?x with _ => _ end] => destruct x eqn:?; cbn
  end.

Lemma contains_state (point : Point) (m : Mesh) :
  snd (contains point m) = m
  \/ snd (contains point m) = snd (getVerticesToSimplicesMap m).
Proof.
  unfold contains, bind, query, gets, ret.
  rewrite ?refreshVerticesToSimplicesMap_spec.
  repeat first
    [ rewrite refreshVerticesToSimplicesMap_spec
    | step_match ];
    cbn; auto.
Qed.

Lemma getNearestVertexAndSimplexIndicesWithCoordinates_state
    (point : Point) (m : Mesh) :
  snd (getNearestVertexAndSimplexIndicesWithCoordinates point m) = m
  \/ snd (getNearestVertexAndSimplexIndicesWithCoordinates point m)
     = snd (getVerticesToSimplicesMap m).
Proof.
  unfold getNearestVertexAndSimplexIndicesWithCoordinates,
    bind, query, gets, ret, throw.
  repeat first
    [ rewrite refreshVerticesToSimplicesMap_spec
    | step_match ];
    cbn; auto.
Qed.

Lemma computeWeights_state (m : Mesh) :
  snd (computeWeights m) = m
  \/ snd (computeWeights m) = snd (getVerticesToSimplicesMap m).
Proof.
  unfold computeWeights, bind, query, gets, ret.
  repeat step_match; cbn; auto.
Qed.

Lemma computeVolume_state (m : Mesh) :
  snd (computeVolume m) = m
  \/ snd (computeVolume m) = set_isAlreadyComputedVolume_ true m.
Proof.
  unfold computeVolume, bind, query, gets, ret, modify.
  repeat step_match; cbn; auto.
Qed.

Lemma getVolume_state (m : Mesh) :
  snd (getVolume m) = m
  \/ snd (getVolume m) = set_isAlreadyComputedVolume_ true m
  \/ exists v,
       snd (getVolume m)
       = set_volume_ v (set_isAlreadyComputedVolume_ true m).
Proof.
  unfold getVolume, computeVolume, bind, query, gets, ret, modify.
  destruct (isAlreadyComputedVolume_ m); cbn; [auto |].
  destruct (ParallelReduce 0 (getSimplicesNumber m) (VolumeFunctor_new m));
    cbn; eauto.
Qed.

(** *** The incidence map of a reachable mesh is unset or up to date *)

Lemma incidence_coherent_ext (m m' : Mesh) :
  verticesToSimplices_ m' = verticesToSimplices_ m ->
  simplices_ m' = simplices_ m ->
  getVerticesNumber m' = getVerticesNumber m ->
  incidence_coherent m -> incidence_coherent m'.
Proof.
  unfold incidence_coherent. intros -> -> ->. tauto.
Qed.

Lemma getVerticesToSimplicesMap_coherent (m : Mesh) :
  incidence_coherent m ->
  incidence_coherent (snd (getVerticesToSimplicesMap m)).
Proof.
  intros Hm.
  destruct (getVerticesToSimplicesMap_spec m) as (_ & Hs & Hne & Hnil).
  destruct (verticesToSimplices_ m) as [| l ls] eqn:E.
  - right. rewrite Hnil by reflexivity.
    destruct Hs as (_ & Hv & -> & _).
    unfold getVerticesNumber. now rewrite Hv.
  - rewrite Hne by discriminate. exact Hm.
Qed.

Lemma reachable_incidence_coherent (m : Mesh) :
  reachable m -> incidence_coherent m.
Proof.
  induction 1 as
    [ dimension | vertices | vertices simplices | vertices m _ _
    | index vertex m _ IH Hlt | simplices m _ IH | m _ IH | m _ IH
    | point m _ IH | point m _ IH | m _ IH | m _ IH | m _ IH ].
  - now left.
  - now left.
  - now left.
  - now left.
  - revert IH. apply incidence_coherent_ext; try reflexivity.
    unfold getVerticesNumber, setVertex. cbn. apply length_insert.
  - unfold setSimplices. case_decide; [exact IH | now left].
  - exact IH.
  - now apply getVerticesToSimplicesMap_coherent.
  - destruct (contains_state point m) as [-> | ->];
      [exact IH | now apply getVerticesToSimplicesMap_coherent].
  - destruct (getNearestVertexAndSimplexIndicesWithCoordinates_state point m)
      as [-> | ->];
      [exact IH | now apply getVerticesToSimplicesMap_coherent].
  - destruct (computeVolume_state m) as [-> | ->]; exact IH.
  - destruct (getVolume_state m) as [-> | [-> | [v ->]]]; exact IH.
  - destruct (computeWeights_state m) as [-> | ->];
      [exact IH | now apply getVerticesToSimplicesMap_coherent].
Qed.

(** *** Order of the incidence lists *)

Lemma StronglySorted_snoc {A} (R : A -> A -> Prop) (l : list A) (a : A) :
  StronglySorted R l -> Forall (fun x => R x a) l ->
  StronglySorted R (l ++ [a]).
Proof.
  induction 1 as [| x l Hl IH Hx]; intros Ha; cbn.
  - repeat constructor.
  - apply Forall_cons in Ha as [Hxa Ha].
    constructor; [now apply IH |].
    apply Forall_app. split; [exact Hx | now constructor].
Qed.

(** An invariant of the loop over the simplices carries over to its end,
    when each pass of the loop over the entries of a simplex keeps it. *)
Lemma incidenceLoop_invariant
    (P : nat -> list (list nat) -> Prop) (Q : list nat -> Prop) :
  (forall i simplex incidence,
      Q simplex -> P i incidence ->
      P (S i) (fold_left (addIncidence i) simplex incidence)) ->
  forall rest i incidence,
    Forall Q rest -> P i incidence ->
    P (i + length rest) (incidenceLoop i rest incidence).
Proof.
  intros Hstep rest.
  induction rest as [| simplex rest IH]; intros i incidence HQ HP; cbn.
  - now rewrite Nat.add_0_r.
  - apply Forall_cons in HQ as [Hs HQ].
    replace (i + S (length rest)) with (S i + length rest) by lia.
    apply IH; [exact HQ |]. now apply Hstep.
Qed.

Lemma increasing_pass (i : nat) (simplex : Indices)
    (incidence : list (list nat)) :
  lists_below le i incidence ->
  lists_below le (S i) (fold_left (addIncidence i) simplex incidence).
Proof.
  intros HP. apply fold_left_invariant.
  - intros inc index Hinc. unfold addIncidence.
    apply Forall_alter; [exact Hinc |].
    intros l _ [Hsorted Hbelow]. split.
    + apply StronglySorted_snoc; [exact Hsorted |].
      eapply Forall_impl; [exact Hbelow |]. cbn. lia.
    + apply Forall_app. split; [exact Hbelow |]. repeat constructor.
  - eapply Forall_impl; [exact HP |]. intros l [Hsorted Hbelow].
    split; [exact Hsorted |].
    eapply Forall_impl; [exact Hbelow |]. cbn. lia.
Qed.

Lemma strictly_increasing_pass (i : nat) (simplex : Indices)
    (incidence : list (list nat)) :
  NoDup simplex ->
  lists_below lt i incidence ->
  lists_below lt (S i) (fold_left (addIncidence i) simplex incidence).
Proof.
  intros Hnodup HP.
  (* an entry still to come has not received [i] yet *)
  assert (Hgen : forall rest inc,
             NoDup rest ->
             (forall v l, inc !! v = Some l ->
                          StronglySorted lt l /\ Forall (fun s => s < S i) l
                          /\ (v ∈ rest -> Forall (fun s => s < i) l)) ->
             lists_below lt (S i) (fold_left (addIncidence i) rest inc)).
  { intros rest. induction rest as [| index rest IH]; intros inc Hnd Hinv.
    - cbn. apply Forall_forall. intros l Hl.
      apply list_elem_of_lookup in Hl as [v Hv].
      destruct (Hinv v l Hv) as (? & ? & _). now split.
    - cbn. apply NoDup_cons in Hnd as [Hnotin Hnd].
      apply IH; [exact Hnd |].
      intros v l. unfold addIncidence. rewrite list_lookup_alter.
      case_decide as Hv.
      + subst v. destruct (inc !! index) as [l0 |] eqn:E; [| discriminate].
        cbn. intros [= <-].
        destruct (Hinv index l0 E) as (Hsorted & _ & Hlt).
        specialize (Hlt ltac:(left)).
        split; [| split].
        * now apply StronglySorted_snoc.
        * apply Forall_app. split; [| repeat constructor].
          eapply Forall_impl; [exact Hlt |]. cbn. lia.
        * intros Hin. contradiction.
      + intros Hl. destruct (Hinv v l Hl) as (Hsorted & Hle & Hlt).
        split; [exact Hsorted | split; [exact Hle |]].
        intros Hin. apply Hlt. now right. }
  apply Hgen; [exact Hnodup |].
  intros v l Hl.
  assert (Hin : l ∈ incidence) by (apply list_elem_of_lookup; eauto).
  unfold lists_below in HP. rewrite Forall_forall in HP.
  destruct (HP l Hin) as [Hsorted Hbelow].
  split; [exact Hsorted | split; [| now intros _]].
  eapply Forall_impl; [exact Hbelow |]. cbn. lia.
Qed.

Lemma lists_below_replicate (R : nat -> nat -> Prop) (n : nat) :
  lists_below R 0 (replicate n []).
Proof.
  apply Forall_forall. intros l Hl.
  apply elem_of_replicate in Hl as [-> _].
  split; constructor.
Qed.

Lemma incidenceLoop_increasing (simplices : IndicesCollection) (n : nat) :
  lists_below le (length simplices)
    (incidenceLoop 0 simplices (replicate n [])).
Proof.
  apply (incidenceLoop_invariant (lists_below le) (fun _ => True)
           (fun i simplex inc _ => increasing_pass i simplex inc)
           simplices 0).
  - apply Forall_forall. now intros.
  - apply lists_below_replicate.
Qed.

Lemma incidenceLoop_strictly_increasing
    (simplices : IndicesCollection) (n : nat) :
  Forall NoDup simplices ->
  lists_below lt (length simplices)
    (incidenceLoop 0 simplices (replicate n [])).
Proof.
  intros Hnd.
  apply (incidenceLoop_invariant (lists_below lt) NoDup
           strictly_increasing_pass simplices 0 _ Hnd).
  apply lists_below_replicate.
Qed.

Lemma lists_below_sorted (R : nat -> nat -> Prop) (i : nat)
    (incidence : list (list nat)) :
  lists_below R i incidence -> Forall (StronglySorted R) incidence.
Proof.
  intros H. eapply Forall_impl; [exact H |]. now intros l [Hl _].
Qed.

(** C10, as the code has it: every incidence list that
    [getVerticesToSimplicesMap] gives for a mesh is sorted by increasing
    simplex index, and strictly so when no simplex names a vertex twice. *)
Theorem incidence_lists_increasing (m : Mesh) :
  reachable m ->
  exists incidence,
    fst (getVerticesToSimplicesMap m) = Ok incidence
    /\ Forall increasing incidence
    /\ (Forall NoDup (simplices_ m) ->
        Forall strictly_increasing incidence).
Proof.
  intros Hm.
  pose proof (getVerticesToSimplicesMap_coherent m
                (reachable_incidence_coherent m Hm)) as Hco.
  destruct (getVerticesToSimplicesMap_spec m) as (Hfst & Hs & _).
  destruct Hs as (_ & _ & Hss & _).
  exists (verticesToSimplices_ (snd (getVerticesToSimplicesMap m))).
  split; [exact Hfst |].
  destruct Hco as [-> | ->].
  - split; [constructor | intros _; constructor].
  - rewrite Hss. split.
    + eapply lists_below_sorted, incidenceLoop_increasing.
    + intros Hnd.
      eapply lists_below_sorted, incidenceLoop_strictly_increasing, Hnd.
Qed.
End Incidence.

Lemma incidence_lists_increasing_witness :
  exists incidence,
    fst (getVerticesToSimplicesMap (lib := Exact.collaborators) Exact.segment)
    = Ok incidence
    /\ Forall increasing incidence
    /\ (Forall NoDup (simplices_ Exact.segment) ->
        Forall strictly_increasing incidence).
Proof.
  apply (incidence_lists_increasing (lib := Exact.collaborators) Exact.segment).
  apply reachable_of.
Defined.

(** C10, as stated, fails: a simplex that names a vertex twice is entered
    twice in the list of that vertex. *)
Lemma incidence_list_repeats_simplex :
  ~ (forall (lib : Collaborators) (m : Mesh),
        reachable m ->
        forall incidence,
          fst (getVerticesToSimplicesMap m) = Ok incidence ->
          Forall strictly_increasing incidence).
Proof.
  intros H.
  specialize (H Exact.collaborators (Mesh_of [[0%Q]; [1%Q]] [[0; 0]])
                (reachable_of _ _) [[0; 0]; []] eq_refl).
  apply Forall_cons in H as [H _].
  inversion H as [| a l _ Hall]; subst.
  apply Forall_cons in Hall as [Hlt _]. lia.
Qed.

(** On sorted ranges [set_intersection] keeps the common elements, which is
    what [isInnerFace] counts. *)
Lemma set_intersection_sorted (range1 range2 : list nat) :
  increasing range1 -> increasing range2 ->
  forall x, x ∈ set_intersection range1 range2 <-> x ∈ range1 /\ x ∈ range2.
Proof.
  unfold increasing. intros H1. revert range2.
  induction H1 as [| a rest1 Hrest1 IH1 Ha]; intros range2 H2 x.
  - cbn. rewrite elem_of_nil. tauto.
  - induction H2 as [| b rest2 Hrest2 IH2 Hb].
    + cbn. rewrite !elem_of_nil. tauto.
    + cbn [set_intersection].
      pose proof (proj1 (Forall_forall _ _) Ha) as Ha'.
      pose proof (proj1 (Forall_forall _ _) Hb) as Hb'.
      destruct (a <? b) eqn:Eab; [| destruct (b <? a) eqn:Eba].
      * apply Nat.ltb_lt in Eab.
        rewrite IH1 by (now constructor).
        rewrite !elem_of_cons. split; [tauto |].
        intros [[-> | Hx1] [-> | Hx2]];
          try specialize (Ha' _ Hx1); try specialize (Hb' _ Hx2);
          first [lia | auto].
      * apply Nat.ltb_lt in Eba.
        transitivity (x ∈ a :: rest1 /\ x ∈ rest2); [exact IH2 |].
        rewrite (elem_of_cons rest1), (elem_of_cons rest2).
        split; [tauto |].
        intros [[-> | Hx1] [-> | Hx2]];
          try specialize (Ha' _ Hx1); try specialize (Hb' _ Hx2);
          first [lia | auto].
      * apply Nat.ltb_ge in Eab, Eba. assert (a = b) as <- by lia.
        rewrite (elem_of_cons (set_intersection rest1 rest2)),
          (elem_of_cons rest1), (elem_of_cons rest2), (IH1 rest2 Hrest2).
        tauto.
Qed.

(** ** Nearest vertex *)

Lemma Qltb_lt (a b : Q) : Qltb a b = true <-> (a < b)%Q.
Proof.
  unfold Qltb. rewrite Qlt_alt. destruct (a ?= b)%Q; split; congruence.
Qed.

Lemma Qltb_ge (a b : Q) : Qltb a b = false <-> (b <= a)%Q.
Proof.
  rewrite <- not_true_iff_false, Qltb_lt. split.
  - apply Qnot_lt_le.
  - apply Qle_not_lt.
Qed.

Lemma seq_clamp (lo hi mid : nat) :
  seq lo (clamp lo hi mid - lo) ++ seq (clamp lo hi mid) (hi - clamp lo hi mid)
  = seq lo (hi - lo).
Proof.
  unfold clamp.
  destruct (le_lt_dec lo hi) as [Hle | Hlt].
  - set (c := Nat.max lo (Nat.min mid hi)).
    assert (lo <= c <= hi) as [H1 H2] by (unfold c; lia).
    replace (hi - lo) with ((c - lo) + (hi - c)) by lia.
    rewrite seq_app. do 2 f_equal. lia.
  - replace (Nat.max lo (Nat.min mid hi)) with lo by lia.
    replace (hi - lo) with 0 by lia. now rewrite Nat.sub_diag.
Qed.

Section Nearest.
Context {lib : Collaborators}.

Lemma scanStep_cases (m : Mesh) (point : Point)
    (f : NearestFunctor) (i : nat) :
  looks_at m point f ->
  ((squaredDistance point m i < minDistance_ f)%Q
   /\ scanStep f i
      = mkNearestFunctor m point (squaredDistance point m i) i)
  \/ ((minDistance_ f <= squaredDistance point m i)%Q
      /\ scanStep f i = f).
Proof.
  intros [Hm Hp]. unfold scanStep. rewrite Hm, Hp.
  destruct (Qltb _ (minDistance_ f)) eqn:E.
  - left. apply Qltb_lt in E. now split.
  - right. apply Qltb_ge in E. now split.
Qed.

Lemma scanStep_looks_at (m : Mesh) (point : Point)
    (f : NearestFunctor) (i : nat) :
  looks_at m point f -> looks_at m point (scanStep f i).
Proof.
  intros Hf.
  destruct (scanStep_cases m point f i Hf) as [[_ ->] | [_ ->]];
    [now split | exact Hf].
Qed.

(** The sequential scan of [[lo, lo + n)]: either nothing in the range beats
    the distance the functor came with, or the functor holds the first
    vertex of the range at the least distance. *)
Lemma sequential_scan (m : Mesh) (point : Point) (f : NearestFunctor)
    (lo n : nat) :
  looks_at m point f ->
  let g := fold_left scanStep (seq lo n) f in
  looks_at m point g
  /\ ((g = f
       /\ forall j, lo <= j < lo + n ->
                    (minDistance_ f <= squaredDistance point m j)%Q)
      \/ (lo <= minIndex_ g < lo + n
          /\ minDistance_ g = squaredDistance point m (minIndex_ g)
          /\ (minDistance_ g < minDistance_ f)%Q
          /\ (forall j, lo <= j < lo + n ->
                        (minDistance_ g <= squaredDistance point m j)%Q)
          /\ (forall j, lo <= j < minIndex_ g ->
                        (minDistance_ g < squaredDistance point m j)%Q))).
Proof.
  intros Hf. induction n as [| n IH]; cbn zeta.
  - cbn. split; [exact Hf |]. left. split; [reflexivity | intros; lia].
  - rewrite seq_S, fold_left_app. cbn [fold_left].
    set (g := fold_left scanStep (seq lo n) f) in *.
    destruct IH as [Hg IH].
    split; [now apply scanStep_looks_at |].
    destruct (scanStep_cases m point g (lo + n) Hg)
      as [[Hlt ->] | [Hge ->]]; cbn [minDistance_ minIndex_].
    + (* vertex [lo + n] is strictly nearer than all before *)
      right.
      assert (Hprev : forall j, lo <= j < lo + n ->
                 (squaredDistance point m (lo + n)
                  < squaredDistance point m j)%Q).
      { intros j Hj. destruct IH as [[-> Hall] | (_ & _ & _ & Hall & _)].
        - specialize (Hall j Hj). lra.
        - specialize (Hall j Hj). lra. }
      repeat split; try lia.
      * destruct IH as [[-> _] | (_ & _ & Hlt' & _)]; lra.
      * intros j Hj. destruct (decide (j = lo + n)) as [-> | Hne].
        -- lra.
        -- apply Qlt_le_weak, Hprev. lia.
      * intros j Hj. apply Hprev. lia.
    + destruct IH as [[-> Hall] | (Hidx & Hd & Hlt & Hall & Hfirst)].
      * left. split; [reflexivity |].
        intros j Hj. destruct (decide (j = lo + n)) as [-> | Hne].
        -- exact Hge.
        -- apply Hall. lia.
      * right. repeat split; try lia; try assumption.
        intros j Hj. destruct (decide (j = lo + n)) as [-> | Hne].
        -- exact Hge.
        -- apply Hall. lia.
Qed.

Lemma sequential_scan_bound (m : Mesh) (point : Point) (f : NearestFunctor)
    (range : list nat) :
  looks_at m point f ->
  (minDistance_ f <= MaxScalar)%Q ->
  looks_at m point (fold_left scanStep range f)
  /\ (minDistance_ (fold_left scanStep range f) <= MaxScalar)%Q.
Proof.
  revert f. induction range as [| i range IH]; intros f Hf Hb; cbn.
  - now split.
  - apply IH; [now apply scanStep_looks_at |].
    destruct (scanStep_cases m point f i Hf) as [[Hlt ->] | [_ ->]];
      cbn; lra.
Qed.

(** Settles a comparison of the goal that the hypotheses decide. *)
Ltac decide_Qltb :=
  match goal with
  | |- context [Qltb ?a ?b] =>
      first [ replace (Qltb a b) with true by (symmetry; apply Qltb_lt; lra)
            | replace (Qltb a b) with false by (symmetry; apply Qltb_ge; lra) ]
  end.

(** Joining a scan that started afresh is scanning on. *)
Lemma join_is_scanning_on (m : Mesh) (point : Point) (f : NearestFunctor)
    (range : list nat) :
  looks_at m point f ->
  (minDistance_ f <= MaxScalar)%Q ->
  body_join f (fold_left scanStep range (body_split f))
  = fold_left scanStep range f.
Proof.
  intros Hf Hb. induction range as [| i range IH] using rev_ind.
  - cbn. now decide_Qltb.
  - rewrite !fold_left_app. cbn [fold_left]. rewrite <- IH. clear IH.
    assert (Hother : looks_at m point (body_split f)).
    { destruct Hf as [Hm Hp]. split; cbn; assumption. }
    destruct (sequential_scan_bound m point (body_split f) range Hother)
      as [Hg _]; [cbn; lra |].
    set (g := fold_left scanStep range (body_split f)) in *.
    destruct Hf as [<- <-].
    set (m := nf_mesh_ f) in *. set (point := nf_point_ f) in *.
    assert (Hf : looks_at m point f) by now split.
    destruct (scanStep_cases m point g i Hg) as [[Hlt ->] | [Hge ->]];
      cbn [body_join NearestFunctor_Body minDistance_ minIndex_];
      fold m; fold point;
      destruct (Qltb (minDistance_ g) (minDistance_ f)) eqn:E;
      [ apply Qltb_lt in E | apply Qltb_ge in E
      | apply Qltb_lt in E | apply Qltb_ge in E ].
    + decide_Qltb.
      destruct (scanStep_cases m point
                  (mkNearestFunctor m point (minDistance_ g) (minIndex_ g)) i)
        as [[_ ->] | [Hge _]]; [now split | reflexivity | cbn in Hge; lra].
    + destruct (scanStep_cases m point f i Hf)
        as [[Hlt' ->] | [Hge ->]]; now decide_Qltb.
    + destruct (scanStep_cases m point
                  (mkNearestFunctor m point (minDistance_ g) (minIndex_ g)) i)
        as [[Hlt _] | [_ ->]]; [now split | cbn in Hlt; lra | reflexivity].
    + destruct (scanStep_cases m point f i Hf)
        as [[Hlt _] | [_ ->]]; [lra | reflexivity].
Qed.

(** With vertices and a point of the dimension of the mesh, the loop of
    [operator()] is the scan. *)
Lemma NearestFunctor_step_Ok (m : Mesh) (point : Point) (f : NearestFunctor)
    (i : nat) :
  looks_at m point f ->
  rectangular m ->
  length point = dimension_ m ->
  i < getVerticesNumber m ->
  NearestFunctor_step f i = Ok (scanStep f i).
Proof.
  intros [Hm Hp] Hrect Hlen Hi.
  unfold NearestFunctor_step, scanStep, squaredDistance, Point_sub.
  rewrite Hm, Hp.
  assert (Hvertex : length (getVertices m !!! i) = dimension_ m).
  { unfold rectangular in Hrect. rewrite Forall_forall in Hrect.
    apply Hrect. now apply list_elem_of_lookup_total_2. }
  rewrite Hvertex, Hlen, Nat.eqb_refl. reflexivity.
Qed.

Lemma NearestFunctor_loop_Ok (m : Mesh) (point : Point) (range : list nat) :
  forall f : NearestFunctor,
    looks_at m point f ->
    rectangular m ->
    length point = dimension_ m ->
    Forall (fun i => i < getVerticesNumber m) range ->
    NearestFunctor_loop f range = Ok (fold_left scanStep range f).
Proof.
  induction range as [| i range IH]; intros f Hf Hrect Hlen Hrange.
  - reflexivity.
  - apply Forall_cons in Hrange as [Hi Hrange]. cbn [NearestFunctor_loop].
    rewrite (NearestFunctor_step_Ok m point f i Hf Hrect Hlen Hi).
    cbn [Result_bind fold_left].
    apply IH; try assumption. now apply scanStep_looks_at.
Qed.

(** Whatever the partition, the reduction is the sequential scan. *)
Lemma runSchedule_nearest (m : Mesh) (point : Point) (s : Schedule) :
  rectangular m ->
  length point = dimension_ m ->
  forall (lo hi : nat) (f : NearestFunctor),
    looks_at m point f ->
    (minDistance_ f <= MaxScalar)%Q ->
    hi <= getVerticesNumber m \/ hi <= lo ->
    runSchedule s lo hi f = Ok (fold_left scanStep (seq lo (hi - lo)) f).
Proof.
  intros Hrect Hlen.
  induction s as [| mid l IHl r IHr | mid l IHl r IHr];
    intros lo hi f Hf Hb Hhi.
  - cbn. apply (NearestFunctor_loop_Ok m point); try assumption.
    apply Forall_forall. intros i Hi. apply elem_of_seq in Hi. lia.
  - cbn [runSchedule].
    rewrite (IHl _ _ _ Hf Hb) by (unfold clamp; lia). cbn [Result_bind].
    destruct (sequential_scan_bound m point f
                (seq lo (clamp lo hi mid - lo)) Hf Hb) as [Hg Hgb].
    rewrite (IHr _ _ _ Hg Hgb) by (unfold clamp; lia).
    rewrite <- fold_left_app, seq_clamp. reflexivity.
  - cbn [runSchedule].
    rewrite (IHl _ _ _ Hf Hb) by (unfold clamp; lia). cbn [Result_bind].
    destruct (sequential_scan_bound m point f
                (seq lo (clamp lo hi mid - lo)) Hf Hb) as [Hg Hgb].
    assert (Hother : looks_at m point (body_split f)).
    { destruct Hf as [Hm Hp]. split; cbn; assumption. }
    rewrite (IHr _ _ _ Hother) by (first [cbn; lra | unfold clamp; lia]).
    cbn [Result_bind]. f_equal.
    replace (body_split f)
      with (body_split (fold_left scanStep
                          (seq lo (clamp lo hi mid - lo)) f)).
    + rewrite (join_is_scanning_on m point _ _ Hg Hgb), <- fold_left_app,
        seq_clamp. reflexivity.
    + destruct Hg as [Hgm Hgp], Hf as [Hm Hp]. cbn. congruence.
Qed.

(** C2: a point of another dimension is an invalid argument.  Otherwise,
    with vertices of the dimension of the mesh, the reduction gives, whatever
    the partition, what the sequential scan from left to right gives; and
    without a spatial index and with at least one vertex, the answer is a
    vertex at the least squared distance from the point, the one of lowest
    index among those.  Squared distances are scalars, hence at most
    [MaxScalar]. *)
Theorem getNearestVertexIndex_brute_force (m : Mesh) (point : Point) :
  (length point <> getDimension m ->
   exists what,
     getNearestVertexIndex point m = Throw (InvalidArgumentException what))
  /\ (length point = getDimension m ->
      rectangular m ->
      exists sequential,
        body_apply (NearestFunctor_new m point) 0 (getVerticesNumber m)
        = Ok sequential
        /\ (forall schedule : Schedule,
              runSchedule schedule 0 (getVerticesNumber m)
                (NearestFunctor_new m point)
              = Ok sequential)
        /\ (KDTree_isEmpty (tree_ m) = true ->
            vertices_ m <> [] ->
            (forall i, i < getVerticesNumber m ->
                       (squaredDistance point m i <= MaxScalar)%Q) ->
            exists index,
              getNearestVertexIndex point m = Ok index
              /\ index = minIndex_ sequential
              /\ index < getVerticesNumber m
              /\ (forall j, j < getVerticesNumber m ->
                            (squaredDistance point m index
                             <= squaredDistance point m j)%Q)
              /\ (forall j, j < index ->
                            (squaredDistance point m index
                             < squaredDistance point m j)%Q))).
Proof.
  split.
  { intros Hne. unfold getNearestVertexIndex.
    apply Nat.eqb_neq in Hne. rewrite Hne. cbn. eauto. }
  intros Hdim Hrect.
  assert (Hnew : looks_at m point (NearestFunctor_new m point)) by now split.
  assert (Hpar : forall schedule : Schedule,
             runSchedule schedule 0 (getVerticesNumber m)
               (NearestFunctor_new m point)
             = Ok (fold_left scanStep (seq 0 (getVerticesNumber m))
                     (NearestFunctor_new m point))).
  { intros schedule.
    rewrite (runSchedule_nearest m point schedule Hrect Hdim 0 _ _ Hnew)
      by (first [cbn; lra | left; reflexivity]).
    now rewrite Nat.sub_0_r. }
  eexists. split; [exact (Hpar Whole) |]. split; [exact Hpar |].
  intros Htree Hvertices Hbound.
  unfold getNearestVertexIndex, ParallelReduce.
  apply Nat.eqb_eq in Hdim. rewrite Hdim, Htree, Hpar. cbn.
  eexists. split; [reflexivity |]. split; [reflexivity |].
  assert (Hpos : 0 < getVerticesNumber m).
  { unfold getVerticesNumber. destruct (vertices_ m);
      [contradiction | cbn; lia]. }
  destruct (sequential_scan m point (NearestFunctor_new m point) 0
              (getVerticesNumber m) Hnew)
    as [_ [[-> Hall] | (Hidx & Hd & _ & Hall & Hfirst)]]; cbn in *.
  - split; [exact Hpos |]. split; [| intros j Hj; lia].
    intros j Hj. specialize (Hall j ltac:(lia)).
    specialize (Hbound 0 Hpos). lra.
  - split; [lia |]. rewrite <- Hd. split.
    + intros j Hj. apply Hall. lia.
    + intros j Hj. apply Hfirst. lia.
Qed.
End Nearest.

Lemma getNearestVertexIndex_brute_force_witness :
  exists sequential,
    body_apply (Body := NearestFunctor_Body (lib := Exact.collaborators))
      (NearestFunctor_new (lib := Exact.collaborators)
         Exact.segment [3 # 4]%Q) 0 2
    = Ok sequential
    /\ (forall schedule : Schedule,
          runSchedule (H := NearestFunctor_Body (lib := Exact.collaborators))
            schedule 0 2
            (NearestFunctor_new (lib := Exact.collaborators)
               Exact.segment [3 # 4]%Q)
          = Ok sequential)
    /\ exists index,
         getNearestVertexIndex (lib := Exact.collaborators) [3 # 4]%Q
           Exact.segment
         = Ok index
         /\ index = minIndex_ sequential
         /\ index < 2
         /\ (forall j, j < 2 ->
                       (squaredDistance [3 # 4]%Q Exact.segment index
                        <= squaredDistance [3 # 4]%Q Exact.segment j)%Q)
         /\ (forall j, j < index ->
                       (squaredDistance [3 # 4]%Q Exact.segment index
                        < squaredDistance [3 # 4]%Q Exact.segment j)%Q).
Proof.
  destruct (getNearestVertexIndex_brute_force (lib := Exact.collaborators)
              Exact.segment [3 # 4]%Q) as [_ H].
  destruct H as (sequential & Hseq & Hpar & Hmin).
  - reflexivity.
  - repeat constructor.
  - exists sequential. split; [exact Hseq |]. split; [exact Hpar |].
    apply Hmin.
    + reflexivity.
    + discriminate.
    + intros [| [| i]] Hi; [vm_compute; discriminate .. | cbn in Hi; lia].
Defined.

(** ** Localisation of a point *)

Section Localisation.
Context {lib : Collaborators}.

Lemma checkPointInSimplexWithCoordinates_unfold
    (point : Point) (index : nat) (coordinates : Point) (m : Mesh) :
  checkPointInSimplexWithCoordinates point index coordinates m
  = if outsideBoundingBox point index m then Ok (false, coordinates)
    else if getSimplicesNumber m <=? index
    then Result_bind (buildSimplexMatrix index m) (fun _ => Ok (false, []))
    else Ok (coordinatesInUnitInterval (dimension_ m + 1)
               (barycentric point index m),
             barycentric point index m).
Proof.
  unfold checkPointInSimplexWithCoordinates, outsideBoundingBox, barycentric,
    coordinatesInUnitInterval, buildSimplexMatrix.
  destruct (_ && _); [reflexivity |].
  destruct (getSimplicesNumber m <=? index); reflexivity.
Qed.

Lemma buildSimplexMatrix_Throw (index : nat) (m : Mesh) :
  getSimplicesNumber m <= index ->
  exists e, buildSimplexMatrix index m = Throw e.
Proof.
  intros Hle. unfold buildSimplexMatrix.
  apply Nat.leb_le in Hle. rewrite Hle. eauto.
Qed.

(** On a simplex of the mesh the test does not throw. *)
Lemma checkPointInSimplexWithCoordinates_Ok
    (point : Point) (index : nat) (coordinates : Point) (m : Mesh) :
  index < getSimplicesNumber m ->
  checkPointInSimplexWithCoordinates point index coordinates m
  = if outsideBoundingBox point index m then Ok (false, coordinates)
    else Ok (coordinatesInUnitInterval (dimension_ m + 1)
               (barycentric point index m),
             barycentric point index m).
Proof.
  intros Hlt. rewrite checkPointInSimplexWithCoordinates_unfold.
  apply Nat.leb_gt in Hlt. now rewrite Hlt.
Qed.

Lemma checkPointInSimplex_Ok (point : Point) (index : nat) (m : Mesh) :
  index < getSimplicesNumber m ->
  checkPointInSimplex point index m
  = Ok (negb (outsideBoundingBox point index m)
        && coordinatesInUnitInterval (dimension_ m + 1)
             (barycentric point index m)).
Proof.
  intros Hlt. unfold checkPointInSimplex.
  rewrite checkPointInSimplexWithCoordinates_Ok by exact Hlt.
  destruct (outsideBoundingBox point index m); reflexivity.
Qed.

(** The answer of the test does not depend on what [coordinates] held; a
    positive answer leaves the barycentric coordinates there. *)
Lemma checkPointInSimplex_true (point : Point) (index : nat)
    (coordinates : Point) (m : Mesh) :
  checkPointInSimplex point index m = Ok true ->
  checkPointInSimplexWithCoordinates point index coordinates m
  = Ok (true, barycentric point index m).
Proof.
  unfold checkPointInSimplex.
  rewrite !checkPointInSimplexWithCoordinates_unfold.
  destruct (outsideBoundingBox point index m); [discriminate |].
  destruct (getSimplicesNumber m <=? index).
  - destruct (buildSimplexMatrix index m); discriminate.
  - cbn. intros [= ->]. reflexivity.
Qed.

Lemma checkPointInSimplex_false (point : Point) (index : nat)
    (coordinates : Point) (m : Mesh) :
  checkPointInSimplex point index m = Ok false ->
  exists coordinates',
    checkPointInSimplexWithCoordinates point index coordinates m
    = Ok (false, coordinates').
Proof.
  unfold checkPointInSimplex.
  rewrite !checkPointInSimplexWithCoordinates_unfold.
  destruct (outsideBoundingBox point index m); [eauto |].
  destruct (getSimplicesNumber m <=? index).
  - destruct (buildSimplexMatrix index m); [eauto | discriminate].
  - cbn. intros [= ->]. eauto.
Qed.

Lemma candidatesLoop_skip (point : Point) (m : Mesh) (before rest : Indices)
    (result : Indices) (coordinates : Point) :
  Forall (fun s => checkPointInSimplex point s m = Ok false) before ->
  exists coordinates',
    candidatesLoop point (before ++ rest) result coordinates m
    = candidatesLoop point rest result coordinates' m.
Proof.
  revert coordinates.
  induction before as [| s before IH]; intros coordinates Hall; cbn.
  - eauto.
  - apply Forall_cons in Hall as [Hs Hall].
    destruct (checkPointInSimplex_false point s coordinates m Hs) as [c' ->].
    cbn. now apply IH.
Qed.

(** Every simplex index of an up-to-date incidence map is one of the mesh. *)
Lemma incidence_coherent_below (m : Mesh) :
  incidence_coherent m ->
  incidence_below (getSimplicesNumber m) (verticesToSimplices_ m).
Proof.
  unfold incidence_below. intros [-> | ->]; [constructor |].
  pose proof (incidenceLoop_increasing (simplices_ m) (getVerticesNumber m))
    as H.
  eapply Forall_impl; [exact H |]. now intros l [_ Hl].
Qed.

Lemma candidates_below (m : Mesh) (nearestIndex : nat) :
  incidence_coherent m ->
  Forall (fun s => s < getSimplicesNumber m)
    (verticesToSimplices_ m !!! nearestIndex).
Proof.
  intros Hm. apply incidence_coherent_below in Hm.
  unfold incidence_below in Hm. rewrite Forall_forall in Hm.
  destruct (verticesToSimplices_ m !! nearestIndex) as [l |] eqn:E.
  - rewrite (list_lookup_total_correct _ _ _ E).
    apply Hm. apply list_elem_of_lookup. eauto.
  - rewrite list_lookup_total_alt, E. constructor.
Qed.

Lemma getNearestVertexIndex_Ok (point : Point) (m : Mesh) :
  rectangular m ->
  length point = getDimension m ->
  exists nearestIndex, getNearestVertexIndex point m = Ok nearestIndex.
Proof.
  intros Hrect Hdim. unfold getNearestVertexIndex, ParallelReduce.
  rewrite (proj2 (Nat.eqb_eq _ _) Hdim). cbn.
  destruct (KDTree_isEmpty (tree_ m)); cbn; [| eauto].
  rewrite (runSchedule_nearest m point _ Hrect Hdim)
    by (first [now split | cbn; lra | left; reflexivity]).
  cbn. eauto.
Qed.

(** The function, once the dimension is checked and the nearest vertex
    known. *)
Lemma getNearestVertexAndSimplexIndicesWithCoordinates_unfold
    (point : Point) (m : Mesh) (nearestIndex : nat) :
  length point = getDimension m ->
  getNearestVertexIndex point m = Ok nearestIndex ->
  let m' := snd (getVerticesToSimplicesMap m) in
  getNearestVertexAndSimplexIndicesWithCoordinates point m
  = match candidatesLoop point (verticesToSimplices_ m' !!! nearestIndex)
            [nearestIndex] [] m' with
    | Ok (result, coordinates) =>
        (Ok (result, if length result =? 1 then [] else coordinates), m')
    | Throw e => (Throw e, m')
    end.
Proof.
  intros Hdim Hnearest.
  unfold getNearestVertexAndSimplexIndicesWithCoordinates, bind, gets, query,
    ret, throw.
  apply Nat.eqb_eq in Hdim. rewrite Hdim. cbn.
  rewrite Hnearest, refreshVerticesToSimplicesMap_spec. cbn.
  destruct (candidatesLoop _ _ _ _ _) as [[result coordinates] | e];
    reflexivity.
Qed.

(** How the function goes about it: the answer is decided by the tests of
    the candidates that the incidence map lists for the nearest vertex, in
    their order.  The first candidate that passes the test is returned with
    the barycentric coordinates of the point in it; when every candidate
    fails the test, the nearest vertex is returned alone.  What the test
    says of the geometry depends on the bounding boxes that the mesh
    holds. *)
Lemma localisation_by_candidates (m : Mesh) (point : Point) :
  reachable m ->
  rectangular m ->
  length point = getDimension m ->
  exists nearestIndex,
    getNearestVertexIndex point m = Ok nearestIndex
    /\ let m' := snd (getVerticesToSimplicesMap m) in
       let candidates := verticesToSimplices_ m' !!! nearestIndex in
       snd (getNearestVertexAndSimplexIndicesWithCoordinates point m) = m'
       /\ Forall (fun s => exists inside,
                              checkPointInSimplex point s m' = Ok inside)
            candidates
       /\ (forall before simplexIndex after,
              candidates = before ++ simplexIndex :: after ->
              Forall (fun s => checkPointInSimplex point s m' = Ok false)
                before ->
              checkPointInSimplex point simplexIndex m' = Ok true ->
              fst (getNearestVertexAndSimplexIndicesWithCoordinates point m)
              = Ok ([nearestIndex; simplexIndex],
                    barycentric point simplexIndex m'))
       /\ (Forall (fun s => checkPointInSimplex point s m' = Ok false)
              candidates ->
           fst (getNearestVertexAndSimplexIndicesWithCoordinates point m)
           = Ok ([nearestIndex], [])).
Proof.
  intros Hm Hrect Hdim.
  destruct (getNearestVertexIndex_Ok point m Hrect Hdim)
    as [nearestIndex Hnearest].
  exists nearestIndex. split; [exact Hnearest |]. cbn zeta.
  rewrite (getNearestVertexAndSimplexIndicesWithCoordinates_unfold
             point m nearestIndex Hdim Hnearest). cbn zeta.
  set (m' := snd (getVerticesToSimplicesMap m)).
  set (candidates := verticesToSimplices_ m' !!! nearestIndex).
  split; [| split; [| split]].
  - destruct (candidatesLoop _ _ _ _ _) as [[result coordinates] | e];
      reflexivity.
  - pose proof (candidates_below m' nearestIndex
                  (getVerticesToSimplicesMap_coherent m
                     (reachable_incidence_coherent m Hm))) as Hbelow.
    eapply Forall_impl; [exact Hbelow |]. cbn. intros s Hs.
    rewrite checkPointInSimplex_Ok by exact Hs. eauto.
  - intros before simplexIndex after Hsplit Hbefore Hhit.
    rewrite Hsplit.
    destruct (candidatesLoop_skip point m' before (simplexIndex :: after)
                [nearestIndex] [] Hbefore) as [c' ->].
    cbn [candidatesLoop].
    rewrite (checkPointInSimplex_true point simplexIndex c' m' Hhit).
    reflexivity.
  - intros Hnone.
    destruct (candidatesLoop_skip point m' candidates []
                [nearestIndex] [] Hnone) as [c' Hloop].
    rewrite app_nil_r in Hloop. rewrite Hloop. reflexivity.
Qed.
End Localisation.

(** The asymmetry with [contains], on the mesh of the line with the segment
    from 0 to 10 and a loose vertex at 4: the point 4.2 lies in the segment,
    which is not incident to the vertex nearest to the point; [contains]
    finds the point by its scan of all simplices, and the localisation gives
    the nearest vertex alone. *)
Lemma no_fallback_to_full_scan :
  fst (contains (lib := Exact.collaborators) [42 # 10]%Q Exact.looseVertex)
  = Ok true
  /\ fst (getNearestVertexAndSimplexIndicesWithCoordinates
            (lib := Exact.collaborators) [42 # 10]%Q Exact.looseVertex)
     = Ok ([2], []).
Proof. vm_compute. split; reflexivity. Qed.

(** ** Volumes and weights *)

Lemma Qsum_nil : Qsum [] = 0%Q.
Proof. reflexivity. Qed.

Lemma Qsum_cons (x : Q) (l : list Q) : Qsum (x :: l) = (x + Qsum l)%Q.
Proof. reflexivity. Qed.

Lemma Qsum_app (l1 l2 : list Q) :
  (Qsum (l1 ++ l2) == Qsum l1 + Qsum l2)%Q.
Proof.
  induction l1 as [| x l1 IH]; cbn [app]; rewrite ?Qsum_nil, ?Qsum_cons.
  - lra.
  - rewrite IH. lra.
Qed.

Lemma Qsum_map_ext {A} (f g : A -> Q) (l : list A) :
  (forall a, (f a == g a)%Q) ->
  (Qsum (map f l) == Qsum (map g l))%Q.
Proof.
  intros Hfg. induction l as [| a l IH]; cbn [map];
    rewrite ?Qsum_nil, ?Qsum_cons.
  - lra.
  - rewrite IH, (Hfg a). lra.
Qed.

Lemma Qsum_map_scale {A} (f : A -> Q) (c : Q) (l : list A) :
  (Qsum (map (fun a => f a * c) l) == Qsum (map f l) * c)%Q.
Proof.
  induction l as [| a l IH]; cbn [map]; rewrite ?Qsum_nil, ?Qsum_cons.
  - lra.
  - rewrite IH. ring.
Qed.

Lemma fold_left_Qplus {A} (f : A -> Q) (l : list A) (acc : Q) :
  (fold_left (fun acc a => acc + f a) l acc == acc + Qsum (map f l))%Q.
Proof.
  revert acc. induction l as [| a l IH]; intros acc; cbn [fold_left map];
    rewrite ?Qsum_nil, ?Qsum_cons.
  - lra.
  - rewrite IH. lra.
Qed.

Lemma Result_mapM_Ok {A B} (f : A -> Result B) (g : A -> B) (l : list A) :
  Forall (fun a => f a = Ok (g a)) l ->
  Result_mapM f l = Ok (map g l).
Proof.
  induction 1 as [| a l Ha _ IH]; cbn.
  - reflexivity.
  - now rewrite Ha, IH.
Qed.

Section Volumes.
Context {lib : Collaborators}.

Lemma buildSimplexMatrix_Ok (index : nat) (m : Mesh) :
  index < getSimplicesNumber m ->
  exists matrix, buildSimplexMatrix index m = Ok matrix.
Proof.
  intros Hlt. unfold buildSimplexMatrix.
  apply Nat.leb_gt in Hlt. rewrite Hlt. eauto.
Qed.

Lemma computeSimplexVolume_Ok (index : nat) (m : Mesh) :
  index < getSimplicesNumber m ->
  computeSimplexVolume index m = Ok (simplexVolume m index).
Proof.
  intros Hlt. unfold simplexVolume.
  destruct (buildSimplexMatrix_Ok index m Hlt) as [matrix Hmatrix].
  unfold computeSimplexVolume. rewrite Hmatrix.
  apply Nat.leb_gt in Hlt. rewrite Hlt.
  destruct (getDimension m =? 1); [reflexivity |].
  destruct (getDimension m =? 2); reflexivity.
Qed.

Lemma simplexVolume_outside (index : nat) (m : Mesh) :
  getSimplicesNumber m <= index -> simplexVolume m index = 0%Q.
Proof.
  intros Hle. unfold simplexVolume, computeSimplexVolume.
  apply Nat.leb_le in Hle. now rewrite Hle.
Qed.

(** The table [simplicesVolume] of [computeWeights]. *)
Lemma simplicesVolume_lookup (m : Mesh) (s : nat) :
  map (simplexVolume m) (seq 0 (getSimplicesNumber m)) !!! s
  = simplexVolume m s.
Proof.
  rewrite list_lookup_total_alt, list_lookup_fmap.
  destruct (le_lt_dec (getSimplicesNumber m) s) as [Hle | Hlt].
  - rewrite lookup_ge_None_2 by (rewrite length_seq; exact Hle).
    cbn. symmetry. now apply simplexVolume_outside.
  - rewrite lookup_seq_lt by exact Hlt. reflexivity.
Qed.

Lemma VolumeFunctor_loop_Ok (f : VolumeFunctor) (range : list nat) :
  Forall (fun i => i < getSimplicesNumber (vf_mesh_ f)) range ->
  exists g,
    VolumeFunctor_loop f range = Ok g
    /\ vf_mesh_ g = vf_mesh_ f
    /\ (accumulator_ g
        == accumulator_ f + Qsum (map (simplexVolume (vf_mesh_ f)) range))%Q.
Proof.
  revert f. induction range as [| i range IH]; intros f Hall;
    cbn [VolumeFunctor_loop map]; rewrite ?Qsum_nil, ?Qsum_cons.
  - exists f. repeat split. lra.
  - apply Forall_cons in Hall as [Hi Hall].
    rewrite (computeSimplexVolume_Ok i _ Hi). cbn [Result_bind].
    destruct (IH (mkVolumeFunctor (vf_mesh_ f)
                    (accumulator_ f + simplexVolume (vf_mesh_ f) i)) Hall)
      as (g & -> & Hmesh & Hacc).
    cbn [vf_mesh_ accumulator_] in *.
    exists g. repeat split; [exact Hmesh |]. rewrite Hacc. lra.
Qed.

(** Whatever the partition, the reduction adds up the volumes of the
    range. *)
Lemma runSchedule_volume (s : Schedule) :
  forall (lo hi : nat) (f : VolumeFunctor),
    hi <= getSimplicesNumber (vf_mesh_ f) \/ hi <= lo ->
    exists g,
      runSchedule s lo hi f = Ok g
      /\ vf_mesh_ g = vf_mesh_ f
      /\ (accumulator_ g
          == accumulator_ f
             + Qsum (map (simplexVolume (vf_mesh_ f)) (seq lo (hi - lo))))%Q.
Proof.
  induction s as [| mid l IHl r IHr | mid l IHl r IHr]; intros lo hi f Hhi.
  - cbn. apply VolumeFunctor_loop_Ok. apply Forall_forall.
    intros i Hi. apply elem_of_seq in Hi. lia.
  - cbn [runSchedule].
    destruct (IHl lo (clamp lo hi mid) f) as (g & -> & Hgm & Hga);
      [unfold clamp; lia |].
    cbn [Result_bind].
    destruct (IHr (clamp lo hi mid) hi g) as (g' & -> & Hgm' & Hga');
      [rewrite Hgm; unfold clamp; lia |].
    exists g'. repeat split; [congruence |].
    rewrite Hga', Hga, Hgm, <- (seq_clamp lo hi mid), map_app, Qsum_app. lra.
  - cbn [runSchedule].
    destruct (IHl lo (clamp lo hi mid) f) as (g & -> & Hgm & Hga);
      [unfold clamp; lia |].
    cbn [Result_bind].
    destruct (IHr (clamp lo hi mid) hi (body_split f)) as (g' & -> & Hgm' & Hga');
      [cbn; unfold clamp; lia |].
    cbn [Result_bind]. eexists. split; [reflexivity |]. cbn.
    split; [exact Hgm |].
    rewrite Hga', Hga, <- (seq_clamp lo hi mid), map_app, Qsum_app. cbn. lra.
Qed.

Lemma computeVolume_spec (m : Mesh) :
  exists v,
    computeVolume m = (Ok v, set_isAlreadyComputedVolume_ true m)
    /\ (v == Qsum (map (simplexVolume m) (seq 0 (getSimplicesNumber m))))%Q.
Proof.
  unfold computeVolume, ParallelReduce, bind, query, modify, ret.
  destruct (runSchedule_volume (partition 0 (getSimplicesNumber m)) 0
              (getSimplicesNumber m) (VolumeFunctor_new m))
    as (g & -> & _ & Hacc); [left; reflexivity |].
  exists (accumulator_ g). split; [reflexivity |].
  rewrite Hacc, Nat.sub_0_r. cbn. lra.
Qed.

(** A memoised volume is given back as it is. *)
Lemma getVolume_memoised (m : Mesh) :
  isAlreadyComputedVolume_ m = true ->
  getVolume m = (Ok (volume_ m), m).
Proof.
  intros Hm. unfold getVolume, bind, gets, ret. now rewrite Hm.
Qed.

(** *** Each simplex gives its volume to each of its vertices *)

Lemma listedVolume_cons (volume : nat -> Q) (l : list nat)
    (incidence : list (list nat)) :
  listedVolume volume (l :: incidence)
  = (Qsum (map volume l) + listedVolume volume incidence)%Q.
Proof. reflexivity. Qed.

Lemma listedVolume_addIncidence (volume : nat -> Q) (i : nat)
    (incidence : list (list nat)) (index : nat) :
  index < length incidence ->
  (listedVolume volume (addIncidence i incidence index)
   == listedVolume volume incidence + volume i)%Q.
Proof.
  revert index. induction incidence as [| l incidence IH]; intros index Hlt.
  - cbn in Hlt. lia.
  - destruct index as [| index]; cbn [addIncidence alter list_alter].
    + rewrite !listedVolume_cons, map_app, Qsum_app. cbn [map].
      rewrite Qsum_cons, Qsum_nil. lra.
    + rewrite !listedVolume_cons.
      fold (addIncidence i incidence index).
      rewrite IH by (cbn in Hlt; lia). lra.
Qed.

Lemma listedVolume_pass (volume : nat -> Q) (i : nat) (simplex : Indices) :
  forall incidence : list (list nat),
    Forall (fun index => index < length incidence) simplex ->
    length (fold_left (addIncidence i) simplex incidence) = length incidence
    /\ (listedVolume volume (fold_left (addIncidence i) simplex incidence)
        == listedVolume volume incidence
           + inject_Z (Z.of_nat (length simplex)) * volume i)%Q.
Proof.
  induction simplex as [| index simplex IH]; intros incidence Hall.
  - cbn [fold_left length]. split; [reflexivity |].
    change (inject_Z (Z.of_nat 0)) with 0%Q. lra.
  - apply Forall_cons in Hall as [Hindex Hall].
    cbn [fold_left].
    assert (Hlen : length (addIncidence i incidence index) = length incidence)
      by apply length_alter.
    destruct (IH (addIncidence i incidence index)) as [Hl Hv].
    { now rewrite Hlen. }
    split; [congruence |].
    rewrite Hv, listedVolume_addIncidence by exact Hindex.
    cbn [length]. rewrite Nat2Z.inj_succ, <- Z.add_1_l, inject_Z_plus.
    ring.
Qed.

Lemma listedVolume_incidenceLoop (volume : nat -> Q) (n : nat)
    (simplices : IndicesCollection) :
  forall (i : nat) (incidence : list (list nat)),
    Forall (fun simplex =>
              length simplex = n
              /\ Forall (fun index => index < length incidence) simplex)
      simplices ->
    length (incidenceLoop i simplices incidence) = length incidence
    /\ (listedVolume volume (incidenceLoop i simplices incidence)
        == listedVolume volume incidence
           + inject_Z (Z.of_nat n)
             * Qsum (map volume (seq i (length simplices))))%Q.
Proof.
  induction simplices as [| simplex simplices IH]; intros i incidence Hall.
  - cbn [incidenceLoop length seq map]. rewrite Qsum_nil.
    split; [reflexivity | ring].
  - apply Forall_cons in Hall as [[Hn Hsimplex] Hall].
    cbn [incidenceLoop length seq map]. rewrite Qsum_cons.
    destruct (listedVolume_pass volume i simplex incidence Hsimplex)
      as [Hl Hv].
    fold (addIncidence i) in *.
    destruct (IH (S i) (fold_left (addIncidence i) simplex incidence))
      as [Hl' Hv'].
    { rewrite Hl. exact Hall. }
    split; [congruence |].
    rewrite Hv', Hv, Hn. ring.
Qed.

Lemma listedVolume_replicate (volume : nat -> Q) (n : nat) :
  (listedVolume volume (replicate n []) == 0)%Q.
Proof.
  induction n as [| n IH]; cbn [replicate].
  - reflexivity.
  - rewrite listedVolume_cons, IH. cbn. lra.
Qed.

Lemma map_lookup_total_seq {A B} `{Inhabited A} (g : A -> B) (l : list A) :
  map (fun i => g (l !!! i)) (seq 0 (length l)) = map g l.
Proof.
  induction l as [| a l IH]; [reflexivity |].
  cbn [length seq map]. f_equal.
  rewrite <- seq_shift, map_map. exact IH.
Qed.

(** A valid mesh has simplices of [dimension + 1] known vertices. *)
Lemma isValid_simplices (m : Mesh) :
  isValid m = true ->
  Forall (fun simplex =>
            length simplex = dimension_ m + 1
            /\ Forall (fun index => index < getVerticesNumber m) simplex)
    (simplices_ m).
Proof.
  intros Hvalid.
  apply (proj1 (isValid_Forall m)) in Hvalid.
  eapply Forall_impl; [exact Hvalid |]. cbn. intros simplex Hs.
  apply ill_formed_dec in Hs as [Hlen Hchk].
  apply negb_false_iff in Hlen, Hchk.
  apply Nat.eqb_eq in Hlen. apply Indices_check_true in Hchk. now split.
Qed.

(** After [getVerticesToSimplicesMap] the incidence map is the one of the
    present simplices. *)
Lemma getVerticesToSimplicesMap_fresh (m : Mesh) :
  incidence_coherent m ->
  verticesToSimplices_ (snd (getVerticesToSimplicesMap m))
  = incidenceLoop 0 (simplices_ m) (replicate (getVerticesNumber m) []).
Proof.
  intros Hm.
  destruct (getVerticesToSimplicesMap_spec m) as (_ & _ & Hne & Hnil).
  destruct (verticesToSimplices_ m) as [| l ls] eqn:E.
  - now apply Hnil.
  - rewrite Hne by discriminate. rewrite E.
    destruct Hm as [Hm | Hm]; congruence.
Qed.

Lemma computeWeights_unfold (m : Mesh) :
  let m' := snd (getVerticesToSimplicesMap m) in
  computeWeights m
  = (Ok (map (fun w => (w / (inject_Z (Z.of_nat (dimension_ m)) + 1))%Q)
           (map (fun i =>
                   fold_left
                     (fun weight s =>
                        (weight
                         + map (simplexVolume m)
                             (seq 0 (getSimplicesNumber m)) !!! s)%Q)
                     (verticesToSimplices_ m' !!! i) 0%Q)
                (seq 0 (getVerticesNumber m)))),
     m').
Proof.
  destruct (getVerticesToSimplicesMap_spec m) as (Hfst & Hs & _).
  destruct Hs as (Hd & Hv & _).
  unfold computeWeights, bind, query, gets, ret.
  rewrite (Result_mapM_Ok _ (simplexVolume m)).
  - destruct (getVerticesToSimplicesMap m) as [r m'] eqn:E. cbn in *.
    rewrite Hfst. unfold getVerticesNumber. rewrite Hv, Hd. reflexivity.
  - apply Forall_forall. intros i Hi. apply elem_of_seq in Hi.
    apply computeSimplexVolume_Ok. lia.
Qed.

(** C7, as the code has it: [computeWeights] gives one weight per vertex,
    the sum of the volumes of the simplices listed for the vertex divided by
    [dimension + 1]; on a valid mesh the weights add up to the volume that
    [computeVolume] gives. *)
Theorem computeWeights_mass (m : Mesh) :
  reachable m ->
  exists weights incidence volume,
    fst (computeWeights m) = Ok weights
    /\ fst (getVerticesToSimplicesMap m) = Ok incidence
    /\ fst (computeVolume m) = Ok volume
    /\ length weights = getVerticesNumber m
    /\ (forall i, i < getVerticesNumber m ->
                  (weights !!! i
                   == Qsum (map (simplexVolume m) (incidence !!! i))
                      / (inject_Z (Z.of_nat (dimension_ m)) + 1))%Q)
    /\ (isValid m = true -> (Qsum weights == volume)%Q).
Proof.
  intros Hm. apply reachable_incidence_coherent in Hm.
  destruct (computeVolume_spec m) as (volume & Hvolume & Hsum).
  destruct (getVerticesToSimplicesMap_spec m) as (Hfst & _).
  pose proof (getVerticesToSimplicesMap_fresh m Hm) as Hfresh.
  set (incidence := verticesToSimplices_ (snd (getVerticesToSimplicesMap m)))
    in *.
  set (d1 := (inject_Z (Z.of_nat (dimension_ m)) + 1)%Q).
  assert (Hd1 : (0 < d1)%Q).
  { unfold d1. pose proof (Nat2Z.is_nonneg (dimension_ m)) as Hd.
    rewrite Zle_Qle in Hd. change (inject_Z 0) with 0%Q in Hd. lra. }
  eexists _, incidence, volume.
  rewrite computeWeights_unfold, Hvolume. cbn [fst].
  fold incidence. fold d1.
  split; [reflexivity |]. split; [exact Hfst |]. split; [reflexivity |].
  (* the weight of a vertex *)
  assert (Hweight : forall i,
             (fold_left
                (fun weight s =>
                   (weight
                    + map (simplexVolume m)
                        (seq 0 (getSimplicesNumber m)) !!! s)%Q)
                (incidence !!! i) 0
              == Qsum (map (simplexVolume m) (incidence !!! i)))%Q).
  { intros i.
    rewrite (fold_left_Qplus
               (fun s => map (simplexVolume m)
                           (seq 0 (getSimplicesNumber m)) !!! s)).
    rewrite (Qsum_map_ext _ (simplexVolume m)).
    - lra.
    - intros s. now rewrite simplicesVolume_lookup. }
  split; [| split].
  - now rewrite !length_map, length_seq.
  - intros i Hi.
    rewrite list_lookup_total_alt, !list_lookup_fmap, lookup_seq_lt by exact Hi.
    cbn. now rewrite Hweight.
  - intros Hvalid. rewrite Hsum.
    destruct (listedVolume_incidenceLoop (simplexVolume m) (dimension_ m + 1)
                (simplices_ m) 0 (replicate (getVerticesNumber m) []))
      as [Hlen Hlisted].
    { rewrite length_replicate. now apply isValid_simplices. }
    rewrite <- Hfresh in Hlen, Hlisted. rewrite length_replicate in Hlen.
    rewrite listedVolume_replicate in Hlisted.
    fold (getSimplicesNumber m) in Hlisted.
    rewrite (map_map _ (fun w => (w / d1)%Q)).
    rewrite (Qsum_map_ext _
               (fun i => (Qsum (map (simplexVolume m) (incidence !!! i))
                          * / d1)%Q))
      by (intros i; now rewrite Hweight).
    rewrite (Qsum_map_scale
               (fun i => Qsum (map (simplexVolume m) (incidence !!! i)))).
    rewrite <- Hlen.
    rewrite (map_lookup_total_seq
               (fun l => Qsum (map (simplexVolume m) l)) incidence).
    fold (listedVolume (simplexVolume m) incidence).
    rewrite Hlisted.
    replace (inject_Z (Z.of_nat (dimension_ m + 1))) with d1.
    + field. lra.
    + unfold d1. rewrite Nat2Z.inj_add, inject_Z_plus. reflexivity.
Qed.
End Volumes.

Lemma computeWeights_mass_witness :
  exists weights volume,
    fst (computeWeights (lib := Exact.collaborators) Exact.triangle)
    = Ok weights
    /\ fst (computeVolume (lib := Exact.collaborators) Exact.triangle)
       = Ok volume
    /\ (Qsum weights == volume)%Q.
Proof.
  destruct (computeWeights_mass (lib := Exact.collaborators) Exact.triangle)
    as (weights & incidence & volume & Hw & _ & Hv & _ & _ & Hmass).
  - apply reachable_of.
  - exists weights, volume. split; [exact Hw |]. split; [exact Hv |].
    apply Hmass. reflexivity.
Defined.

(** C7, as stated, fails: on a mesh of the line whose simplex has three
    entries the weights add up to three halves of the volume. *)
Lemma weights_exceed_volume :
  ~ (forall (lib : Collaborators) (m : Mesh),
        reachable m ->
        forall weights volume,
          fst (computeWeights m) = Ok weights ->
          fst (computeVolume m) = Ok volume ->
          (Qsum weights == volume)%Q).
Proof.
  intros H.
  specialize (H Exact.collaborators Exact.overlong (reachable_of _ _)
                [1 # 2; 1 # 2; 1 # 2]%Q 1%Q eq_refl eq_refl).
  vm_compute in H. discriminate H.
Qed.

(** C5 at work: the volume of the segment from 0 to 1 is memoised; the
    simplices are then replaced by the segment from 0 to 3, which empties
    the incidence map and the boxes but leaves the flag up, and [getVolume]
    still answers 1 where [computeVolume] finds 3. *)
Theorem setSimplices_keeps_memoised_volume :
  let m1 := snd (getVolume (lib := Exact.collaborators) Exact.threeOnALine) in
  let m2 := setSimplices [[0; 2]] m1 in
  reachable (lib := Exact.collaborators) m2
  /\ fst (getVolume (lib := Exact.collaborators) Exact.threeOnALine) = Ok 1%Q
  /\ simplices_ m2 = [[0; 2]]
  /\ verticesToSimplices_ m2 = []
  /\ tree_ m2 = tree_ m1
  /\ isAlreadyComputedVolume_ m2 = true
  /\ fst (getVolume (lib := Exact.collaborators) m2) = Ok 1%Q
  /\ fst (computeVolume (lib := Exact.collaborators) m2) = Ok 3%Q.
Proof.
  split.
  - apply reachable_setSimplices, reachable_getVolume, reachable_of.
  - vm_compute. repeat split.
Qed.

(** ** Bounding boxes of the simplices *)

Lemma at2_set2_eq (sample : Sample) (i k : nat) (x : Q) :
  i < length sample -> k < length (sample !!! i) ->
  at2 (set2 sample i k x) i k = x.
Proof.
  intros Hi Hk. unfold at2, set2.
  rewrite list_lookup_total_alter_eq by exact Hi.
  now apply list_lookup_total_insert_eq.
Qed.

Lemma at2_set2_other (sample : Sample) (i k i' k' : nat) (x : Q) :
  at2 (set2 sample i k x) i' k' = at2 sample i' k'
  \/ (i' = i /\ k' = k).
Proof.
  unfold at2, set2. rewrite list_lookup_total_alter.
  case_decide as H; [| now left]. destruct H as [<- Hlt].
  destruct (decide (k = k')) as [<- | Hk]; [now right | left].
  now apply list_lookup_total_insert_ne.
Qed.

Lemma set2_shape (sample : Sample) (i k d : nat) (x : Q) :
  Forall (fun row => length row = d) sample ->
  length (set2 sample i k x) = length sample
  /\ Forall (fun row => length row = d) (set2 sample i k x).
Proof.
  intros Hrows. unfold set2. split; [apply length_alter |].
  apply Forall_alter; [exact Hrows |].
  intros row _ Hrow. now rewrite length_insert.
Qed.

Lemma row_length (sample : Sample) (i d : nat) :
  Forall (fun row => length row = d) sample ->
  i < length sample -> length (sample !!! i) = d.
Proof.
  intros Hrows Hi. rewrite Forall_forall in Hrows.
  apply Hrows. now apply list_elem_of_lookup_total_2.
Qed.

Section Boxes.
Context {lib : Collaborators}.

Lemma box_widened_refl (m : Mesh) : box_widened m m.
Proof. intros i k. split; lra. Qed.

Lemma box_widened_trans (m1 m2 m3 : Mesh) :
  box_widened m1 m2 -> box_widened m2 m3 -> box_widened m1 m3.
Proof.
  intros H12 H23 i k.
  destruct (H12 i k), (H23 i k). split; lra.
Qed.

Lemma box_holds_widened (m m' : Mesh) (i index k : nat) :
  vertices_ m' = vertices_ m ->
  box_widened m m' -> box_holds m i index k -> box_holds m' i index k.
Proof.
  unfold box_holds. intros -> Hw [Hl Hu].
  destruct (Hw i k). split; lra.
Qed.

Lemma boundingBoxStep_boxes (i index k : nat) (m : Mesh) :
  box_shape m -> i < getSimplicesNumber m -> k < dimension_ m ->
  let m' := boundingBoxStep i index m k in
  box_shape m' /\ box_widened m m' /\ box_holds m' i index k.
Proof.
  intros (Hll & Hlu & Hrl & Hru) Hi Hk.
  assert (Hkl : k < length (lowerBoundingBoxSimplices_ m !!! i))
    by (rewrite (row_length _ i _ Hrl); lia).
  assert (Hku : k < length (upperBoundingBoxSimplices_ m !!! i))
    by (rewrite (row_length _ i _ Hru); lia).
  unfold boundingBoxStep, box_shape, box_widened, box_holds.
  unfold getSimplicesNumber in *.
  set (x := at2 (vertices_ m) index k).
  destruct (set2_shape (lowerBoundingBoxSimplices_ m) i k _ x Hrl) as [? ?].
  destruct (set2_shape (upperBoundingBoxSimplices_ m) i k _ x Hru) as [? ?].
  assert (Hsetl : at2 (set2 (lowerBoundingBoxSimplices_ m) i k x) i k = x)
    by (apply at2_set2_eq; [lia | exact Hkl]).
  assert (Hsetu : at2 (set2 (upperBoundingBoxSimplices_ m) i k x) i k = x)
    by (apply at2_set2_eq; [lia | exact Hku]).
  assert (Hwl : (x < at2 (lowerBoundingBoxSimplices_ m) i k)%Q ->
                forall i' k',
                  (at2 (set2 (lowerBoundingBoxSimplices_ m) i k x) i' k'
                   <= at2 (lowerBoundingBoxSimplices_ m) i' k')%Q).
  { intros Hlt i' k'.
    destruct (at2_set2_other (lowerBoundingBoxSimplices_ m) i k i' k' x)
      as [-> | [-> ->]]; [lra | rewrite Hsetl; lra]. }
  assert (Hwu : (at2 (upperBoundingBoxSimplices_ m) i k < x)%Q ->
                forall i' k',
                  (at2 (upperBoundingBoxSimplices_ m) i' k'
                   <= at2 (set2 (upperBoundingBoxSimplices_ m) i k x) i' k')%Q).
  { intros Hlt i' k'.
    destruct (at2_set2_other (upperBoundingBoxSimplices_ m) i k i' k' x)
      as [-> | [-> ->]]; [lra | rewrite Hsetu; lra]. }
  destruct (Qltb x (at2 (lowerBoundingBoxSimplices_ m) i k)) eqn:El;
    [apply Qltb_lt in El | apply Qltb_ge in El];
    cbn [upperBoundingBoxSimplices_ set_lowerBoundingBoxSimplices_];
    (destruct (Qltb (at2 (upperBoundingBoxSimplices_ m) i k) x) eqn:Eu;
     [apply Qltb_lt in Eu | apply Qltb_ge in Eu]);
    cbn; fold x; rewrite ?Hsetl, ?Hsetu;
    (split; [repeat split; first [assumption | congruence] |]);
    (split; [| split; lra]);
    intros i' k'; split;
    first [apply (Hwl El) | apply (Hwu Eu) | lra].
Qed.

(** The loop over the coordinates. *)
Lemma boundingBox_fold_boxes (i index : nat) (ks : list nat) :
  forall m : Mesh,
    box_shape m -> i < getSimplicesNumber m ->
    Forall (fun k => k < dimension_ m) ks ->
    let m' := fold_left (boundingBoxStep i index) ks m in
    box_shape m' /\ box_widened m m'
    /\ Forall (fun k => box_holds m' i index k) ks.
Proof.
  induction ks as [| k ks IH]; intros m Hshape Hi Hks; cbn zeta.
  - cbn. split; [exact Hshape |]. split; [apply box_widened_refl |].
    constructor.
  - apply Forall_cons in Hks as [Hk Hks]. cbn [fold_left].
    destruct (boundingBoxStep_boxes i index k m Hshape Hi Hk)
      as (Hshape1 & Hw1 & Hh1).
    destruct (boundingBoxStep_frame i index k m) as [Hs1 _].
    destruct Hs1 as (Hd1 & Hv1 & Hss1 & _).
    destruct (IH (boundingBoxStep i index m k)) as (Hshape2 & Hw2 & Hh2).
    + exact Hshape1.
    + unfold getSimplicesNumber in *. now rewrite Hss1.
    + now rewrite Hd1.
    + split; [exact Hshape2 |].
      split; [eapply box_widened_trans; eassumption |].
      constructor; [| exact Hh2].
      eapply box_holds_widened; [| exact Hw2 | exact Hh1].
      destruct (boundingBox_fold_frame i index ks
                  (boundingBoxStep i index m k)) as [(_ & Hv & _) _].
      exact Hv.
Qed.
Lemma simplexVertexStep_boxes (i index : nat) (m : Mesh) :
  box_shape m -> i < getSimplicesNumber m ->
  let m' := simplexVertexStep i m index in
  box_shape m' /\ box_widened m m'
  /\ (forall k, k < dimension_ m -> box_holds m' i index k).
Proof.
  intros Hshape Hi.
  destruct (boundingBox_fold_boxes i index (seq 0 (dimension_ m)) m Hshape Hi)
    as (Hshape' & Hw & Hh).
  { apply Forall_forall. intros k Hk. apply elem_of_seq in Hk. lia. }
  unfold simplexVertexStep. split; [exact Hshape' |]. split; [exact Hw |].
  intros k Hk. rewrite Forall_forall in Hh.
  apply (Hh k). apply elem_of_seq. lia.
Qed.

(** The loop over the entries of simplex [i]. *)
Lemma simplexVertex_fold_boxes (i : nat) (simplex : Indices) :
  forall m : Mesh,
    box_shape m -> i < getSimplicesNumber m ->
    let m' := fold_left (simplexVertexStep i) simplex m in
    box_shape m' /\ box_widened m m'
    /\ Forall (fun index =>
                 forall k, k < dimension_ m -> box_holds m' i index k)
         simplex.
Proof.
  induction simplex as [| index simplex IH]; intros m Hshape Hi; cbn zeta.
  - cbn. split; [exact Hshape |]. split; [apply box_widened_refl |].
    constructor.
  - cbn [fold_left].
    destruct (simplexVertexStep_boxes i index m Hshape Hi)
      as (Hshape1 & Hw1 & Hh1).
    destruct (simplexVertexStep_frame i index m) as [(Hd1 & _ & Hss1 & _) _].
    destruct (IH (simplexVertexStep i m index)) as (Hshape2 & Hw2 & Hh2).
    + exact Hshape1.
    + unfold getSimplicesNumber in *. now rewrite Hss1.
    + split; [exact Hshape2 |].
      split; [eapply box_widened_trans; eassumption |].
      constructor.
      * intros k Hk.
        eapply box_holds_widened; [| exact Hw2 | now apply Hh1].
        destruct (simplexVertex_fold_frame i simplex
                    (simplexVertexStep i m index)) as [(_ & Hv & _) _].
        exact Hv.
      * eapply Forall_impl; [exact Hh2 |]. cbn beta. intros index' H k Hk.
        apply H. now rewrite Hd1.
Qed.

(** The loop over the simplices. *)
Lemma simplicesLoop_boxes (rest : IndicesCollection) :
  forall (i : nat) (m : Mesh),
    box_shape m -> i + length rest <= getSimplicesNumber m ->
    let m' := simplicesLoop i rest m in
    box_shape m' /\ box_widened m m'
    /\ (forall t simplex,
          rest !! t = Some simplex ->
          Forall (fun index =>
                    forall k, k < dimension_ m -> box_holds m' (i + t) index k)
            simplex).
Proof.
  induction rest as [| simplex rest IH]; intros i m Hshape Hi; cbn zeta.
  - cbn. split; [exact Hshape |]. split; [apply box_widened_refl |].
    intros t simplex Ht. rewrite lookup_nil in Ht. discriminate.
  - cbn [simplicesLoop]. cbn [length] in Hi.
    destruct (simplexVertex_fold_boxes i simplex m Hshape)
      as (Hshape1 & Hw1 & Hh1); [lia |].
    destruct (simplexVertex_fold_frame i simplex m)
      as [(Hd1 & _ & Hss1 & _) _].
    set (m1 := fold_left (simplexVertexStep i) simplex m) in *.
    destruct (IH (S i) m1) as (Hshape2 & Hw2 & Hh2).
    + exact Hshape1.
    + unfold getSimplicesNumber in *. rewrite Hss1. lia.
    + split; [exact Hshape2 |].
      split; [eapply box_widened_trans; eassumption |].
      intros [| t] simplex' Ht; cbn in Ht.
      * injection Ht as <-. rewrite Nat.add_0_r.
        eapply Forall_impl; [exact Hh1 |]. cbn beta. intros index H k Hk.
        eapply box_holds_widened; [| exact Hw2 | now apply H].
        destruct (simplicesLoop_frame rest (S i) m1) as [(_ & Hv & _) _].
        exact Hv.
      * replace (i + S t) with (S i + t) by lia.
        eapply Forall_impl; [exact (Hh2 t simplex' Ht) |].
        cbn beta. intros index H k Hk. apply H. now rewrite Hd1.
Qed.

(** Boxes computed afresh enclose the vertices of their simplices. *)
Lemma getVerticesToSimplicesMap_boxes (m : Mesh) :
  verticesToSimplices_ m = [] ->
  boxes_enclose (snd (getVerticesToSimplicesMap m)).
Proof.
  intros Hnil. unfold getVerticesToSimplicesMap. rewrite Hnil. cbn.
  match goal with
  | |- boxes_enclose (simplicesLoop 0 _ ?m0) => set (m0' := m0)
  end.
  destruct (simplicesLoop_boxes (simplices_ m) 0 m0') as (_ & _ & Hh).
  - unfold box_shape, m0', getSimplicesNumber. cbn.
    rewrite !length_replicate. repeat split.
    + apply Forall_forall. intros row Hrow.
      apply elem_of_replicate in Hrow as [-> _]. apply length_replicate.
    + apply Forall_forall. intros row Hrow.
      apply elem_of_replicate in Hrow as [-> _]. apply length_replicate.
  - cbn. reflexivity.
  - destruct (simplicesLoop_frame (simplices_ m) 0 m0')
      as [(Hd & Hv & Hss & _) _].
    change (simplices_ m0') with (simplices_ m) in *.
    change (dimension_ m0') with (dimension_ m) in *.
    change (vertices_ m0') with (vertices_ m) in *.
    intros i j k Hi Hj Hk.
    unfold getSimplicesNumber in Hi. rewrite Hss in Hi, Hj |- *.
    rewrite Hd in Hk.
    specialize (Hh i (simplices_ m !!! i)
                  (list_lookup_lookup_total_lt _ _ Hi)).
    rewrite Forall_forall in Hh.
    apply (Hh ((simplices_ m !!! i) !!! j)); [| exact Hk].
    now apply list_elem_of_lookup_total_2.
Qed.
End Boxes.

(** ** Bounding box of the domain *)

Lemma Qmin_le (a b : Q) : (Qmin a b <= a)%Q /\ (Qmin a b <= b)%Q.
Proof.
  unfold Qmin. destruct (Qltb b a) eqn:E;
    [apply Qltb_lt in E | apply Qltb_ge in E]; split; lra.
Qed.

Lemma Qmax_ge (a b : Q) : (a <= Qmax a b)%Q /\ (b <= Qmax a b)%Q.
Proof.
  unfold Qmax. destruct (Qltb a b) eqn:E;
    [apply Qltb_lt in E | apply Qltb_ge in E]; split; lra.
Qed.

(** Folding a componentwise operation that goes below (or above) both its
    arguments along [R] gives a bound of the first row and of every row
    folded in. *)
Lemma fold_zip_bound (op : Q -> Q -> Q) (R : Q -> Q -> Prop) (d : nat) :
  (forall a, R a a) ->
  (forall a b c, R a b -> R b c -> R a c) ->
  (forall a b, R (op a b) a /\ R (op a b) b) ->
  forall (rest : list (list Q)) (row : list Q),
    length row = d ->
    Forall (fun v => length v = d) rest ->
    let bound := fold_left (zip_with op) rest row in
    length bound = d
    /\ (forall k, k < d -> R (bound !!! k) (row !!! k))
    /\ Forall (fun v => forall k, k < d -> R (bound !!! k) (v !!! k)) rest.
Proof.
  intros Hrefl Htrans Hop rest.
  induction rest as [| v rest IH]; intros row Hrow Hrest; cbn zeta.
  - cbn. split; [exact Hrow |]. split; [intros; apply Hrefl | constructor].
  - apply Forall_cons in Hrest as [Hv Hrest]. cbn [fold_left].
    destruct (IH (zip_with op row v)) as (Hlen & Hfirst & Hall).
    { rewrite length_zip_with. lia. }
    { exact Hrest. }
    assert (Hstep : forall k, k < d ->
               R (zip_with op row v !!! k) (row !!! k)
               /\ R (zip_with op row v !!! k) (v !!! k)).
    { intros k Hk.
      rewrite (lookup_total_zip_with op row v k) by lia.
      apply Hop. }
    split; [exact Hlen |]. split; [| constructor; [| exact Hall]].
    + intros k Hk. eapply Htrans; [now apply Hfirst | now apply Hstep].
    + intros k Hk. eapply Htrans; [now apply Hfirst | now apply Hstep].
Qed.

Lemma Sample_getMin_spec (sample : Sample) (d : nat) :
  sample <> [] ->
  Forall (fun v => length v = d) sample ->
  exists lower,
    Sample_getMin sample = Ok lower
    /\ length lower = d
    /\ Forall (fun v => forall k, k < d -> (lower !!! k <= v !!! k)%Q) sample.
Proof.
  intros Hne Hall. destruct sample as [| row rest]; [contradiction |].
  apply Forall_cons in Hall as [Hrow Hrest].
  destruct (fold_zip_bound Qmin Qle d Qle_refl Qle_trans Qmin_le
              rest row Hrow Hrest) as (Hlen & Hfirst & Hothers).
  eexists. split; [reflexivity |]. split; [exact Hlen |].
  constructor; assumption.
Qed.

Lemma Sample_getMax_spec (sample : Sample) (d : nat) :
  sample <> [] ->
  Forall (fun v => length v = d) sample ->
  exists upper,
    Sample_getMax sample = Ok upper
    /\ length upper = d
    /\ Forall (fun v => forall k, k < d -> (v !!! k <= upper !!! k)%Q) sample.
Proof.
  intros Hne Hall. destruct sample as [| row rest]; [contradiction |].
  apply Forall_cons in Hall as [Hrow Hrest].
  destruct (fold_zip_bound Qmax (fun a b => (b <= a)%Q) d Qle_refl
              (fun a b c Hab Hbc => Qle_trans _ _ _ Hbc Hab) Qmax_ge
              rest row Hrow Hrest) as (Hlen & Hfirst & Hothers).
  eexists. split; [reflexivity |]. split; [exact Hlen |].
  constructor; assumption.
Qed.

Lemma Interval_contains_inside (lower upper point : Point) :
  length point = length lower ->
  (forall k, k < length lower ->
             (lower !!! k <= point !!! k)%Q /\ (point !!! k <= upper !!! k)%Q) ->
  Interval_contains lower upper point = Ok true.
Proof.
  intros Hlen Hin. unfold Interval_contains.
  apply Nat.eqb_eq in Hlen. rewrite Hlen. cbn [negb]. do 2 f_equal.
  apply negb_true_iff.
  destruct (existsb _ _) eqn:E; [| reflexivity].
  apply existsb_exists in E as (k & Hk & Hout).
  apply in_seq in Hk. destruct (Hin k) as [Hl Hu]; [lia |].
  apply orb_true_iff in Hout as [Hout | Hout]; apply Qltb_lt in Hout; lra.
Qed.

Lemma Interval_contains_Ok (lower upper point : Point) :
  length point = length lower ->
  exists inside, Interval_contains lower upper point = Ok inside.
Proof.
  intros Hlen. unfold Interval_contains.
  apply Nat.eqb_eq in Hlen. rewrite Hlen. cbn [negb]. eauto.
Qed.

(** ** Barycentric coordinates and convexity *)

Lemma dot_cons (r : Q) (row : list Q) (x0 : Q) (x : list Q) :
  dot (r :: row) (x0 :: x) = (r * x0 + dot row x)%Q.
Proof. reflexivity. Qed.

Lemma dot_nil_r (row : list Q) : dot row [] = 0%Q.
Proof. now destruct row. Qed.

(** A combination with non-negative coefficients of numbers above [L] is
    above [L] times the sum of the coefficients. *)
Lemma dot_lower (row x : list Q) (L : Q) :
  (forall j, j < length row -> (L <= row !!! j)%Q) ->
  (forall j, j < length row -> (0 <= x !!! j)%Q) ->
  (L * dot (replicate (length row) 1%Q) x <= dot row x)%Q.
Proof.
  revert x. induction row as [| r row IH]; intros x Hrow Hx.
  - cbn. lra.
  - destruct x as [| x0 x].
    + rewrite !dot_nil_r. lra.
    + cbn [length replicate]. rewrite !dot_cons.
      specialize (IH x (fun j Hj => Hrow (S j) ltac:(cbn; lia))
                    (fun j Hj => Hx (S j) ltac:(cbn; lia))).
      pose proof (Hrow 0 ltac:(cbn; lia)) as Hr. cbn in Hr.
      pose proof (Hx 0 ltac:(cbn; lia)) as Hx0. cbn in Hx0.
      assert (L * x0 <= r * x0)%Q by (apply Qmult_le_compat_r; assumption).
      lra.
Qed.

Lemma dot_upper (row x : list Q) (U : Q) :
  (forall j, j < length row -> (row !!! j <= U)%Q) ->
  (forall j, j < length row -> (0 <= x !!! j)%Q) ->
  (dot row x <= U * dot (replicate (length row) 1%Q) x)%Q.
Proof.
  revert x. induction row as [| r row IH]; intros x Hrow Hx.
  - cbn. lra.
  - destruct x as [| x0 x].
    + rewrite !dot_nil_r. lra.
    + cbn [length replicate]. rewrite !dot_cons.
      specialize (IH x (fun j Hj => Hrow (S j) ltac:(cbn; lia))
                    (fun j Hj => Hx (S j) ltac:(cbn; lia))).
      pose proof (Hrow 0 ltac:(cbn; lia)) as Hr. cbn in Hr.
      pose proof (Hx 0 ltac:(cbn; lia)) as Hx0. cbn in Hx0.
      assert (r * x0 <= U * x0)%Q by (apply Qmult_le_compat_r; assumption).
      lra.
Qed.

(** ** Containment *)

Section Containment.
Context {lib : Collaborators}.

Lemma buildSimplexMatrix_rows (index : nat) (m : Mesh) :
  index < getSimplicesNumber m ->
  buildSimplexMatrix index m
  = Ok (map (fun k =>
               map (fun j => at2 (vertices_ m) ((simplices_ m !!! index) !!! j) k)
                 (seq 0 (dimension_ m + 1)))
          (seq 0 (dimension_ m))
        ++ [replicate (dimension_ m + 1) 1%Q]).
Proof.
  intros Hlt. unfold buildSimplexMatrix.
  apply Nat.leb_gt in Hlt. now rewrite Hlt.
Qed.

Lemma same_store_buildSimplexMatrix (m m' : Mesh) (index : nat) :
  same_store m m' -> buildSimplexMatrix index m' = buildSimplexMatrix index m.
Proof.
  intros (Hd & Hv & Hs & _).
  unfold buildSimplexMatrix, getSimplicesNumber. now rewrite Hd, Hv, Hs.
Qed.

Lemma same_store_barycentric (m m' : Mesh) (point : Point) (index : nat) :
  same_store m m' -> barycentric point index m' = barycentric point index m.
Proof.
  intros Hs. unfold barycentric.
  now rewrite (same_store_buildSimplexMatrix m m' index Hs).
Qed.

Lemma coordinatesInUnitInterval_true (n : nat) (coordinates : Point) :
  coordinatesInUnitInterval n coordinates = true
  <-> forall j, j < n -> in_unit_interval (coordinates !!! j).
Proof.
  unfold coordinatesInUnitInterval, in_unit_interval.
  rewrite negb_true_iff. split.
  - intros Hnone j Hj.
    assert (Hj' : (Qltb (coordinates !!! j) 0
                   || Qltb 1 (coordinates !!! j)) = false).
    { destruct (_ || _) eqn:E; [| reflexivity].
      rewrite <- Hnone. symmetry. apply existsb_exists.
      exists j. split; [apply in_seq; lia | exact E]. }
    apply orb_false_iff in Hj' as [H0 H1].
    apply Qltb_ge in H0, H1. now split.
  - intros Hall. destruct (existsb _ _) eqn:E; [| reflexivity].
    apply existsb_exists in E as (j & Hj & Hout).
    apply in_seq in Hj. destruct (Hall j) as [H0 H1]; [lia |].
    apply orb_true_iff in Hout as [Hout | Hout]; apply Qltb_lt in Hout; lra.
Qed.

(** Convexity: a point whose barycentric coordinates in a simplex are in
    [[0, 1]] has each coordinate between any two bounds of that coordinate
    of the vertices of the simplex. *)
Lemma barycentric_point_bounds (point : Point) (index : nat) (m : Mesh)
    (k : nat) (L U : Q) :
  index < getSimplicesNumber m ->
  length point = dimension_ m ->
  solver_exact_on point m ->
  barycentric_in_simplex point index m ->
  k < dimension_ m ->
  (forall j, j <= dimension_ m ->
             (L <= at2 (vertices_ m) ((simplices_ m !!! index) !!! j) k)%Q
             /\ (at2 (vertices_ m) ((simplices_ m !!! index) !!! j) k <= U)%Q) ->
  (L <= point !!! k)%Q /\ (point !!! k <= U)%Q.
Proof.
  intros Hindex Hlen Hexact Hbary Hk Hbounds.
  pose proof (buildSimplexMatrix_rows index m Hindex) as Hmatrix.
  specialize (Hexact index _ Hmatrix).
  unfold barycentric_in_simplex, barycentric in Hbary.
  rewrite Hmatrix in Hbary.
  set (x := solveLinearSystem _ _) in *.
  set (rowOf := fun k => map (fun j => at2 (vertices_ m)
                                         ((simplices_ m !!! index) !!! j) k)
                           (seq 0 (dimension_ m + 1))) in *.
  unfold solves in Hexact.
  apply Forall2_app_inv in Hexact as [Hrows Hones];
    [| now rewrite length_map, length_seq].
  (* the last row: the coordinates add up to one *)
  apply Forall2_cons_1 in Hones as [Hone _].
  (* row [k]: the combination of the vertices is the point *)
  assert (Hrow : (dot (rowOf k) x == point !!! k)%Q).
  { eapply (Forall2_lookup_lr _ _ _ k) in Hrows; [exact Hrows | |].
    - rewrite list_lookup_fmap, lookup_seq_lt by exact Hk. reflexivity.
    - apply list_lookup_lookup_total_lt. lia. }
  assert (Hlenrow : length (rowOf k) = dimension_ m + 1)
    by (unfold rowOf; now rewrite length_map, length_seq).
  assert (Hentry : forall j, j < length (rowOf k) ->
             rowOf k !!! j
             = at2 (vertices_ m) ((simplices_ m !!! index) !!! j) k).
  { intros j Hj. rewrite Hlenrow in Hj. unfold rowOf.
    rewrite list_lookup_total_alt, list_lookup_fmap,
      lookup_seq_lt by exact Hj.
    reflexivity. }
  assert (Hpos : forall j, j < length (rowOf k) -> (0 <= x !!! j)%Q).
  { intros j Hj. rewrite Hlenrow in Hj. apply Hbary. lia. }
  pose proof (dot_lower (rowOf k) x L) as Hlow.
  pose proof (dot_upper (rowOf k) x U) as Hup.
  rewrite Hlenrow in Hlow, Hup. rewrite Hone, Hrow in Hlow, Hup.
  split.
  - enough (L * 1 <= point !!! k)%Q by lra.
    apply Hlow; [| rewrite <- Hlenrow; exact Hpos].
    intros j Hj. rewrite Hentry by lia. apply Hbounds. lia.
  - enough (point !!! k <= U * 1)%Q by lra.
    apply Hup; [| rewrite <- Hlenrow; exact Hpos].
    intros j Hj. rewrite Hentry by lia. apply Hbounds. lia.
Qed.
Lemma same_store_solver_exact_on (m m' : Mesh) (point : Point) :
  same_store m m' -> solver_exact_on point m -> solver_exact_on point m'.
Proof.
  intros Hs Hexact index matrix Hmatrix. apply (Hexact index).
  now rewrite <- (same_store_buildSimplexMatrix m m' index Hs).
Qed.

Lemma anyInSimplex_spec (point : Point) (candidates : Indices) (m : Mesh) :
  Forall (fun s => s < getSimplicesNumber m) candidates ->
  exists found,
    anyInSimplex point candidates m = Ok found
    /\ (found = true
        <-> exists s, s ∈ candidates
                      /\ checkPointInSimplex point s m = Ok true).
Proof.
  induction 1 as [| s candidates Hs _ IH]; cbn [anyInSimplex].
  - exists false. split; [reflexivity |]. split; [discriminate |].
    intros (s & Hin & _). now apply elem_of_nil in Hin.
  - rewrite (checkPointInSimplex_Ok point s m Hs). cbn [Result_bind].
    pose proof (checkPointInSimplex_Ok point s m Hs) as Hcheck.
    destruct (negb (outsideBoundingBox point s m) && _) eqn:E.
    + exists true. split; [reflexivity |]. split; [| reflexivity].
      intros _. exists s. split; [left | exact Hcheck].
    + destruct IH as (found & -> & Hfound).
      exists found. split; [reflexivity |]. rewrite Hfound. split.
      * intros (s' & Hin & Hs'). exists s'. split; [now right | exact Hs'].
      * intros (s' & Hin & Hs'). apply elem_of_cons in Hin as [-> | Hin].
        -- rewrite Hcheck in Hs'. discriminate.
        -- eauto.
Qed.

(** With boxes that are absent or enclose the vertices, the test of a
    simplex is the test of the barycentric coordinates. *)
Lemma checkPointInSimplex_iff (point : Point) (index : nat) (m : Mesh) :
  index < getSimplicesNumber m ->
  length (simplices_ m !!! index) = dimension_ m + 1 ->
  length point = dimension_ m ->
  solver_exact_on point m ->
  lowerBoundingBoxSimplices_ m = [] \/ boxes_enclose m ->
  checkPointInSimplex point index m = Ok true
  <-> barycentric_in_simplex point index m.
Proof.
  intros Hindex Hsize Hlen Hexact Hboxes.
  rewrite (checkPointInSimplex_Ok point index m Hindex).
  unfold barycentric_in_simplex. split.
  - intros [= H]. apply andb_true_iff in H as [_ H].
    rewrite coordinatesInUnitInterval_true in H.
    intros j Hj. apply H. lia.
  - intros Hbary. do 2 f_equal. apply andb_true_iff. split.
    + apply negb_true_iff. unfold outsideBoundingBox.
      destruct Hboxes as [-> | Henclose]; [reflexivity |].
      apply andb_false_iff. right.
      destruct (existsb _ _) eqn:E; [| reflexivity].
      apply existsb_exists in E as (k & Hk & Hout).
      apply in_seq in Hk.
      destruct (barycentric_point_bounds point index m k
                  (at2 (lowerBoundingBoxSimplices_ m) index k)
                  (at2 (upperBoundingBoxSimplices_ m) index k))
        as [Hl Hu]; try assumption; try lia.
      { intros j Hj. apply Henclose; lia. }
      apply orb_true_iff in Hout as [Hout | Hout]; apply Qltb_lt in Hout; lra.
    + apply coordinatesInUnitInterval_true. intros j Hj. apply Hbary. lia.
Qed.

(** A point held by a simplex of a valid mesh is in the bounding box of the
    domain. *)
Lemma barycentric_in_domain_box (point : Point) (index : nat) (m : Mesh)
    (lower upper : Point) :
  isValid m = true -> rectangular m ->
  length point = dimension_ m ->
  solver_exact_on point m ->
  index < getSimplicesNumber m ->
  barycentric_in_simplex point index m ->
  Forall (fun v => forall k, k < dimension_ m ->
                             (lower !!! k <= v !!! k)%Q) (vertices_ m) ->
  Forall (fun v => forall k, k < dimension_ m ->
                             (v !!! k <= upper !!! k)%Q) (vertices_ m) ->
  forall k, k < dimension_ m ->
            (lower !!! k <= point !!! k)%Q /\ (point !!! k <= upper !!! k)%Q.
Proof.
  intros Hvalid Hrect Hlen Hexact Hindex Hbary Hlower Hupper k Hk.
  apply (barycentric_point_bounds point index m k); try assumption.
  intros j Hj.
  pose proof (isValid_simplices m Hvalid) as Hsimplices.
  rewrite Forall_forall in Hsimplices. rewrite Forall_forall in Hlower.
  rewrite Forall_forall in Hupper.
  destruct (Hsimplices (simplices_ m !!! index)) as [Hsize Hknown].
  { now apply list_elem_of_lookup_total_2. }
  rewrite Forall_forall in Hknown.
  assert (Hvertex : vertices_ m !!! ((simplices_ m !!! index) !!! j)
                    ∈ vertices_ m).
  { apply list_elem_of_lookup_total_2. apply Hknown.
    apply list_elem_of_lookup_total_2. lia. }
  unfold at2. split; [now apply Hlower | now apply Hupper].
Qed.

(** X8: On a valid mesh whose caches are unset or up to date, and with a linear
    solver that solves the simplex systems, [contains] answers [true]
    exactly when the barycentric coordinates of the point in some simplex
    all lie in [[0, 1]]: neither the box of the domain, nor the boxes of the
    simplices, nor the order of the two scans changes the answer. *)
Theorem contains_iff_barycentric (m : Mesh) (point : Point) :
  isValid m = true ->
  vertices_ m <> [] ->
  rectangular m ->
  length point = getDimension m ->
  incidence_coherent m ->
  boxes_coherent m ->
  solver_exact_on point m ->
  exists inside,
    fst (contains point m) = Ok inside
    /\ (inside = true
        <-> exists index,
              index < getSimplicesNumber m
              /\ barycentric_in_simplex point index m).
Proof.
  intros Hvalid Hne Hrect Hlen Hinc Hboxes Hexact.
  unfold getDimension in Hlen.
  destruct (Sample_getMin_spec (vertices_ m) (dimension_ m) Hne Hrect)
    as (lower & Hlower & Hlowerlen & Hlowerall).
  destruct (Sample_getMax_spec (vertices_ m) (dimension_ m) Hne Hrect)
    as (upper & Hupper & Hupperlen & Hupperall).
  destruct (Interval_contains_Ok lower upper point) as [inBox HinBox];
    [congruence |].
  destruct (getNearestVertexIndex_Ok point m Hrect Hlen)
    as [nearestIndex Hnearest].
  (* the mesh after the refresh of the incidence map *)
  destruct (getVerticesToSimplicesMap_spec m) as (_ & Hstore & Hsame & _).
  pose proof (getVerticesToSimplicesMap_coherent m Hinc) as Hinc'.
  set (m' := snd (getVerticesToSimplicesMap m)) in *.
  assert (Hboxes' : lowerBoundingBoxSimplices_ m' = [] \/ boxes_enclose m').
  { destruct (verticesToSimplices_ m) as [| l ls] eqn:E.
    - right. now apply getVerticesToSimplicesMap_boxes.
    - rewrite Hsame by discriminate.
      destruct Hboxes as [Hnil | Hboxes]; [congruence | exact Hboxes]. }
  pose proof (same_store_solver_exact_on m m' point Hstore Hexact) as Hexact'.
  destruct Hstore as (Hd & Hv & Hs & Hrest).
  assert (Hstore : same_store m m') by (repeat split; assumption || apply Hrest).
  assert (HnS : getSimplicesNumber m' = getSimplicesNumber m)
    by (unfold getSimplicesNumber; now rewrite Hs).
  (* the test of a simplex, on the refreshed mesh *)
  assert (Htest : forall index,
             index < getSimplicesNumber m ->
             checkPointInSimplex point index m' = Ok true
             <-> barycentric_in_simplex point index m).
  { intros index Hindex.
    rewrite (checkPointInSimplex_iff point index m'); try assumption;
      try congruence.
    - unfold barycentric_in_simplex.
      rewrite (same_store_barycentric m m' point index Hstore), Hd.
      reflexivity.
    - rewrite Hs, Hd.
      pose proof (isValid_simplices m Hvalid) as Hsimplices.
      rewrite Forall_forall in Hsimplices.
      apply Hsimplices. now apply list_elem_of_lookup_total_2. }
  destruct (anyInSimplex_spec point (verticesToSimplices_ m' !!! nearestIndex) m')
    as (found1 & Hfound1 & Hiff1);
    [now apply candidates_below |].
  destruct (anyInSimplex_spec point (seq 0 (getSimplicesNumber m')) m')
    as (found2 & Hfound2 & Hiff2).
  { apply Forall_forall. intros s Hs'. apply elem_of_seq in Hs'. lia. }
  unfold contains, bind, query, gets, ret, getLowerBound, getUpperBound.
  rewrite Hlower, Hupper, HinBox.
  destruct inBox; cbn [negb].
  - rewrite Hnearest, refreshVerticesToSimplicesMap_spec. fold m'.
    rewrite Hfound1.
    destruct found1.
    + exists true. split; [reflexivity |]. split; [| reflexivity].
      intros _. destruct (proj1 Hiff1 eq_refl) as (s & Hin & Hcheck).
      assert (Hlt : s < getSimplicesNumber m).
      { pose proof (candidates_below m' nearestIndex Hinc') as Hbelow.
        rewrite Forall_forall in Hbelow. specialize (Hbelow s Hin). lia. }
      exists s. split; [exact Hlt |]. now apply Htest.
    + rewrite Hfound2. exists found2. split; [reflexivity |].
      rewrite Hiff2. split.
      * intros (s & Hin & Hcheck). apply elem_of_seq in Hin.
        exists s. split; [lia |]. apply Htest; [lia | exact Hcheck].
      * intros (index & Hindex & Hbary). exists index.
        split; [apply elem_of_seq; lia | now apply Htest].
  - exists false. split; [reflexivity |]. split; [discriminate |].
    intros (index & Hindex & Hbary). exfalso.
    rewrite Interval_contains_inside in HinBox; [discriminate | congruence |].
    rewrite Hlowerlen.
    now apply (barycentric_in_domain_box point index m lower upper).
Qed.
End Containment.

Lemma contains_iff_barycentric_witness :
  exists inside,
    fst (contains (lib := Exact.collaborators) [1 # 4; 1 # 4]%Q Exact.triangle)
    = Ok inside
    /\ (inside = true
        <-> exists index,
              index < getSimplicesNumber Exact.triangle
              /\ barycentric_in_simplex (lib := Exact.collaborators)
                   [1 # 4; 1 # 4]%Q index Exact.triangle).
Proof.
  apply (contains_iff_barycentric (lib := Exact.collaborators)
           Exact.triangle [1 # 4; 1 # 4]%Q).
  - reflexivity.
  - discriminate.
  - repeat constructor.
  - reflexivity.
  - now left.
  - now left.
  - intros [| index] matrix Hmatrix; [| discriminate Hmatrix].
    injection Hmatrix as <-. repeat constructor.
Defined.

(** C1 at work: [contains] builds the boxes of the unit segment; the second
    vertex is then moved to 3 by [setVertex], which keeps the boxes; the
    point 2 has barycentric coordinates 1/3 and 2/3 in the segment from 0 to
    3, and [contains] rejects it on the box of the old segment, where a mesh
    built afresh from the same vertices and simplices holds it. *)
Theorem contains_misses_after_setVertex :
  let m1 := snd (contains (lib := Exact.collaborators) [1 # 2]%Q
                   Exact.segment) in
  let m2 := setVertex 1 [3%Q] m1 in
  reachable (lib := Exact.collaborators) m2
  /\ isValid m2 = true
  /\ vertices_ m2 = [[0%Q]; [3%Q]]
  /\ upperBoundingBoxSimplices_ m2 = [[1%Q]]
  /\ barycentric (lib := Exact.collaborators) [2%Q] 0 m2 = [1 # 3; 2 # 3]%Q
  /\ barycentric_in_simplex (lib := Exact.collaborators) [2%Q] 0 m2
  /\ fst (contains (lib := Exact.collaborators) [2%Q] m2) = Ok false
  /\ fst (contains (lib := Exact.collaborators) [2%Q]
            (Mesh_of (vertices_ m2) (simplices_ m2)))
     = Ok true.
Proof.
  split.
  - apply reachable_setVertex; [apply reachable_contains, reachable_of |].
    vm_compute. lia.
  - split; [reflexivity |]. split; [reflexivity |]. split; [reflexivity |].
    split; [reflexivity |]. split; [| vm_compute; split; reflexivity].
    intros [| [| j]] Hj; [split; vm_compute; discriminate .. |].
    vm_compute in Hj. lia.
Qed.

(** C8 at work, on the same mesh: [contains] builds the boxes of the unit
    segment and [setVertex] moves the second vertex to 3, keeping the boxes.
    The vertex nearest to the point 2 is the second one, the segment is
    incident to it, and the point has barycentric coordinates 1/3 and 2/3 in
    the segment from 0 to 3, so the segment contains the point.  The
    localisation rejects the segment on the box of the old segment and
    answers with the nearest vertex alone and no coordinates, where a mesh
    built afresh from the same vertices and simplices answers with the
    vertex, the segment and the coordinates. *)
Theorem localisation_misses_after_setVertex :
  let m1 := snd (contains (lib := Exact.collaborators) [1 # 2]%Q
                   Exact.segment) in
  let m2 := setVertex 1 [3%Q] m1 in
  reachable (lib := Exact.collaborators) m2
  /\ isValid m2 = true
  /\ rectangular m2
  /\ vertices_ m2 = [[0%Q]; [3%Q]]
  /\ simplices_ m2 = [[0; 1]]
  /\ upperBoundingBoxSimplices_ m2 = [[1%Q]]
  /\ getNearestVertexIndex (lib := Exact.collaborators) [2%Q] m2 = Ok 1
  /\ 1 ∈ simplices_ m2 !!! 0
  /\ barycentric (lib := Exact.collaborators) [2%Q] 0 m2 = [1 # 3; 2 # 3]%Q
  /\ barycentric_in_simplex (lib := Exact.collaborators) [2%Q] 0 m2
  /\ fst (getNearestVertexAndSimplexIndicesWithCoordinates
            (lib := Exact.collaborators) [2%Q] m2)
     = Ok ([1], [])
  /\ fst (getNearestVertexAndSimplexIndicesWithCoordinates
            (lib := Exact.collaborators) [2%Q]
            (Mesh_of (vertices_ m2) (simplices_ m2)))
     = Ok ([1; 0], [1 # 3; 2 # 3]%Q).
Proof.
  split.
  - apply reachable_setVertex; [apply reachable_contains, reachable_of |].
    vm_compute. lia.
  - split; [reflexivity |]. split; [repeat constructor |].
    split; [reflexivity |]. split; [reflexivity |]. split; [reflexivity |].
    split; [reflexivity |]. split; [vm_compute; right; left |].
    split; [reflexivity |]. split; [| vm_compute; split; reflexivity].
    intros [| [| j]] Hj; [split; vm_compute; discriminate .. |].
    vm_compute in Hj. lia.
Qed.

(** * Further properties *)

(** ** What the incidence map holds *)

Lemma addIncidence_length (i : nat) (incidence : IndicesCollection)
    (index : nat) :
  length (addIncidence i incidence index) = length incidence.
Proof. apply length_alter. Qed.

Lemma incidence_pass_length (i : nat) (simplex : Indices)
    (incidence : IndicesCollection) :
  length (fold_left (addIncidence i) simplex incidence) = length incidence.
Proof.
  revert incidence. induction simplex as [| index simplex IH]; intros inc; cbn.
  - reflexivity.
  - now rewrite IH, addIncidence_length.
Qed.

Lemma incidenceLoop_length (rest : IndicesCollection) (i : nat)
    (incidence : IndicesCollection) :
  length (incidenceLoop i rest incidence) = length incidence.
Proof.
  revert i incidence.
  induction rest as [| simplex rest IH]; intros i inc; cbn.
  - reflexivity.
  - change (length (incidenceLoop (S i) rest
                      (fold_left (addIncidence i) simplex inc)) = length inc).
    now rewrite IH, incidence_pass_length.
Qed.

Lemma addIncidence_elem (i : nat) (incidence : IndicesCollection)
    (index v x : nat) :
  v < length incidence ->
  x ∈ addIncidence i incidence index !!! v
  <-> x ∈ incidence !!! v \/ (x = i /\ v = index).
Proof.
  intros Hv. unfold addIncidence. rewrite list_lookup_total_alter.
  case_decide as Hd.
  - destruct Hd as [-> _]. rewrite elem_of_app, list_elem_of_singleton.
    tauto.
  - split; [tauto |]. intros [H | [_ ->]]; [exact H |].
    exfalso. apply Hd. now split.
Qed.

Lemma incidence_pass_elem (i : nat) (simplex : Indices)
    (incidence : IndicesCollection) (v x : nat) :
  v < length incidence ->
  x ∈ fold_left (addIncidence i) simplex incidence !!! v
  <-> x ∈ incidence !!! v \/ (x = i /\ v ∈ simplex).
Proof.
  revert incidence.
  induction simplex as [| index simplex IH]; intros inc Hv; cbn [fold_left].
  - rewrite elem_of_nil. tauto.
  - rewrite IH by now rewrite addIncidence_length.
    rewrite addIncidence_elem by exact Hv.
    rewrite (elem_of_cons simplex). tauto.
Qed.

Lemma incidenceLoop_elem (rest : IndicesCollection) (i : nat)
    (incidence : IndicesCollection) (v x : nat) :
  v < length incidence ->
  x ∈ incidenceLoop i rest incidence !!! v
  <-> x ∈ incidence !!! v
      \/ exists t, t < length rest /\ x = i + t /\ v ∈ rest !!! t.
Proof.
  revert i incidence.
  induction rest as [| simplex rest IH]; intros i inc Hv.
  - cbn. split; [tauto |]. intros [H | (t & Ht & _)]; [exact H | lia].
  - change (incidenceLoop i (simplex :: rest) inc)
      with (incidenceLoop (S i) rest (fold_left (addIncidence i) simplex inc)).
    rewrite IH by now rewrite incidence_pass_length.
    rewrite incidence_pass_elem by exact Hv.
    split.
    + intros [[H | [-> H]] | (t & Ht & -> & H)].
      * now left.
      * right. exists 0. cbn. repeat split; [lia | lia | exact H].
      * right. exists (S t). cbn. repeat split; [lia | lia | exact H].
    + intros [H | ([| t] & Ht & -> & H)].
      * left. now left.
      * left. right. split; [lia | exact H].
      * right. exists t. cbn in Ht, H. repeat split; [lia | lia | exact H].
Qed.

Section IncidenceMap.
Context {lib : Collaborators}.

(** X2: The incidence map that [getVerticesToSimplicesMap] gives has one list
    per vertex, and the list of vertex [v] holds simplex [i] exactly when
    simplex [i] names [v]. *)
Theorem incidence_map_lists_owners (m : Mesh) :
  reachable m ->
  exists incidence,
    fst (getVerticesToSimplicesMap m) = Ok incidence
    /\ length incidence = getVerticesNumber m
    /\ forall v i,
         v < getVerticesNumber m ->
         (i ∈ incidence !!! v
          <-> i < getSimplicesNumber m /\ v ∈ simplices_ m !!! i).
Proof.
  intros Hm.
  destruct (getVerticesToSimplicesMap_spec m) as (Hfst & _).
  pose proof (getVerticesToSimplicesMap_fresh m
                (reachable_incidence_coherent m Hm)) as Hfresh.
  exists (verticesToSimplices_ (snd (getVerticesToSimplicesMap m))).
  split; [exact Hfst |]. rewrite Hfresh.
  split; [now rewrite incidenceLoop_length, length_replicate |].
  intros v i Hv.
  rewrite incidenceLoop_elem by now rewrite length_replicate.
  rewrite lookup_total_replicate_2 by exact Hv.
  rewrite elem_of_nil. unfold getSimplicesNumber. cbn.
  split.
  - intros [[] | (t & Ht & -> & H)]. now split.
  - intros [Hi H]. right. now exists i.
Qed.

(** X3: Whatever a program did to a mesh, an incidence map that the mesh holds
    is the one that a mesh built afresh from the same vertices and simplices
    computes. *)
Theorem incidence_cache_never_stale (m : Mesh) :
  reachable m ->
  verticesToSimplices_ m <> [] ->
  fst (getVerticesToSimplicesMap (Mesh_of (vertices_ m) (simplices_ m)))
  = Ok (verticesToSimplices_ m).
Proof.
  intros Hm Hne.
  destruct (getVerticesToSimplicesMap_spec
              (Mesh_of (vertices_ m) (simplices_ m))) as (-> & _ & _ & Hnil).
  rewrite Hnil by reflexivity.
  destruct (reachable_incidence_coherent m Hm) as [H | H];
    [contradiction |].
  rewrite H. reflexivity.
Qed.

(** X4: On a mesh with a vertex, the second of two calls in a row finds the map
    that the first one left: it gives the same map and leaves the mesh as it
    is. *)
Theorem getVerticesToSimplicesMap_twice (m : Mesh) :
  vertices_ m <> [] ->
  let m' := snd (getVerticesToSimplicesMap m) in
  getVerticesToSimplicesMap m' = (fst (getVerticesToSimplicesMap m), m').
Proof.
  intros Hne m'.
  destruct (getVerticesToSimplicesMap_spec m) as (Hfst & Hs & Hkeep & Hnil).
  fold m' in Hfst, Hs, Hkeep, Hnil.
  assert (Hlen : 0 < length (verticesToSimplices_ m')).
  { destruct (verticesToSimplices_ m) as [| l ls] eqn:E.
    - rewrite Hnil by reflexivity.
      rewrite incidenceLoop_length, length_replicate.
      unfold getVerticesNumber. destruct (vertices_ m); [congruence | cbn; lia].
    - rewrite Hkeep by discriminate. rewrite E. cbn. lia. }
  rewrite Hfst. unfold getVerticesToSimplicesMap at 1.
  apply Nat.ltb_lt in Hlen. rewrite Hlen. reflexivity.
Qed.

End IncidenceMap.

(** ** Localisation of a point with caches that are up to date *)

Section LocalisationGeometry.
Context {lib : Collaborators}.

(** The candidates are tested in order: either a first one holds the point,
    or none does. *)
Lemma candidates_first_hit (point : Point) (m : Mesh) (candidates : Indices) :
  Forall (fun s => s < getSimplicesNumber m) candidates ->
  (exists before simplexIndex after,
      candidates = before ++ simplexIndex :: after
      /\ Forall (fun s => checkPointInSimplex point s m = Ok false) before
      /\ checkPointInSimplex point simplexIndex m = Ok true)
  \/ Forall (fun s => checkPointInSimplex point s m = Ok false) candidates.
Proof.
  induction 1 as [| s candidates Hs _ IH].
  - right. constructor.
  - pose proof (checkPointInSimplex_Ok point s m Hs) as Hcheck.
    destruct (negb (outsideBoundingBox point s m) && _).
    + left. exists [], s, candidates. repeat split; [constructor | exact Hcheck].
    + destruct IH as [(before & simplexIndex & after & -> & Hbefore & Hhit)
                     | Hnone].
      * left. exists (s :: before), simplexIndex, after.
        repeat split; [now constructor | exact Hhit].
      * right. now constructor.
Qed.

Lemma increasing_app_r (l1 l2 : Indices) :
  StronglySorted le (l1 ++ l2) -> StronglySorted le l2.
Proof.
  induction l1 as [| x l1 IH]; cbn; intros H; [exact H |].
  apply IH. now apply StronglySorted_inv in H as [H _].
Qed.

(** The simplices in the incidence list of a vertex are those that name
    the vertex, in increasing order; on a valid mesh this also holds of an
    index that is no vertex, which no simplex names. *)
Lemma incidence_list_incident (m : Mesh) (v : nat) :
  isValid m = true ->
  let candidates :=
    incidenceLoop 0 (simplices_ m) (replicate (getVerticesNumber m) [])
    !!! v in
  increasing candidates
  /\ forall s, s ∈ candidates
               <-> s < getSimplicesNumber m /\ v ∈ simplices_ m !!! s.
Proof.
  intros Hvalid candidates.
  pose proof (incidenceLoop_increasing (simplices_ m) (getVerticesNumber m))
    as Hsorted.
  assert (Hlen : length (incidenceLoop 0 (simplices_ m)
                           (replicate (getVerticesNumber m) []))
                 = getVerticesNumber m)
    by now rewrite incidenceLoop_length, length_replicate.
  destruct (le_lt_dec (getVerticesNumber m) v) as [Hv | Hv].
  - assert (candidates = []) as ->.
    { unfold candidates. rewrite list_lookup_total_alt.
      rewrite lookup_ge_None_2 by lia. reflexivity. }
    split; [constructor |].
    intros s. rewrite elem_of_nil. split; [tauto |]. intros [Hs Hin].
    pose proof (isValid_simplices m Hvalid) as Hsimplices.
    rewrite Forall_forall in Hsimplices.
    destruct (Hsimplices (simplices_ m !!! s)) as [_ Hknown];
      [now apply list_elem_of_lookup_total_2 |].
    rewrite Forall_forall in Hknown. specialize (Hknown v Hin). lia.
  - split.
    + unfold lists_below in Hsorted. rewrite Forall_forall in Hsorted.
      apply Hsorted. apply list_elem_of_lookup_total_2. lia.
    + intros s. unfold candidates.
      rewrite incidenceLoop_elem by now rewrite length_replicate.
      rewrite lookup_total_replicate_2 by exact Hv.
      rewrite elem_of_nil. unfold getSimplicesNumber. cbn. split.
      * intros [[] | (t & Ht & -> & H)]. now split.
      * intros [Hs H]. right. now exists s.
Qed.

(** On a valid mesh whose caches are unset or up to date, and with a linear
    solver that solves the simplex systems, the localisation answers with
    the nearest vertex and the first simplex naming that vertex in which the
    barycentric coordinates of the point all lie in [[0, 1]], together with
    these coordinates; when no simplex naming the nearest vertex holds the
    point, it answers with the nearest vertex alone. *)
Lemma localisation_by_barycentric (m : Mesh) (point : Point) :
  isValid m = true ->
  rectangular m ->
  length point = getDimension m ->
  incidence_coherent m ->
  boxes_coherent m ->
  solver_exact_on point m ->
  exists nearestIndex,
    getNearestVertexIndex point m = Ok nearestIndex
    /\ let incident s :=
         s < getSimplicesNumber m /\ nearestIndex ∈ simplices_ m !!! s in
       (exists simplexIndex,
           fst (getNearestVertexAndSimplexIndicesWithCoordinates point m)
           = Ok ([nearestIndex; simplexIndex],
                 barycentric point simplexIndex m)
           /\ incident simplexIndex
           /\ barycentric_in_simplex point simplexIndex m
           /\ forall s, s < simplexIndex -> incident s ->
                        ~ barycentric_in_simplex point s m)
       \/ (fst (getNearestVertexAndSimplexIndicesWithCoordinates point m)
           = Ok ([nearestIndex], [])
           /\ forall s, incident s -> ~ barycentric_in_simplex point s m).
Proof.
  intros Hvalid Hrect Hlen Hinc Hboxes Hexact.
  destruct (getNearestVertexIndex_Ok point m Hrect Hlen)
    as [nearestIndex Hnearest].
  exists nearestIndex. split; [exact Hnearest |]. intros incident.
  rewrite (getNearestVertexAndSimplexIndicesWithCoordinates_unfold
             point m nearestIndex Hlen Hnearest). cbn zeta.
  pose proof (getVerticesToSimplicesMap_fresh m Hinc) as Hfresh.
  destruct (getVerticesToSimplicesMap_spec m) as (_ & Hstore & Hsame & _).
  pose proof (getVerticesToSimplicesMap_coherent m Hinc) as Hinc'.
  set (m' := snd (getVerticesToSimplicesMap m)) in *.
  assert (Hboxes' : lowerBoundingBoxSimplices_ m' = [] \/ boxes_enclose m').
  { destruct (verticesToSimplices_ m) as [| l ls] eqn:E.
    - right. now apply getVerticesToSimplicesMap_boxes.
    - rewrite Hsame by discriminate.
      destruct Hboxes as [Hnil | Hboxes]; [congruence | exact Hboxes]. }
  pose proof (same_store_solver_exact_on m m' point Hstore Hexact) as Hexact'.
  destruct Hstore as (Hd & Hv & Hs & Hrest).
  assert (Hstore : same_store m m') by (repeat split; assumption || apply Hrest).
  assert (HnS : getSimplicesNumber m' = getSimplicesNumber m)
    by (unfold getSimplicesNumber; now rewrite Hs).
  unfold getDimension in Hlen.
  assert (Htest : forall index,
             index < getSimplicesNumber m ->
             checkPointInSimplex point index m' = Ok true
             <-> barycentric_in_simplex point index m).
  { intros index Hindex.
    rewrite (checkPointInSimplex_iff point index m'); try assumption;
      try congruence.
    - unfold barycentric_in_simplex.
      rewrite (same_store_barycentric m m' point index Hstore), Hd.
      reflexivity.
    - rewrite Hs, Hd.
      pose proof (isValid_simplices m Hvalid) as Hsimplices.
      rewrite Forall_forall in Hsimplices.
      apply Hsimplices. now apply list_elem_of_lookup_total_2. }
  destruct (incidence_list_incident m nearestIndex Hvalid)
    as [Hsorted Hincident].
  rewrite <- Hfresh in Hsorted, Hincident. fold m' in Hsorted, Hincident.
  set (candidates := verticesToSimplices_ m' !!! nearestIndex) in *.
  assert (Hbelow : Forall (fun s => s < getSimplicesNumber m') candidates).
  { apply Forall_forall. intros s Hin. apply Hincident in Hin. lia. }
  destruct (candidates_first_hit point m' candidates Hbelow)
    as [(before & simplexIndex & after & Hsplit & Hbefore & Hhit) | Hnone].
  - left. exists simplexIndex.
    assert (Hin : incident simplexIndex).
    { apply Hincident. rewrite Hsplit.
      apply elem_of_app. right. left. }
    split; [| split; [exact Hin |]; split].
    + rewrite Hsplit.
      destruct (candidatesLoop_skip point m' before (simplexIndex :: after)
                  [nearestIndex] [] Hbefore) as [c' ->].
      cbn [candidatesLoop].
      rewrite (checkPointInSimplex_true point simplexIndex c' m' Hhit).
      cbn. now rewrite (same_store_barycentric m m' point simplexIndex Hstore).
    + apply Htest; [apply Hin | exact Hhit].
    + intros s Hlt Hs' Hbary.
      pose proof (proj2 (Hincident s) Hs') as Hmem. rewrite Hsplit in Hmem.
      apply elem_of_app in Hmem as [Hmem | Hmem].
      * rewrite Forall_forall in Hbefore. specialize (Hbefore s Hmem).
        apply Htest in Hbary; [| apply Hs']. congruence.
      * unfold increasing in Hsorted. rewrite Hsplit in Hsorted.
        apply increasing_app_r in Hsorted.
        apply StronglySorted_inv in Hsorted as [_ Hafter].
        apply elem_of_cons in Hmem as [-> | Hmem]; [lia |].
        rewrite Forall_forall in Hafter. specialize (Hafter s Hmem). lia.
  - right. split.
    + destruct (candidatesLoop_skip point m' candidates []
                  [nearestIndex] [] Hnone) as [c' Hloop].
      rewrite app_nil_r in Hloop. rewrite Hloop. reflexivity.
    + intros s Hs' Hbary.
      pose proof (proj2 (Hincident s) Hs') as Hmem.
      rewrite Forall_forall in Hnone. specialize (Hnone s Hmem).
      apply Htest in Hbary; [| apply Hs']. congruence.
Qed.

End LocalisationGeometry.

(** The hypotheses hold of the triangle built afresh and a point of the
    plane. *)
Example localisation_by_barycentric_triangle :
  exists nearestIndex,
    getNearestVertexIndex (lib := Exact.collaborators) [1 # 4; 1 # 4]%Q
      Exact.triangle
    = Ok nearestIndex
    /\ let incident s :=
         s < getSimplicesNumber Exact.triangle
         /\ nearestIndex ∈ simplices_ Exact.triangle !!! s in
       (exists simplexIndex,
           fst (getNearestVertexAndSimplexIndicesWithCoordinates
                  (lib := Exact.collaborators) [1 # 4; 1 # 4]%Q
                  Exact.triangle)
           = Ok ([nearestIndex; simplexIndex],
                 barycentric (lib := Exact.collaborators) [1 # 4; 1 # 4]%Q
                   simplexIndex Exact.triangle)
           /\ incident simplexIndex
           /\ barycentric_in_simplex (lib := Exact.collaborators)
                [1 # 4; 1 # 4]%Q simplexIndex Exact.triangle
           /\ forall s, s < simplexIndex -> incident s ->
                        ~ barycentric_in_simplex (lib := Exact.collaborators)
                            [1 # 4; 1 # 4]%Q s Exact.triangle)
       \/ (fst (getNearestVertexAndSimplexIndicesWithCoordinates
                  (lib := Exact.collaborators) [1 # 4; 1 # 4]%Q
                  Exact.triangle)
           = Ok ([nearestIndex], [])
           /\ forall s, incident s ->
                        ~ barycentric_in_simplex (lib := Exact.collaborators)
                            [1 # 4; 1 # 4]%Q s Exact.triangle).
Proof.
  apply (localisation_by_barycentric (lib := Exact.collaborators)
           Exact.triangle [1 # 4; 1 # 4]%Q).
  - reflexivity.
  - repeat constructor.
  - reflexivity.
  - now left.
  - now left.
  - intros [| index] matrix Hmatrix; [| discriminate Hmatrix].
    injection Hmatrix as <-. repeat constructor.
Qed.

Lemma incidence_map_lists_owners_witness :
  exists incidence,
    fst (getVerticesToSimplicesMap (lib := Exact.collaborators)
           Exact.triangle) = Ok incidence
    /\ length incidence = getVerticesNumber Exact.triangle
    /\ forall v i,
         v < getVerticesNumber Exact.triangle ->
         (i ∈ incidence !!! v
          <-> i < getSimplicesNumber Exact.triangle
              /\ v ∈ simplices_ Exact.triangle !!! i).
Proof.
  apply (incidence_map_lists_owners (lib := Exact.collaborators)
           Exact.triangle).
  apply reachable_of.
Defined.

Lemma incidence_cache_never_stale_witness :
  let m := setVertex 1 [3%Q]
             (snd (getVerticesToSimplicesMap (lib := Exact.collaborators)
                     Exact.segment)) in
  fst (getVerticesToSimplicesMap (lib := Exact.collaborators)
         (Mesh_of (vertices_ m) (simplices_ m)))
  = Ok (verticesToSimplices_ m).
Proof.
  apply (incidence_cache_never_stale (lib := Exact.collaborators)).
  - apply reachable_setVertex;
      [apply reachable_getVerticesToSimplicesMap, reachable_of |].
    vm_compute. lia.
  - vm_compute. discriminate.
Defined.

Lemma getVerticesToSimplicesMap_twice_witness :
  let m' := snd (getVerticesToSimplicesMap (lib := Exact.collaborators)
                   Exact.segment) in
  getVerticesToSimplicesMap (lib := Exact.collaborators) m'
  = (fst (getVerticesToSimplicesMap (lib := Exact.collaborators)
            Exact.segment), m').
Proof.
  apply (getVerticesToSimplicesMap_twice (lib := Exact.collaborators)
           Exact.segment).
  vm_compute. discriminate.
Defined.

(** ** The incidence lists, entry by entry *)

Lemma addIncidence_lookup (i : nat) (incidence : IndicesCollection)
    (index v : nat) :
  v < length incidence ->
  addIncidence i incidence index !!! v
  = incidence !!! v ++ (if decide (index = v) then [i] else []).
Proof.
  intros Hv. unfold addIncidence. rewrite list_lookup_total_alter.
  case_decide as Hd; case_decide as He; try subst index.
  - reflexivity.
  - destruct Hd; contradiction.
  - exfalso. apply Hd. now split.
  - now rewrite app_nil_r.
Qed.

Lemma incidence_pass_lookup (i : nat) (simplex : Indices)
    (incidence : IndicesCollection) (v : nat) :
  v < length incidence ->
  fold_left (addIncidence i) simplex incidence !!! v
  = incidence !!! v ++ replicate (count_occ Nat.eq_dec simplex v) i.
Proof.
  revert incidence.
  induction simplex as [| index simplex IH]; intros inc Hv;
    cbn [fold_left count_occ].
  - cbn. now rewrite app_nil_r.
  - rewrite IH by now rewrite addIncidence_length.
    rewrite addIncidence_lookup by exact Hv.
    rewrite <- app_assoc. f_equal.
    destruct (Nat.eq_dec index v) as [-> | Hne].
    + rewrite decide_True by reflexivity. reflexivity.
    + rewrite decide_False by exact Hne. reflexivity.
Qed.

Lemma flat_map_seq_shift {A} (f : nat -> list A) (start len : nat) :
  flat_map f (seq (S start) len) = flat_map (fun t => f (S t)) (seq start len).
Proof.
  revert start. induction len as [| len IH]; intros start; cbn.
  - reflexivity.
  - f_equal. apply IH.
Qed.

Lemma incidenceLoop_lookup (rest : IndicesCollection) (i : nat)
    (incidence : IndicesCollection) (v : nat) :
  v < length incidence ->
  incidenceLoop i rest incidence !!! v
  = incidence !!! v
    ++ flat_map
         (fun t => replicate (count_occ Nat.eq_dec (rest !!! t) v) (i + t))
         (seq 0 (length rest)).
Proof.
  revert i incidence.
  induction rest as [| simplex rest IH]; intros i inc Hv.
  - cbn. now rewrite app_nil_r.
  - change (incidenceLoop i (simplex :: rest) inc)
      with (incidenceLoop (S i) rest (fold_left (addIncidence i) simplex inc)).
    rewrite IH by now rewrite incidence_pass_length.
    rewrite incidence_pass_lookup by exact Hv.
    rewrite <- app_assoc. f_equal.
    cbn [length seq flat_map]. rewrite Nat.add_0_r. f_equal.
    rewrite flat_map_seq_shift.
    apply flat_map_ext. intros t. cbn. f_equal. lia.
Qed.

Section IncidenceLists.
Context {lib : Collaborators}.

(** X1: The incidence list of vertex [v] is the list of the simplices in
    increasing order, simplex [i] entered once for each time that it names
    [v]. *)
Theorem incidence_map_entries (m : Mesh) :
  reachable m ->
  exists incidence,
    fst (getVerticesToSimplicesMap m) = Ok incidence
    /\ length incidence = getVerticesNumber m
    /\ forall v, v < getVerticesNumber m ->
                 incidence !!! v = ownersOf (simplices_ m) v.
Proof.
  intros Hm.
  destruct (getVerticesToSimplicesMap_spec m) as (Hfst & _).
  pose proof (getVerticesToSimplicesMap_fresh m
                (reachable_incidence_coherent m Hm)) as Hfresh.
  exists (verticesToSimplices_ (snd (getVerticesToSimplicesMap m))).
  split; [exact Hfst |]. rewrite Hfresh.
  split; [now rewrite incidenceLoop_length, length_replicate |].
  intros v Hv.
  rewrite incidenceLoop_lookup by now rewrite length_replicate.
  rewrite lookup_total_replicate_2 by exact Hv.
  reflexivity.
Qed.

End IncidenceLists.

Lemma incidence_map_entries_witness :
  exists incidence,
    fst (getVerticesToSimplicesMap (lib := Exact.collaborators)
           Exact.triangle) = Ok incidence
    /\ length incidence = getVerticesNumber Exact.triangle
    /\ forall v, v < getVerticesNumber Exact.triangle ->
                 incidence !!! v = ownersOf (simplices_ Exact.triangle) v.
Proof.
  apply (incidence_map_entries (lib := Exact.collaborators) Exact.triangle).
  apply reachable_of.
Defined.

(** ** The boxes are the smallest ones *)

Lemma at2_set2_cases (sample : Sample) (i k i' k' : nat) (x : Q) :
  at2 (set2 sample i k x) i' k' = at2 sample i' k'
  \/ (i' = i /\ k' = k /\ at2 (set2 sample i k x) i' k' = x).
Proof.
  unfold at2, set2. rewrite list_lookup_total_alter.
  case_decide as Hi; [| now left].
  destruct Hi as [<- Hi]. rewrite list_lookup_total_insert.
  case_decide as Hk; [| now left].
  destruct Hk as [<- Hk]. right. now repeat split.
Qed.

Section TightBoxes.
Context {lib : Collaborators}.

Lemma box_attained_refl (m : Mesh) : box_attained m m.
Proof. intros i k. split; now left. Qed.

Lemma boundingBoxStep_attained (m0 : Mesh) (i index k : nat) (m : Mesh) :
  vertices_ m = vertices_ m0 ->
  index ∈ simplices_ m0 !!! i ->
  box_attained m0 m ->
  box_attained m0 (boundingBoxStep i index m k).
Proof.
  intros Hv Hindex Hm i' k'. destruct (Hm i' k') as [Hl Hu].
  unfold boundingBoxStep. rewrite Hv.
  set (x := at2 (vertices_ m0) index k).
  assert (Hl' : at2 (set2 (lowerBoundingBoxSimplices_ m) i k x) i' k'
                = at2 (lowerBoundingBoxSimplices_ m0) i' k'
                \/ exists index,
                     index ∈ simplices_ m0 !!! i'
                     /\ at2 (set2 (lowerBoundingBoxSimplices_ m) i k x) i' k'
                        = at2 (vertices_ m0) index k').
  { destruct (at2_set2_cases (lowerBoundingBoxSimplices_ m) i k i' k' x)
      as [-> | (-> & -> & ->)]; [exact Hl | right; now exists index]. }
  assert (Hu' : at2 (set2 (upperBoundingBoxSimplices_ m) i k x) i' k'
                = at2 (upperBoundingBoxSimplices_ m0) i' k'
                \/ exists index,
                     index ∈ simplices_ m0 !!! i'
                     /\ at2 (set2 (upperBoundingBoxSimplices_ m) i k x) i' k'
                        = at2 (vertices_ m0) index k').
  { destruct (at2_set2_cases (upperBoundingBoxSimplices_ m) i k i' k' x)
      as [-> | (-> & -> & ->)]; [exact Hu | right; now exists index]. }
  destruct (Qltb x (at2 (lowerBoundingBoxSimplices_ m) i k));
    cbn [upperBoundingBoxSimplices_ lowerBoundingBoxSimplices_
         set_lowerBoundingBoxSimplices_];
    destruct (Qltb (at2 (upperBoundingBoxSimplices_ m) i k) x);
    cbn [upperBoundingBoxSimplices_ lowerBoundingBoxSimplices_
         set_lowerBoundingBoxSimplices_ set_upperBoundingBoxSimplices_];
    split; assumption.
Qed.

Lemma boundingBox_fold_attained (m0 : Mesh) (i index : nat) (ks : list nat) :
  forall m : Mesh,
    vertices_ m = vertices_ m0 ->
    index ∈ simplices_ m0 !!! i ->
    box_attained m0 m ->
    box_attained m0 (fold_left (boundingBoxStep i index) ks m).
Proof.
  induction ks as [| k ks IH]; intros m Hv Hindex Hm; cbn [fold_left].
  - exact Hm.
  - apply IH; [| exact Hindex | now apply boundingBoxStep_attained].
    destruct (boundingBoxStep_frame i index k m) as [(_ & -> & _) _].
    exact Hv.
Qed.

Lemma simplexVertexStep_attained (m0 : Mesh) (i index : nat) (m : Mesh) :
  vertices_ m = vertices_ m0 ->
  index ∈ simplices_ m0 !!! i ->
  box_attained m0 m ->
  box_attained m0 (simplexVertexStep i m index).
Proof.
  intros Hv Hindex Hm. unfold simplexVertexStep.
  exact (boundingBox_fold_attained m0 i index _ m Hv Hindex Hm).
Qed.

Lemma simplexVertex_fold_attained (m0 : Mesh) (i : nat) (simplex : Indices) :
  forall m : Mesh,
    vertices_ m = vertices_ m0 ->
    Forall (fun index => index ∈ simplices_ m0 !!! i) simplex ->
    box_attained m0 m ->
    box_attained m0 (fold_left (simplexVertexStep i) simplex m).
Proof.
  induction simplex as [| index simplex IH]; intros m Hv Hall Hm;
    cbn [fold_left].
  - exact Hm.
  - apply Forall_cons in Hall as [Hindex Hall].
    apply IH; [| exact Hall | now apply simplexVertexStep_attained].
    destruct (simplexVertexStep_frame i index m) as [(_ & -> & _) _].
    exact Hv.
Qed.

Lemma simplicesLoop_attained (m0 : Mesh) (rest : IndicesCollection) :
  forall (i : nat) (m : Mesh),
    vertices_ m = vertices_ m0 ->
    (forall t simplex, rest !! t = Some simplex ->
                       simplices_ m0 !! (i + t) = Some simplex) ->
    box_attained m0 m ->
    box_attained m0 (simplicesLoop i rest m).
Proof.
  induction rest as [| simplex rest IH]; intros i m Hv Hrest Hm;
    cbn [simplicesLoop].
  - exact Hm.
  - apply IH.
    + destruct (simplexVertex_fold_frame i simplex m) as [(_ & -> & _) _].
      exact Hv.
    + intros t simplex' Ht.
      replace (S i + t) with (i + S t) by lia. now apply Hrest.
    + apply simplexVertex_fold_attained; [exact Hv | | exact Hm].
      specialize (Hrest 0 simplex eq_refl). rewrite Nat.add_0_r in Hrest.
      rewrite (list_lookup_total_correct _ _ _ Hrest).
      apply Forall_forall. now intros index Hindex.
Qed.

(** X6: Computed from unset caches, each bound of the box of a simplex is the
    coordinate of one of the vertices that the simplex names, as long as
    the simplex names a vertex and the scalars are within [MaxScalar]: with
    the enclosure, the box is the smallest one. *)
Theorem fresh_boxes_tight (m : Mesh) (i k : nat) :
  verticesToSimplices_ m = [] ->
  i < getSimplicesNumber m ->
  k < dimension_ m ->
  simplices_ m !!! i <> [] ->
  (forall index, index ∈ simplices_ m !!! i ->
                 (- MaxScalar <= at2 (vertices_ m) index k)%Q
                 /\ (at2 (vertices_ m) index k <= MaxScalar)%Q) ->
  let m' := snd (getVerticesToSimplicesMap m) in
  (exists index,
      index ∈ simplices_ m !!! i
      /\ (at2 (lowerBoundingBoxSimplices_ m') i k
          == at2 (vertices_ m) index k)%Q)
  /\ (exists index,
         index ∈ simplices_ m !!! i
         /\ (at2 (upperBoundingBoxSimplices_ m') i k
             == at2 (vertices_ m) index k)%Q).
Proof.
  intros Hnil Hi Hk Hne Hbound m'.
  pose proof (getVerticesToSimplicesMap_boxes m Hnil) as Henclose.
  fold m' in Henclose.
  destruct (getVerticesToSimplicesMap_spec m) as (_ & Hs & _).
  fold m' in Hs. destruct Hs as (Hd & Hv & Hss & _).
  assert (Hfirst : 0 < length (simplices_ m !!! i)).
  { destruct (simplices_ m !!! i); [contradiction | cbn; lia]. }
  assert (Hin0 : (simplices_ m !!! i) !!! 0 ∈ simplices_ m !!! i)
    by now apply list_elem_of_lookup_total_2.
  specialize (Henclose i 0 k).
  unfold getSimplicesNumber in Henclose. rewrite Hss, Hd, Hv in Henclose.
  specialize (Henclose Hi Hfirst Hk). destruct Henclose as [Hlo Hup].
  destruct (Hbound _ Hin0) as [Hb1 Hb2].
  (* the tables as they are when the loop starts *)
  set (m0 := set_upperBoundingBoxSimplices_
               (replicate (getSimplicesNumber m)
                  (replicate (dimension_ m) (- MaxScalar)%Q))
               (set_lowerBoundingBoxSimplices_
                  (replicate (getSimplicesNumber m)
                     (replicate (dimension_ m) MaxScalar))
                  (set_verticesToSimplices_
                     (replicate (getVerticesNumber m) []) m))).
  assert (Hm' : m' = simplicesLoop 0 (simplices_ m) m0).
  { unfold m', getVerticesToSimplicesMap. rewrite Hnil. reflexivity. }
  assert (Hatt : box_attained m0 m').
  { rewrite Hm'. apply simplicesLoop_attained;
      [reflexivity | | apply box_attained_refl].
    intros t simplex Ht. exact Ht. }
  destruct (Hatt i k) as [Hl Hu].
  change (simplices_ m0) with (simplices_ m) in Hl, Hu.
  change (vertices_ m0) with (vertices_ m) in Hl, Hu.
  assert (Hinit_lo : at2 (lowerBoundingBoxSimplices_ m0) i k = MaxScalar).
  { unfold at2, m0. cbn.
    rewrite !lookup_total_replicate_2 by assumption. reflexivity. }
  assert (Hinit_up : at2 (upperBoundingBoxSimplices_ m0) i k
                     = (- MaxScalar)%Q).
  { unfold at2, m0. cbn.
    rewrite !lookup_total_replicate_2 by assumption. reflexivity. }
  rewrite Hinit_lo in Hl. rewrite Hinit_up in Hu.
  split.
  - destruct Hl as [Hl | (index & Hindex & Hl)].
    + exists ((simplices_ m !!! i) !!! 0). split; [exact Hin0 |].
      rewrite Hl in Hlo |- *. lra.
    + exists index. split; [exact Hindex |]. now rewrite Hl.
  - destruct Hu as [Hu | (index & Hindex & Hu)].
    + exists ((simplices_ m !!! i) !!! 0). split; [exact Hin0 |].
      rewrite Hu in Hup |- *. lra.
    + exists index. split; [exact Hindex |]. now rewrite Hu.
Qed.

End TightBoxes.

Lemma fresh_boxes_tight_witness :
  let m' := snd (getVerticesToSimplicesMap (lib := Exact.collaborators)
                   Exact.triangle) in
  (exists index,
      index ∈ simplices_ Exact.triangle !!! 0
      /\ (at2 (lowerBoundingBoxSimplices_ m') 0 1
          == at2 (vertices_ Exact.triangle) index 1)%Q)
  /\ (exists index,
         index ∈ simplices_ Exact.triangle !!! 0
         /\ (at2 (upperBoundingBoxSimplices_ m') 0 1
             == at2 (vertices_ Exact.triangle) index 1)%Q).
Proof.
  apply (fresh_boxes_tight (lib := Exact.collaborators) Exact.triangle 0 1).
  - reflexivity.
  - vm_compute. lia.
  - vm_compute. lia.
  - vm_compute. discriminate.
  - intros index Hin. vm_compute in Hin.
    apply elem_of_cons in Hin as [-> | Hin];
      [split; vm_compute; discriminate |].
    apply elem_of_cons in Hin as [-> | Hin];
      [split; vm_compute; discriminate |].
    apply elem_of_cons in Hin as [-> | Hin];
      [split; vm_compute; discriminate |].
    now apply elem_of_nil in Hin.
Defined.

Section Queries.
Context {lib : Collaborators}.

(** ** What the queries leave alone *)

(** X7: The queries that refresh a cache change nothing else: dimension,
    vertices, simplices, spatial index and memoised volume are as before. *)
Theorem queries_touch_caches_only (m : Mesh) (point : Point) :
  same_store m (snd (getVerticesToSimplicesMap m))
  /\ same_store m (snd (contains point m))
  /\ same_store m
       (snd (getNearestVertexAndSimplexIndicesWithCoordinates point m))
  /\ same_store m (snd (computeWeights m)).
Proof.
  destruct (getVerticesToSimplicesMap_spec m) as (_ & Hs & _).
  split; [exact Hs |]. split; [| split].
  - destruct (contains_state point m) as [-> | ->];
      [apply same_store_refl | exact Hs].
  - destruct (getNearestVertexAndSimplexIndicesWithCoordinates_state point m)
      as [-> | ->]; [apply same_store_refl | exact Hs].
  - destruct (computeWeights_state m) as [-> | ->];
      [apply same_store_refl | exact Hs].
Qed.

(** ** Boxes of the simplices *)

(** X5: Computed from unset caches, the box tables have one row of [dimension_]
    bounds per simplex, and the box of each simplex encloses every vertex
    that the simplex names. *)
Theorem fresh_boxes_enclose (m : Mesh) :
  verticesToSimplices_ m = [] ->
  let m' := snd (getVerticesToSimplicesMap m) in
  box_shape m' /\ boxes_enclose m'.
Proof.
  intros Hnil m'. split; [| now apply getVerticesToSimplicesMap_boxes].
  subst m'. unfold getVerticesToSimplicesMap. rewrite Hnil. cbn.
  match goal with
  | |- box_shape (simplicesLoop 0 _ ?m0) => set (m0' := m0)
  end.
  destruct (simplicesLoop_boxes (simplices_ m) 0 m0') as (Hshape & _).
  - unfold box_shape, m0', getSimplicesNumber. cbn.
    rewrite !length_replicate. repeat split.
    + apply Forall_forall. intros row Hrow.
      apply elem_of_replicate in Hrow as [-> _]. apply length_replicate.
    + apply Forall_forall. intros row Hrow.
      apply elem_of_replicate in Hrow as [-> _]. apply length_replicate.
  - cbn. reflexivity.
  - exact Hshape.
Qed.

(** ** Volume *)

(** X9: Whatever way the range of the simplices is cut and the partial sums are
    merged, the reduction ends with the sum of the volumes of the simplices,
    and it never fails. *)
Theorem volume_reduction_any_partition (m : Mesh) (s : Schedule) :
  exists functor,
    runSchedule s 0 (getSimplicesNumber m) (VolumeFunctor_new m) = Ok functor
    /\ (accumulator_ functor
        == Qsum (map (simplexVolume m) (seq 0 (getSimplicesNumber m))))%Q.
Proof.
  destruct (runSchedule_volume s 0 (getSimplicesNumber m)
              (VolumeFunctor_new m)) as (g & Hg & _ & Hacc);
    [left; reflexivity |].
  exists g. split; [exact Hg |].
  rewrite Hacc, Nat.sub_0_r. cbn. lra.
Qed.

(** X10: The first [getVolume] on a mesh whose flag is down computes the sum of
    the volumes of the simplices, stores it and raises the flag; a second
    one gives the same scalar back and leaves the mesh as it is. *)
Theorem getVolume_computes_once (m : Mesh) :
  isAlreadyComputedVolume_ m = false ->
  exists v,
    getVolume m
    = (Ok v, set_volume_ v (set_isAlreadyComputedVolume_ true m))
    /\ (v == Qsum (map (simplexVolume m) (seq 0 (getSimplicesNumber m))))%Q
    /\ getVolume (set_volume_ v (set_isAlreadyComputedVolume_ true m))
       = (Ok v, set_volume_ v (set_isAlreadyComputedVolume_ true m)).
Proof.
  intros Hflag.
  destruct (computeVolume_spec m) as (v & Hv & Hsum).
  exists v. split; [| split; [exact Hsum |]].
  - unfold getVolume, bind, gets, modify, ret. rewrite Hflag. cbn -[computeVolume].
    rewrite Hv. reflexivity.
  - now rewrite getVolume_memoised.
Qed.

(** X11: [computeVolume] raises the flag and stores nothing: the [getVolume] that
    follows it gives the [volume_] field as it was before, whatever the
    simplices are. *)
Theorem getVolume_after_computeVolume (m : Mesh) :
  fst (getVolume (snd (computeVolume m))) = Ok (volume_ m).
Proof.
  destruct (computeVolume_spec m) as (v & -> & _). cbn [snd].
  now rewrite getVolume_memoised.
Qed.

(** X12: With an absolute determinant that is not negative, no simplex has a
    negative volume, and neither has the mesh. *)
Theorem volume_not_negative (m : Mesh) :
  (forall matrix, (0 <= computeAbsoluteDeterminant matrix)%Q) ->
  (forall index, (0 <= simplexVolume m index)%Q)
  /\ exists v, fst (computeVolume m) = Ok v /\ (0 <= v)%Q.
Proof.
  intros Hdet.
  assert (Hsimplex : forall index, (0 <= simplexVolume m index)%Q).
  { intros index. unfold simplexVolume, computeSimplexVolume.
    destruct (getSimplicesNumber m <=? index); [lra |].
    destruct (getDimension m =? 1); [apply Qabs_nonneg |].
    destruct (getDimension m =? 2).
    - match goal with |- (0 <= _ * Qabs ?x)%Q => pose proof (Qabs_nonneg x) end.
      lra.
    - destruct (buildSimplexMatrix index m) as [matrix |]; cbn; [| lra].
      apply Qle_shift_div_l.
      + change 0%Q with (inject_Z 0). rewrite <- Zlt_Qlt.
        pose proof (lt_O_fact (dimension_ m)). lia.
      + rewrite Qmult_0_l. apply Hdet. }
  split; [exact Hsimplex |].
  destruct (computeVolume_spec m) as (v & -> & Hsum).
  exists v. split; [reflexivity |]. rewrite Hsum.
  generalize (seq 0 (getSimplicesNumber m)). intros l.
  induction l as [| i l IH]; cbn [map].
  - rewrite Qsum_nil. lra.
  - rewrite Qsum_cons. specialize (Hsimplex i). lra.
Qed.

(** X13: In dimension 2 the volume of a simplex is half the absolute value of
    [a + b], where [a = (x2 - x0) (y1 - y0)] and [b = (x1 - x0) (y2 - y0)];
    half the absolute cross product of the two edges from the first vertex
    is half the absolute value of [b - a].  The two agree exactly when [a]
    or [b] is zero. *)
Theorem triangle_volume_and_cross_product (m : Mesh) (index : nat) :
  getDimension m = 2 ->
  index < getSimplicesNumber m ->
  let x (j : nat) := at2 (vertices_ m) ((simplices_ m !!! index) !!! j) 0 in
  let y (j : nat) := at2 (vertices_ m) ((simplices_ m !!! index) !!! j) 1 in
  (simplexVolume m index == halfCrossProduct m index)%Q
  <-> ((x 2%nat - x 0%nat) * (y 1%nat - y 0%nat)
       * ((x 1%nat - x 0%nat) * (y 2%nat - y 0%nat)) == 0)%Q.
Proof.
  intros Hd Hi x y.
  unfold simplexVolume, computeSimplexVolume, halfCrossProduct.
  apply Nat.leb_gt in Hi. rewrite Hi, Hd. cbn [Nat.eqb].
  fold (x 0) (x 1) (x 2) (y 0) (y 1) (y 2).
  generalize (x 0) (x 1) (x 2) (y 0) (y 1) (y 2). clear x y.
  intros x0 x1 x2 y0 y1 y2.
  assert (E1 : ((x2 - x0) * (y1 - y0) - (x0 - x1) * (y2 - y0)
                == (x2 - x0) * (y1 - y0) + (x1 - x0) * (y2 - y0))%Q) by ring.
  rewrite E1. clear E1.
  generalize ((x2 - x0) * (y1 - y0))%Q ((x1 - x0) * (y2 - y0))%Q.
  intros a b.
  split.
  - intros H.
    revert H. apply (Qabs_case (a + b)); intros Hab;
      apply (Qabs_case (b - a)); intros Hba H; nra.
  - intros H.
    assert (Hz : (a == 0 \/ b == 0)%Q).
    { destruct (Qeq_dec a 0) as [Ha | Ha]; [now left | right].
      apply (Qmult_integral_l a b Ha H). }
    destruct Hz as [Hz | Hz]; rewrite Hz; apply Qmult_comp; try reflexivity.
    + apply Qabs_wd. ring.
    + rewrite <- (Qabs_opp (0 - a)). apply Qabs_wd. ring.
Qed.

End Queries.

(** The volume flag at work on the unit right triangle: [computeVolume]
    gives one half, and the [getVolume] that follows gives the zero that the
    constructor stored. *)
Example computeVolume_then_getVolume_triangle :
  fst (computeVolume (lib := Exact.collaborators) Exact.triangle)
  = Ok (1 # 2)%Q
  /\ fst (getVolume (lib := Exact.collaborators)
            (snd (computeVolume (lib := Exact.collaborators) Exact.triangle)))
     = Ok 0%Q
  /\ fst (getVolume (lib := Exact.collaborators) Exact.triangle)
     = Ok (1 # 2)%Q.
Proof. vm_compute. repeat split. Qed.

(** The triangle of the points (0, 0), (1, 1) and (1, 2) has area one half;
    neither product is zero there, and the volume of the simplex is three
    halves. *)
Example triangle_volume_three_halves :
  let m := Mesh_of [[0; 0]; [1; 1]; [1; 2]]%Q [[0; 1; 2]] in
  (simplexVolume (lib := Exact.collaborators) m 0 == 3 # 2)%Q
  /\ (halfCrossProduct m 0 == 1 # 2)%Q.
Proof. vm_compute. split; reflexivity. Qed.

(** ** Store: a vertex written is the vertex read *)


(** ** Validity: the simplex that is reported *)

Lemma checkValidity_from_skip (m : Mesh) (before rest : IndicesCollection)
    (i : nat) :
  Forall (fun simplex => ~ ill_formed m simplex) before ->
  checkValidity_from m i (before ++ rest)
  = checkValidity_from m (i + length before) rest.
Proof.
  revert i. induction before as [| simplex before IH]; intros i Hall; cbn.
  - now rewrite Nat.add_0_r.
  - apply Forall_cons in Hall as [Hs Hall].
    apply ill_formed_dec in Hs as [-> ->].
    rewrite IH by exact Hall. f_equal. lia.
Qed.

(** X15: [checkValidity] stops at the first simplex that is ill formed and names
    it in the error; a wrong number of entries is reported before an unknown
    vertex. *)
Theorem checkValidity_first_offender (m : Mesh) (i : nat) (simplex : Indices) :
  simplices_ m !! i = Some simplex ->
  Forall (fun s => ~ ill_formed m s) (take i (simplices_ m)) ->
  ill_formed m simplex ->
  checkValidity m
  = Throw (InvalidArgumentException
             (if negb (length simplex =? getDimension m + 1)
              then "Error: mesh has dimension " ++ show (getDimension m)
                   ++ " but simplex #" ++ show i ++ " has size"
                   ++ show (length simplex)
              else "Error: mesh has " ++ show (getVerticesNumber m)
                   ++ " vertices but simplex #" ++ show i
                   ++ " refers to an unknown vertex")).
Proof.
  intros Hi Hbefore Hill. unfold checkValidity.
  rewrite <- (take_drop_middle _ _ _ Hi).
  rewrite checkValidity_from_skip by exact Hbefore.
  rewrite length_take_le
    by (apply Nat.lt_le_incl; apply lookup_lt_Some in Hi; exact Hi).
  cbn [Nat.add checkValidity_from].
  destruct (negb (length simplex =? getDimension m + 1)) eqn:Esize;
    [reflexivity |].
  destruct (negb (Indices_check simplex (getVerticesNumber m))) eqn:Echeck;
    [reflexivity |].
  exfalso. revert Hill. apply ill_formed_dec. now split.
Qed.

Lemma checkValidity_first_offender_witness :
  checkValidity
    (Mesh_of [[0%Q]; [1%Q]; [2%Q]] [[0; 1]; [1; 7]; [0; 1; 2]])
  = Throw (InvalidArgumentException
             "Error: mesh has 3 vertices but simplex #1 refers to an unknown vertex").
Proof.
  apply (checkValidity_first_offender
           (Mesh_of [[0%Q]; [1%Q]; [2%Q]] [[0; 1]; [1; 7]; [0; 1; 2]])
           1 [1; 7]).
  - reflexivity.
  - repeat constructor. intros [H | H]; [vm_compute in H; lia |].
    vm_compute in H. rewrite !Exists_cons, Exists_nil in H. lia.
  - right. vm_compute. apply Exists_cons_tl, Exists_cons_hd. lia.
Defined.


Lemma fresh_boxes_enclose_witness :
  let m' := snd (getVerticesToSimplicesMap (lib := Exact.collaborators)
                   Exact.triangle) in
  box_shape m' /\ boxes_enclose m'.
Proof.
  apply (fresh_boxes_enclose (lib := Exact.collaborators) Exact.triangle).
  reflexivity.
Defined.

Lemma getVolume_computes_once_witness :
  exists v,
    getVolume (lib := Exact.collaborators) Exact.triangle
    = (Ok v, set_volume_ v (set_isAlreadyComputedVolume_ true Exact.triangle))
    /\ (v == Qsum (map (simplexVolume (lib := Exact.collaborators)
                          Exact.triangle)
                     (seq 0 (getSimplicesNumber Exact.triangle))))%Q
    /\ getVolume (lib := Exact.collaborators)
         (set_volume_ v (set_isAlreadyComputedVolume_ true Exact.triangle))
       = (Ok v, set_volume_ v (set_isAlreadyComputedVolume_ true Exact.triangle)).
Proof.
  apply (getVolume_computes_once (lib := Exact.collaborators) Exact.triangle).
  reflexivity.
Defined.

Lemma volume_not_negative_witness :
  (forall index,
      (0 <= simplexVolume (lib := Exact.collaborators) Exact.triangle index)%Q)
  /\ exists v,
       fst (computeVolume (lib := Exact.collaborators) Exact.triangle) = Ok v
       /\ (0 <= v)%Q.
Proof.
  apply (volume_not_negative (lib := Exact.collaborators) Exact.triangle).
  intros matrix. apply Qabs_nonneg.
Defined.

Lemma triangle_volume_and_cross_product_witness :
  let x (j : nat) :=
    at2 (vertices_ Exact.triangle) ((simplices_ Exact.triangle !!! 0) !!! j) 0 in
  let y (j : nat) :=
    at2 (vertices_ Exact.triangle) ((simplices_ Exact.triangle !!! 0) !!! j) 1 in
  (simplexVolume (lib := Exact.collaborators) Exact.triangle 0
   == halfCrossProduct Exact.triangle 0)%Q
  <-> ((x 2%nat - x 0%nat) * (y 1%nat - y 0%nat)
       * ((x 1%nat - x 0%nat) * (y 2%nat - y 0%nat)) == 0)%Q.
Proof.
  apply (triangle_volume_and_cross_product (lib := Exact.collaborators)
           Exact.triangle 0).
  - reflexivity.
  - vm_compute. lia.
Defined.

(** ** Inner faces *)

Lemma set_intersection_sublist (range1 range2 : list nat) :
  sublist (set_intersection range1 range2) range1.
Proof.
  revert range2. induction range1 as [| x rest1 IH1]; intros range2.
  - cbn. constructor.
  - induction range2 as [| y rest2 IH2]; cbn [set_intersection].
    + apply sublist_nil_l.
    + destruct (x <? y); [apply sublist_cons, IH1 |].
      destruct (y <? x); [exact IH2 |].
      apply sublist_skip, IH1.
Qed.

Lemma strictly_increasing_sublist (l1 l2 : list nat) :
  sublist l1 l2 -> strictly_increasing l2 -> strictly_increasing l1.
Proof.
  unfold strictly_increasing. intros Hsub H2. revert l1 Hsub.
  induction H2 as [| a l2 H2 IH Ha]; intros l1 Hsub.
  - apply sublist_nil_r in Hsub as ->. constructor.
  - apply sublist_cons_r in Hsub as [Hsub | (l1' & -> & Hsub)].
    + now apply IH.
    + constructor; [now apply IH |].
      eapply Forall_forall. intros x Hx.
      rewrite Forall_forall in Ha. apply Ha.
      eapply elem_of_sublist; [exact Hx | exact Hsub].
Qed.

Lemma strictly_increasing_increasing (l : list nat) :
  strictly_increasing l -> increasing l.
Proof.
  unfold strictly_increasing, increasing.
  induction 1 as [| a l Hl IH Ha]; constructor; [exact IH |].
  eapply Forall_impl; [exact Ha |]. cbn. lia.
Qed.

(** A strictly increasing list has more than one entry exactly when it
    holds two different values. *)
Lemma strictly_increasing_two (l : list nat) :
  strictly_increasing l ->
  (1 <? length l) = true <-> exists s t, s <> t /\ s ∈ l /\ t ∈ l.
Proof.
  intros Hl. rewrite Nat.ltb_lt. split.
  - destruct l as [| a [| b l]]; cbn; try lia. intros _.
    apply StronglySorted_inv in Hl as [_ Ha].
    apply Forall_cons in Ha as [Hab _].
    exists a, b. split; [lia |]. split; [left | right; left].
  - intros (s & t & Hne & Hs & Ht).
    destruct l as [| a [| b l]]; cbn; try lia.
    + now apply elem_of_nil in Hs.
    + apply list_elem_of_singleton in Hs, Ht. congruence.
Qed.

Lemma isInnerFace_spec (simplices0 simplices1 simplices2 : Indices) :
  strictly_increasing simplices0 ->
  strictly_increasing simplices1 ->
  strictly_increasing simplices2 ->
  isInnerFace simplices0 simplices1 simplices2 = true
  <-> exists s t,
        s <> t
        /\ (s ∈ simplices0 /\ s ∈ simplices1 /\ s ∈ simplices2)
        /\ (t ∈ simplices0 /\ t ∈ simplices1 /\ t ∈ simplices2).
Proof.
  intros H0 H1 H2. unfold isInnerFace.
  pose proof (strictly_increasing_sublist _ _
                (set_intersection_sublist simplices0 simplices1) H0) as H01.
  pose proof (strictly_increasing_sublist _ _
                (set_intersection_sublist simplices2
                   (set_intersection simplices0 simplices1)) H2) as H012.
  pose proof (set_intersection_sorted simplices0 simplices1
                (strictly_increasing_increasing _ H0)
                (strictly_increasing_increasing _ H1)) as E01.
  pose proof (set_intersection_sorted simplices2
                (set_intersection simplices0 simplices1)
                (strictly_increasing_increasing _ H2)
                (strictly_increasing_increasing _ H01)) as E012.
  destruct (length (set_intersection simplices0 simplices1) <? 2) eqn:Esize.
  - split; [discriminate |].
    intros (s & t & Hne & (Hs0 & Hs1 & _) & (Ht0 & Ht1 & _)).
    apply Nat.ltb_lt in Esize.
    assert ((1 <? length (set_intersection simplices0 simplices1)) = true)
      as Htwo.
    { apply (strictly_increasing_two _ H01). exists s, t.
      rewrite !E01. tauto. }
    apply Nat.ltb_lt in Htwo. lia.
  - rewrite (strictly_increasing_two _ H012). split.
    + intros (s & t & Hne & Hs & Ht).
      apply E012 in Hs as [Hs2 Hs01]. apply E01 in Hs01.
      apply E012 in Ht as [Ht2 Ht01]. apply E01 in Ht01.
      exists s, t. tauto.
    + intros (s & t & Hne & (Hs0 & Hs1 & Hs2) & (Ht0 & Ht1 & Ht2)).
      exists s, t. rewrite !E012, !E01. tauto.
Qed.

(** X16: On three strictly increasing lists of simplices, [isInnerFace] answers
    [true] exactly when two different simplices are in all three lists. *)
Theorem isInnerFace_two_common (simplices0 simplices1 simplices2 : Indices) :
  strictly_increasing simplices0 ->
  strictly_increasing simplices1 ->
  strictly_increasing simplices2 ->
  isInnerFace simplices0 simplices1 simplices2 = true
  <-> exists s t,
        s <> t
        /\ (s ∈ simplices0 /\ s ∈ simplices1 /\ s ∈ simplices2)
        /\ (t ∈ simplices0 /\ t ∈ simplices1 /\ t ∈ simplices2).
Proof. apply isInnerFace_spec. Qed.

Lemma isInnerFace_two_common_witness :
  isInnerFace [0; 1; 4] [1; 2; 4] [1; 3; 4] = true
  <-> exists s t,
        s <> t
        /\ (s ∈ [0; 1; 4] /\ s ∈ [1; 2; 4] /\ s ∈ [1; 3; 4])
        /\ (t ∈ [0; 1; 4] /\ t ∈ [1; 2; 4] /\ t ∈ [1; 3; 4]).
Proof.
  apply (isInnerFace_two_common [0; 1; 4] [1; 2; 4] [1; 3; 4]);
    repeat constructor; lia.
Defined.

(** The same on the incidence lists of the simplices [simplices] over
    [n] vertices. *)
Lemma isInnerFace_owners (simplices : IndicesCollection) (n a b c : nat) :
  Forall NoDup simplices ->
  a < n -> b < n -> c < n ->
  let incidence := incidenceLoop 0 simplices (replicate n []) in
  isInnerFace (incidence !!! a) (incidence !!! b) (incidence !!! c) = true
  <-> exists s t,
        s <> t
        /\ s < length simplices /\ t < length simplices
        /\ (a ∈ simplices !!! s /\ b ∈ simplices !!! s
            /\ c ∈ simplices !!! s)
        /\ (a ∈ simplices !!! t /\ b ∈ simplices !!! t
            /\ c ∈ simplices !!! t).
Proof.
  intros Hnd Ha Hb Hc incidence.
  assert (Hlen : length incidence = n)
    by (unfold incidence; now rewrite incidenceLoop_length, length_replicate).
  assert (Hsorted : forall v, v < n -> strictly_increasing (incidence !!! v)).
  { intros v Hv.
    pose proof (lists_below_sorted _ _ _
                  (incidenceLoop_strictly_increasing simplices n Hnd))
      as Hall.
    rewrite Forall_forall in Hall. apply Hall.
    apply list_elem_of_lookup_total_2.
    change (v < length incidence). lia. }
  assert (Hin : forall v i, v < n ->
                            i ∈ incidence !!! v
                            <-> i < length simplices /\ v ∈ simplices !!! i).
  { intros v i Hv. unfold incidence.
    rewrite incidenceLoop_elem by now rewrite length_replicate.
    rewrite lookup_total_replicate_2 by exact Hv.
    rewrite elem_of_nil. cbn. split.
    - intros [[] | (t & Ht & -> & H)]. now split.
    - intros [Hi H]. right. now exists i. }
  rewrite (isInnerFace_spec _ _ _ (Hsorted a Ha) (Hsorted b Hb)
             (Hsorted c Hc)).
  split; intros (s & t & Hne & Hs & Ht); exists s, t.
  - rewrite !Hin in Hs, Ht by assumption. tauto.
  - rewrite !Hin by assumption. tauto.
Qed.

Section InnerFaces.
Context {lib : Collaborators}.

(** X17: With the incidence lists of a mesh none of whose simplices names a
    vertex twice, as [draw3D] calls it, [isInnerFace] tells whether two
    different simplices both name the three vertices of the face. *)
Theorem inner_face_has_two_owners (m : Mesh) (a b c : nat) :
  reachable m ->
  Forall NoDup (simplices_ m) ->
  a < getVerticesNumber m ->
  b < getVerticesNumber m ->
  c < getVerticesNumber m ->
  exists incidence,
    fst (getVerticesToSimplicesMap m) = Ok incidence
    /\ (isInnerFace (incidence !!! a) (incidence !!! b) (incidence !!! c)
        = true
        <-> exists s t,
              s <> t
              /\ s < getSimplicesNumber m /\ t < getSimplicesNumber m
              /\ (a ∈ simplices_ m !!! s /\ b ∈ simplices_ m !!! s
                  /\ c ∈ simplices_ m !!! s)
              /\ (a ∈ simplices_ m !!! t /\ b ∈ simplices_ m !!! t
                  /\ c ∈ simplices_ m !!! t)).
Proof.
  intros Hm Hnd Ha Hb Hc.
  destruct (getVerticesToSimplicesMap_spec m) as (Hfst & _).
  pose proof (getVerticesToSimplicesMap_fresh m
                (reachable_incidence_coherent m Hm)) as Hfresh.
  exists (verticesToSimplices_ (snd (getVerticesToSimplicesMap m))).
  split; [exact Hfst |]. rewrite Hfresh.
  apply (isInnerFace_owners (simplices_ m) (getVerticesNumber m) a b c);
    assumption.
Qed.

End InnerFaces.

Lemma inner_face_has_two_owners_witness :
  exists incidence,
    fst (getVerticesToSimplicesMap (lib := Exact.collaborators)
           Examples.twoTetrahedra) = Ok incidence
    /\ (isInnerFace (incidence !!! 1) (incidence !!! 2) (incidence !!! 3)
        = true
        <-> exists s t,
              s <> t
              /\ s < getSimplicesNumber Examples.twoTetrahedra
              /\ t < getSimplicesNumber Examples.twoTetrahedra
              /\ (1 ∈ simplices_ Examples.twoTetrahedra !!! s
                  /\ 2 ∈ simplices_ Examples.twoTetrahedra !!! s
                  /\ 3 ∈ simplices_ Examples.twoTetrahedra !!! s)
              /\ (1 ∈ simplices_ Examples.twoTetrahedra !!! t
                  /\ 2 ∈ simplices_ Examples.twoTetrahedra !!! t
                  /\ 3 ∈ simplices_ Examples.twoTetrahedra !!! t)).
Proof.
  apply (inner_face_has_two_owners (lib := Exact.collaborators)
           Examples.twoTetrahedra 1 2 3).
  - apply reachable_of.
  - apply (bool_decide_unpack _). vm_compute. exact I.
  - vm_compute. lia.
  - vm_compute. lia.
  - vm_compute. lia.
Defined.

(** ** Nearest vertices of a sample *)

Section Batch.
Context {lib : Collaborators}.

Lemma MeshNearestPolicy_loop_spec (points : Sample) (m : Mesh)
    (answer : nat -> nat) (range : list nat) :
  (forall i, i ∈ range ->
             getNearestVertexIndex (points !!! i) m = Ok (answer i)) ->
  forall indices,
    Forall (fun i => i < length indices) range ->
    exists indices',
      MeshNearestPolicy_loop (mkMeshNearestPolicy points m) range indices
      = Ok indices'
      /\ length indices' = length indices
      /\ (forall i, i ∈ range -> indices' !!! i = answer i)
      /\ (forall i, i ∉ range -> indices' !!! i = indices !!! i).
Proof.
  induction range as [| i range IH]; intros Hanswer indices Hrange.
  - exists indices. cbn. repeat split. intros i Hi.
    now apply elem_of_nil in Hi.
  - apply Forall_cons in Hrange as [Hi Hrange].
    cbn [MeshNearestPolicy_loop mnp_points_ mnp_mesh_].
    rewrite (Hanswer i) by left. cbn [Result_bind].
    destruct (IH (fun j Hj => Hanswer j (list_elem_of_further _ _ _ Hj))
                (<[i := answer i]> indices)) as (indices' & -> & Hlen & Hin & Hout).
    { now rewrite length_insert. }
    exists indices'. split; [reflexivity |].
    rewrite length_insert in Hlen. split; [exact Hlen |]. split.
    + intros j Hj. destruct (decide (j ∈ range)) as [Hjr | Hjr].
      * now apply Hin.
      * apply elem_of_cons in Hj as [-> | Hj]; [| contradiction].
        rewrite (Hout i Hjr). now apply list_lookup_total_insert_eq.
    + intros j Hj. apply not_elem_of_cons in Hj as [Hne Hj].
      rewrite (Hout j Hj). now apply list_lookup_total_insert_ne.
Qed.

(** Whatever the order in which the parts of the range are run, each cell of
    the range ends with the answer for its point, and the other cells are
    left as they were. *)
Lemma runParallelFor_nearest (points : Sample) (m : Mesh)
    (answer : nat -> nat) (s : Schedule) :
  forall lo hi indices,
    (forall i, lo <= i < hi ->
               getNearestVertexIndex (points !!! i) m = Ok (answer i)) ->
    hi <= length indices \/ hi <= lo ->
    exists indices',
      runParallelFor (MeshNearestPolicy_apply (mkMeshNearestPolicy points m))
        s lo hi indices
      = Ok indices'
      /\ length indices' = length indices
      /\ (forall i, lo <= i < hi -> indices' !!! i = answer i)
      /\ (forall i, ~ lo <= i < hi -> indices' !!! i = indices !!! i).
Proof.
  induction s as [| mid l IHl r IHr | mid l IHl r IHr];
    intros lo hi indices Hanswer Hhi.
  - cbn [runParallelFor]. unfold MeshNearestPolicy_apply.
    destruct (MeshNearestPolicy_loop_spec points m answer (seq lo (hi - lo)))
      with (indices := indices) as (indices' & Hrun & Hlen & Hin & Hout).
    + intros i Hi. apply elem_of_seq in Hi. apply Hanswer. lia.
    + apply Forall_forall. intros i Hi. apply elem_of_seq in Hi. lia.
    + exists indices'. split; [exact Hrun |]. split; [exact Hlen |]. split.
      * intros i Hi. apply Hin, elem_of_seq. lia.
      * intros i Hi. apply Hout. rewrite elem_of_seq. lia.
  - cbn [runParallelFor].
    destruct (IHl lo (clamp lo hi mid) indices)
      as (indices1 & -> & Hlen1 & Hin1 & Hout1);
      [intros i Hi; apply Hanswer; unfold clamp in Hi; lia
      | unfold clamp; lia |].
    cbn [Result_bind].
    destruct (IHr (clamp lo hi mid) hi indices1)
      as (indices2 & -> & Hlen2 & Hin2 & Hout2);
      [intros i Hi; apply Hanswer; unfold clamp in Hi; lia
      | unfold clamp; lia |].
    exists indices2. split; [reflexivity |]. split; [congruence |]. split.
    + intros i Hi. destruct (le_lt_dec (clamp lo hi mid) i) as [Hc | Hc].
      * apply Hin2. lia.
      * rewrite Hout2 by lia. apply Hin1. lia.
    + intros i Hi. unfold clamp in *.
      rewrite Hout2 by lia. apply Hout1. lia.
  - cbn [runParallelFor].
    destruct (IHr (clamp lo hi mid) hi indices)
      as (indices1 & -> & Hlen1 & Hin1 & Hout1);
      [intros i Hi; apply Hanswer; unfold clamp in Hi; lia
      | unfold clamp; lia |].
    cbn [Result_bind].
    destruct (IHl lo (clamp lo hi mid) indices1)
      as (indices2 & -> & Hlen2 & Hin2 & Hout2);
      [intros i Hi; apply Hanswer; unfold clamp in Hi; lia
      | unfold clamp; lia |].
    exists indices2. split; [reflexivity |]. split; [congruence |]. split.
    + intros i Hi. destruct (le_lt_dec (clamp lo hi mid) i) as [Hc | Hc].
      * rewrite Hout2 by lia. apply Hin1. lia.
      * apply Hin2. lia.
    + intros i Hi. unfold clamp in *.
      rewrite Hout2 by lia. apply Hout1. lia.
Qed.

Lemma getNearestVertexIndex_Sample_of_spec (pointsDimension : nat)
    (points : Sample) (m : Mesh) :
  rectangular m ->
  pointsDimension = getDimension m ->
  Forall (fun point => length point = getDimension m) points ->
  exists indices,
    getNearestVertexIndex_Sample_of pointsDimension points m = Ok indices
    /\ length indices = length points
    /\ forall i, i < length points ->
                 getNearestVertexIndex (points !!! i) m = Ok (indices !!! i).
Proof.
  intros Hrect Hdim Hpoints. unfold getNearestVertexIndex_Sample_of.
  rewrite (proj2 (Nat.eqb_eq _ _) Hdim). cbn [negb].
  destruct (length points =? 0) eqn:Esize.
  - apply Nat.eqb_eq in Esize. exists (replicate (length points) 0).
    split; [reflexivity |]. split; [apply length_replicate |].
    intros i Hi. lia.
  - set (answer := fun i =>
                     match getNearestVertexIndex (points !!! i) m with
                     | Ok index => index
                     | Throw _ => 0
                     end).
    assert (Hanswer : forall i, 0 <= i < length points ->
                getNearestVertexIndex (points !!! i) m = Ok (answer i)).
    { intros i Hi. unfold answer.
      destruct (getNearestVertexIndex_Ok (points !!! i) m Hrect) as [index ->];
        [| reflexivity].
      rewrite Forall_forall in Hpoints. apply Hpoints.
      apply list_elem_of_lookup_total_2. lia. }
    unfold ParallelFor.
    destruct (runParallelFor_nearest points m answer
                (partition 0 (length points)) 0 (length points)
                (replicate (length points) 0) Hanswer)
      as (indices & -> & Hlen & Hin & _);
      [left; now rewrite length_replicate |].
    exists indices. split; [reflexivity |].
    rewrite length_replicate in Hlen. split; [exact Hlen |].
    intros i Hi. rewrite Hin by lia. apply Hanswer. lia.
Qed.

Lemma getNearestVertexIndex_Sample_spec (points : Sample) (m : Mesh) :
  rectangular m ->
  Sample_getDimension points = getDimension m ->
  Forall (fun point => length point = getDimension m) points ->
  exists indices,
    getNearestVertexIndex_Sample points m = Ok indices
    /\ length indices = length points
    /\ forall i, i < length points ->
                 getNearestVertexIndex (points !!! i) m = Ok (indices !!! i).
Proof. apply getNearestVertexIndex_Sample_of_spec. Qed.

(** X18: The batched query, on a sample given by its dimension and its rows.
    A sample of another dimension than the mesh is an invalid argument,
    with or without rows.  A sample of the dimension of the mesh without
    rows gives no index.  A sample of the dimension of the mesh gives one
    index per point, in the order of the points, and each is the answer of
    the query for that point alone, however the range is cut. *)
Theorem getNearestVertexIndex_Sample_pointwise
    (pointsDimension : nat) (points : Sample) (m : Mesh) :
  (pointsDimension <> getDimension m ->
   exists what,
     getNearestVertexIndex_Sample_of pointsDimension points m
     = Throw (InvalidArgumentException what))
  /\ (pointsDimension = getDimension m ->
      getNearestVertexIndex_Sample_of pointsDimension [] m = Ok [])
  /\ (rectangular m ->
      pointsDimension = getDimension m ->
      Forall (fun point => length point = pointsDimension) points ->
      exists indices,
        getNearestVertexIndex_Sample_of pointsDimension points m = Ok indices
        /\ length indices = length points
        /\ forall i, i < length points ->
                     getNearestVertexIndex (points !!! i) m
                     = Ok (indices !!! i)).
Proof.
  split; [| split].
  - intros Hdim. unfold getNearestVertexIndex_Sample_of.
    rewrite (proj2 (Nat.eqb_neq _ _) Hdim). cbn. eauto.
  - intros Hdim. unfold getNearestVertexIndex_Sample_of.
    rewrite (proj2 (Nat.eqb_eq _ _) Hdim). reflexivity.
  - intros Hrect Hdim Hpoints.
    apply getNearestVertexIndex_Sample_of_spec; [exact Hrect | exact Hdim |].
    now rewrite <- Hdim.
Qed.

Lemma neighbours_fill (vertices : Sample) (indices : Indices) (n : nat) :
  forall neighbours : Sample,
    n <= length neighbours ->
    let filled :=
      fold_left
        (fun neighbours i => <[i := vertices !!! (indices !!! i)]> neighbours)
        (seq 0 n) neighbours in
    length filled = length neighbours
    /\ (forall i, i < n -> filled !!! i = vertices !!! (indices !!! i))
    /\ (forall i, n <= i -> filled !!! i = neighbours !!! i).
Proof.
  induction n as [| n IH]; intros neighbours Hn.
  - cbn. repeat split. intros i Hi. lia.
  - rewrite seq_S, fold_left_app. cbn [fold_left Nat.add].
    destruct (IH neighbours ltac:(lia)) as (Hlen & Hin & Hout).
    cbn zeta in Hlen, Hin, Hout |- *.
    split; [now rewrite length_insert |]. split.
    + intros i Hi. destruct (decide (i = n)) as [-> | Hne].
      * rewrite list_lookup_total_insert_eq by lia. reflexivity.
      * rewrite list_lookup_total_insert_ne by congruence. apply Hin. lia.
    + intros i Hi. rewrite list_lookup_total_insert_ne by lia.
      apply Hout. lia.
Qed.

(** X19: The batched [getNearestVertex] gives, point by point and in order, the
    vertex that the query for that point alone gives. *)
Theorem getNearestVertex_Sample_pointwise (points : Sample) (m : Mesh) :
  rectangular m ->
  Sample_getDimension points = getDimension m ->
  Forall (fun point => length point = getDimension m) points ->
  exists neighbours,
    getNearestVertex_Sample points m = Ok neighbours
    /\ length neighbours = length points
    /\ forall i, i < length points ->
                 getNearestVertex (points !!! i) m = Ok (neighbours !!! i).
Proof.
  intros Hrect Hdim Hpoints. unfold getNearestVertex_Sample.
  destruct (getNearestVertexIndex_Sample_spec points m Hrect Hdim Hpoints)
    as (indices & -> & Hlen & Hin).
  cbn [Result_bind]. eexists. split; [reflexivity |].
  destruct (neighbours_fill (vertices_ m) indices (length indices)
              (replicate (length indices) (replicate (getDimension m) 0%Q)))
    as (Hlen' & Hfill & _); [now rewrite length_replicate |].
  cbn zeta in Hlen', Hfill.
  split; [now rewrite Hlen', length_replicate |].
  intros i Hi. unfold getNearestVertex. rewrite (Hin i Hi). cbn.
  now rewrite Hfill by lia.
Qed.

(** X20: Without a vertex and without a spatial index the scan has nothing to
    look at, and the answer is index 0, which is no vertex of the mesh. *)
Theorem getNearestVertexIndex_no_vertex (point : Point) (m : Mesh) :
  vertices_ m = [] ->
  KDTree_isEmpty (tree_ m) = true ->
  length point = getDimension m ->
  getNearestVertexIndex point m = Ok 0
  /\ getVertex 0 m
     = Throw (InvalidArgumentException
                "Error: the vertex index=0 must be less than the number of vertices=0").
Proof.
  intros Hv Htree Hdim. split.
  - unfold getNearestVertexIndex, ParallelReduce.
    rewrite (proj2 (Nat.eqb_eq _ _) Hdim), Htree. cbn [negb].
    rewrite (runSchedule_nearest m point _)
      by (first [ unfold rectangular; rewrite Hv; constructor
                | exact Hdim | now split | cbn; lra
                | left; unfold getVerticesNumber; rewrite Hv; reflexivity ]).
    unfold getVerticesNumber. rewrite Hv. reflexivity.
  - unfold getVertex, getVerticesNumber. rewrite Hv. reflexivity.
Qed.

(** X21: Without a spatial index, on a mesh with a vertex, [getNearestVertex]
    gives a vertex of the mesh, and no vertex is closer to the point. *)
Theorem getNearestVertex_is_closest (point : Point) (m : Mesh) :
  length point = getDimension m ->
  rectangular m ->
  KDTree_isEmpty (tree_ m) = true ->
  vertices_ m <> [] ->
  (forall i, i < getVerticesNumber m ->
             (squaredDistance point m i <= MaxScalar)%Q) ->
  exists vertex,
    getNearestVertex point m = Ok vertex
    /\ vertex ∈ vertices_ m
    /\ forall other,
         other ∈ vertices_ m ->
         (normSquare (zip_with Qminus point vertex)
          <= normSquare (zip_with Qminus point other))%Q.
Proof.
  intros Hdim Hrect Htree Hvertices Hbound.
  assert (Hnew : looks_at m point (NearestFunctor_new m point)) by now split.
  assert (Hpos : 0 < getVerticesNumber m).
  { unfold getVerticesNumber. destruct (vertices_ m);
      [contradiction | cbn; lia]. }
  unfold getNearestVertex, getNearestVertexIndex, ParallelReduce.
  rewrite (proj2 (Nat.eqb_eq _ _) Hdim), Htree. cbn [negb].
  rewrite (runSchedule_nearest m point _ Hrect Hdim 0 _ _ Hnew)
    by (first [cbn; lra | left; reflexivity]).
  rewrite Nat.sub_0_r. cbn [Result_bind].
  eexists. split; [reflexivity |].
  assert (Hmin : minIndex_ (fold_left scanStep (seq 0 (getVerticesNumber m))
                              (NearestFunctor_new m point))
                 < getVerticesNumber m
                 /\ forall j, j < getVerticesNumber m ->
                      (squaredDistance point m
                         (minIndex_ (fold_left scanStep
                                       (seq 0 (getVerticesNumber m))
                                       (NearestFunctor_new m point)))
                       <= squaredDistance point m j)%Q).
  { destruct (sequential_scan m point (NearestFunctor_new m point) 0
                (getVerticesNumber m) Hnew)
      as [_ [[-> Hall] | (Hidx & Hd & _ & Hall & _)]]; cbn in *.
    - split; [exact Hpos |].
      intros j Hj. specialize (Hall j ltac:(lia)).
      specialize (Hbound 0 Hpos). lra.
    - split; [lia |]. rewrite <- Hd. intros j Hj. apply Hall. lia. }
  destruct Hmin as [Hlt Hmin]. split.
  - now apply list_elem_of_lookup_total_2.
  - intros other Hother.
    apply list_elem_of_lookup_total in Hother as (j & Hj & <-).
    exact (Hmin j Hj).
Qed.

End Batch.

(** ** Regular meshes of the line *)

Lemma isRegular_loop_false (m : Mesh) (epsilon step : Q) (range : list nat) :
  isRegular_loop m epsilon step range false = false.
Proof. destruct range; reflexivity. Qed.

Lemma isRegular_loop_true (m : Mesh) (epsilon step : Q) (range : list nat) :
  isRegular_loop m epsilon step range true = true
  <-> Forall (fun i => (Qabs (simplexStep m i - step) < epsilon)%Q) range.
Proof.
  induction range as [| i range IH]; cbn [isRegular_loop andb].
  - split; [constructor | reflexivity].
  - rewrite Forall_cons. fold (simplexStep m i).
    destruct (Qltb (Qabs (simplexStep m i - step)) epsilon) eqn:E; cbn [negb].
    + apply Qltb_lt in E. rewrite IH. tauto.
    + apply Qltb_ge in E. split; [discriminate |]. intros [H _]. lra.
Qed.

Section Regular.
Context {resources : Resources}.

Lemma isRegular_spec (m : Mesh) :
  isRegular m = true
  <-> getDimension m = 1
      /\ forall i, 1 <= i < getSimplicesNumber m ->
                   (Qabs (simplexStep m i - simplexStep m 0)
                    < Mesh_VertexEpsilon)%Q.
Proof.
  unfold isRegular.
  destruct (getDimension m =? 1) eqn:Ed; cbn [negb].
  - apply Nat.eqb_eq in Ed.
    destruct (getSimplicesNumber m <=? 1) eqn:Es.
    + apply Nat.leb_le in Es. split; [| reflexivity].
      intros _. split; [exact Ed |]. intros i Hi. lia.
    + apply Nat.leb_gt in Es. fold (simplexStep m 0).
      rewrite isRegular_loop_true, Forall_forall. split.
      * intros H. split; [exact Ed |]. intros i Hi.
        apply H, elem_of_seq. lia.
      * intros [_ H] i Hi. apply elem_of_seq in Hi. apply H. lia.
  - apply Nat.eqb_neq in Ed. split; [discriminate |]. intros [H _].
    contradiction.
Qed.

(** X22: A mesh is regular exactly when it is a mesh of the line and the step of
    every simplex after the first is within [Mesh-VertexEpsilon] of the step
    of the first; so a mesh of the line with at most one simplex is
    regular, and no mesh of another dimension is. *)
Theorem isRegular_iff (m : Mesh) :
  isRegular m = true
  <-> getDimension m = 1
      /\ forall i, 1 <= i < getSimplicesNumber m ->
                   (Qabs (simplexStep m i - simplexStep m 0)
                    < Mesh_VertexEpsilon)%Q.
Proof. apply isRegular_spec. Qed.

(** X23: The steps of any two simplices of a regular mesh differ by less than
    twice the tolerance. *)
Theorem isRegular_steps_close (m : Mesh) (i j : nat) :
  isRegular m = true ->
  i < getSimplicesNumber m ->
  j < getSimplicesNumber m ->
  i <> j ->
  (Qabs (simplexStep m i - simplexStep m j) < 2 * Mesh_VertexEpsilon)%Q.
Proof.
  intros Hreg Hi Hj Hne. apply isRegular_spec in Hreg as [_ Hreg].
  assert (Hclose : forall k, k < getSimplicesNumber m ->
             (Qabs (simplexStep m k - simplexStep m 0)
              < Mesh_VertexEpsilon)%Q
             \/ k = 0).
  { intros k Hk. destruct (decide (k = 0)) as [-> | Hk0]; [now right |].
    left. apply Hreg. lia. }
  assert (Hzero : (Qabs (simplexStep m 0 - simplexStep m 0) == 0)%Q).
  { assert (E : (simplexStep m 0 - simplexStep m 0 == 0)%Q) by ring.
    rewrite E. reflexivity. }
  assert (E : (simplexStep m i - simplexStep m j
               == (simplexStep m i - simplexStep m 0)
                  + - (simplexStep m j - simplexStep m 0))%Q) by ring.
  rewrite E. clear E.
  eapply Qle_lt_trans; [apply Qabs_triangle |]. rewrite Qabs_opp.
  pose proof (Qabs_nonneg (simplexStep m i - simplexStep m 0)) as Hi0.
  pose proof (Qabs_nonneg (simplexStep m j - simplexStep m 0)) as Hj0.
  destruct (Hclose i Hi) as [Hci | ->], (Hclose j Hj) as [Hcj | ->];
    try rewrite Hzero; try lra; try lia.
Qed.

End Regular.

(** ** Equality of meshes *)

Lemma Point_eqb_spec (a b : Point) :
  Point_eqb a b = true <-> Forall2 Qeq a b.
Proof.
  revert b. induction a as [| x a IH]; intros [| y b]; cbn.
  - split; [constructor | reflexivity].
  - split; [discriminate | intros H; inversion H].
  - split; [discriminate | intros H; inversion H].
  - rewrite andb_true_iff, Qeq_bool_iff, IH, Forall2_cons. reflexivity.
Qed.

Lemma Sample_eqb_spec (a b : Sample) :
  Sample_eqb a b = true <-> Forall2 (Forall2 Qeq) a b.
Proof.
  revert b. induction a as [| x a IH]; intros [| y b]; cbn.
  - split; [constructor | reflexivity].
  - split; [discriminate | intros H; inversion H].
  - split; [discriminate | intros H; inversion H].
  - rewrite andb_true_iff, Point_eqb_spec, IH, Forall2_cons. reflexivity.
Qed.

Lemma Mesh_eqb_spec (m other : Mesh) :
  Mesh_eqb m other = true
  <-> Forall2 (Forall2 Qeq) (vertices_ m) (vertices_ other)
      /\ simplices_ m = simplices_ other.
Proof.
  unfold Mesh_eqb.
  rewrite andb_true_iff, Sample_eqb_spec, bool_decide_eq_true. reflexivity.
Qed.

(** X24: Equality of meshes is an equivalence that looks at the vertices and the
    simplices only: a mesh stays equal to itself through every query that
    refreshes a cache, builds the spatial index or memoises the volume. *)
Theorem Mesh_eqb_equivalence_blind_to_caches :
  (forall m, Mesh_eqb m m = true)
  /\ (forall m1 m2, Mesh_eqb m1 m2 = true -> Mesh_eqb m2 m1 = true)
  /\ (forall m1 m2 m3,
        Mesh_eqb m1 m2 = true -> Mesh_eqb m2 m3 = true ->
        Mesh_eqb m1 m3 = true)
  /\ (forall (lib : Collaborators) m point,
        Mesh_eqb m (snd (contains point m)) = true
        /\ Mesh_eqb m (snd (getVerticesToSimplicesMap m)) = true
        /\ Mesh_eqb m
             (snd (getNearestVertexAndSimplexIndicesWithCoordinates point m))
           = true
        /\ Mesh_eqb m (snd (computeWeights m)) = true
        /\ Mesh_eqb m (snd (getVolume m)) = true
        /\ Mesh_eqb m (computeKDTree m) = true).
Proof.
  assert (Hrefl : forall m, Mesh_eqb m m = true).
  { intros m. apply Mesh_eqb_spec. split; reflexivity. }
  assert (Hstore : forall m m', same_store m m' -> Mesh_eqb m m' = true).
  { intros m m' (_ & Hv & Hs & _). apply Mesh_eqb_spec.
    rewrite Hv, Hs. split; reflexivity. }
  split; [exact Hrefl |]. split; [| split].
  - intros m1 m2 H. apply Mesh_eqb_spec in H as [Hv Hs].
    apply Mesh_eqb_spec. split; [now symmetry | now symmetry].
  - intros m1 m2 m3 H12 H23.
    apply Mesh_eqb_spec in H12 as [Hv12 Hs12].
    apply Mesh_eqb_spec in H23 as [Hv23 Hs23].
    apply Mesh_eqb_spec. split; [now transitivity (vertices_ m2) | congruence].
  - intros lib m point.
    destruct (getVerticesToSimplicesMap_spec m) as (_ & Hs & _).
    repeat split.
    + destruct (contains_state point m) as [-> | ->]; auto.
    + auto.
    + destruct (getNearestVertexAndSimplexIndicesWithCoordinates_state
                  point m) as [-> | ->]; auto.
    + destruct (computeWeights_state m) as [-> | ->]; auto.
    + destruct (getVolume_state m) as [-> | [-> | [v ->]]];
        apply Mesh_eqb_spec; split; reflexivity.
    + apply Mesh_eqb_spec; split; reflexivity.
Qed.

(** ** Orientation of a face *)

Lemma isVisible_signedArea (v0 v1 v2 : Point) :
  isVisible v0 v1 v2 = true <-> (signedArea v0 v1 v2 <= 0)%Q.
Proof.
  unfold isVisible, signedArea. rewrite Qle_bool_iff. split; intros H; lra.
Qed.

(** X25: A face is visible exactly when its three points do not turn
    counterclockwise on the screen.  So a face or the same face with two
    vertices exchanged is visible, both only when the three points are on a
    line, and a cyclic shift of the vertices changes nothing. *)
Theorem isVisible_orientation (v0 v1 v2 : Point) :
  (isVisible v0 v1 v2 = true \/ isVisible v0 v2 v1 = true)
  /\ (isVisible v0 v1 v2 = true /\ isVisible v0 v2 v1 = true
      <-> (signedArea v0 v1 v2 == 0)%Q)
  /\ isVisible v1 v2 v0 = isVisible v0 v1 v2.
Proof.
  assert (Hswap : (signedArea v0 v2 v1 == - signedArea v0 v1 v2)%Q)
    by (unfold signedArea; ring).
  assert (Hshift : (signedArea v1 v2 v0 == signedArea v0 v1 v2)%Q)
    by (unfold signedArea; ring).
  split; [| split].
  - rewrite !isVisible_signedArea, Hswap.
    destruct (Qlt_le_dec 0 (signedArea v0 v1 v2)); [right | left]; lra.
  - rewrite !isVisible_signedArea, Hswap. split; [intros [H1 H2] | intros H].
    + lra.
    + split; lra.
  - apply eq_true_iff_eq. rewrite !isVisible_signedArea, Hshift. reflexivity.
Qed.

(** ** Numerically empty meshes *)

Section Emptiness.
Context {lib : Collaborators} {resources : Resources}.

(** X26: On a mesh whose volume flag is down, [isNumericallyEmpty] compares the
    sum of the volumes of the simplices with [Domain-SmallVolume]; a mesh
    without simplex is numerically empty as soon as that threshold is not
    negative. *)
Theorem isNumericallyEmpty_small_volume (m : Mesh) :
  isAlreadyComputedVolume_ m = false ->
  exists empty,
    fst (isNumericallyEmpty m) = Ok empty
    /\ (empty = true
        <-> (Qsum (map (simplexVolume m) (seq 0 (getSimplicesNumber m)))
             <= Domain_SmallVolume)%Q)
    /\ (simplices_ m = [] -> (0 <= Domain_SmallVolume)%Q -> empty = true).
Proof.
  intros Hflag. unfold isNumericallyEmpty, bind, ret.
  destruct (computeVolume_spec m) as (v & Hv & Hsum).
  assert (Hget : getVolume m
                 = (Ok v, set_volume_ v (set_isAlreadyComputedVolume_ true m))).
  { unfold getVolume, bind, gets, modify, ret. rewrite Hflag.
    cbn -[computeVolume]. rewrite Hv. reflexivity. }
  rewrite Hget. cbn [fst]. eexists. split; [reflexivity |].
  rewrite Qle_bool_iff, Hsum. split; [reflexivity |].
  intros Hnil Hpos. unfold getSimplicesNumber. rewrite Hnil.
  cbn [length seq map]. rewrite Qsum_nil. exact Hpos.
Qed.

End Emptiness.

Lemma getNearestVertexIndex_Sample_pointwise_witness :
  exists indices,
    getNearestVertexIndex_Sample_of (lib := Exact.collaborators) 1
      [[1 # 4]; [3 # 4]; [2]]%Q Exact.segment = Ok indices
    /\ length indices = 3
    /\ forall i, i < 3 ->
                 getNearestVertexIndex (lib := Exact.collaborators)
                   ([[1 # 4]; [3 # 4]; [2]]%Q !!! i) Exact.segment
                 = Ok (indices !!! i).
Proof.
  apply (getNearestVertexIndex_Sample_pointwise (lib := Exact.collaborators)
           1 [[1 # 4]; [3 # 4]; [2]]%Q Exact.segment).
  - repeat constructor.
  - reflexivity.
  - repeat constructor.
Defined.

Lemma getNearestVertex_Sample_pointwise_witness :
  exists neighbours,
    getNearestVertex_Sample (lib := Exact.collaborators)
      [[1 # 4]; [3 # 4]; [2]]%Q Exact.segment = Ok neighbours
    /\ length neighbours = 3
    /\ forall i, i < 3 ->
                 getNearestVertex (lib := Exact.collaborators)
                   ([[1 # 4]; [3 # 4]; [2]]%Q !!! i) Exact.segment
                 = Ok (neighbours !!! i).
Proof.
  apply (getNearestVertex_Sample_pointwise (lib := Exact.collaborators)
           [[1 # 4]; [3 # 4]; [2]]%Q Exact.segment).
  - repeat constructor.
  - reflexivity.
  - repeat constructor.
Defined.

Lemma getNearestVertexIndex_no_vertex_witness :
  getNearestVertexIndex (lib := Exact.collaborators) [] (Mesh_of [] []) = Ok 0
  /\ getVertex 0 (Mesh_of [] [])
     = Throw (InvalidArgumentException
                "Error: the vertex index=0 must be less than the number of vertices=0").
Proof.
  apply (getNearestVertexIndex_no_vertex (lib := Exact.collaborators)
           [] (Mesh_of [] [])); reflexivity.
Defined.

Lemma getNearestVertex_is_closest_witness :
  exists vertex,
    getNearestVertex (lib := Exact.collaborators) [3 # 4]%Q Exact.segment
    = Ok vertex
    /\ vertex ∈ vertices_ Exact.segment
    /\ forall other,
         other ∈ vertices_ Exact.segment ->
         (normSquare (zip_with Qminus [3 # 4]%Q vertex)
          <= normSquare (zip_with Qminus [3 # 4]%Q other))%Q.
Proof.
  apply (getNearestVertex_is_closest (lib := Exact.collaborators)
           [3 # 4]%Q Exact.segment).
  - reflexivity.
  - repeat constructor.
  - reflexivity.
  - discriminate.
  - intros [| [| i]] Hi; [vm_compute; discriminate .. | cbn in Hi; lia].
Defined.

Lemma isRegular_steps_close_witness :
  (Qabs (simplexStep Examples.regularLine 0 - simplexStep Examples.regularLine 2)
   < 2 * Mesh_VertexEpsilon (Resources := Examples.resources))%Q.
Proof.
  apply (isRegular_steps_close (resources := Examples.resources)
           Examples.regularLine 0 2).
  - vm_compute. reflexivity.
  - vm_compute. lia.
  - vm_compute. lia.
  - lia.
Defined.

Lemma isNumericallyEmpty_small_volume_witness :
  exists empty,
    fst (isNumericallyEmpty (lib := Exact.collaborators)
           (resources := Examples.resources)
           (Mesh_of_vertices [[0%Q]; [1%Q]]))
    = Ok empty
    /\ (empty = true
        <-> (Qsum (map (simplexVolume (lib := Exact.collaborators)
                          (Mesh_of_vertices [[0%Q]; [1%Q]]))
                     (seq 0 (getSimplicesNumber
                               (Mesh_of_vertices [[0%Q]; [1%Q]]))))
             <= Domain_SmallVolume (Resources := Examples.resources))%Q)
    /\ (simplices_ (Mesh_of_vertices [[0%Q]; [1%Q]]) = [] ->
        (0 <= Domain_SmallVolume (Resources := Examples.resources))%Q ->
        empty = true).
Proof.
  apply (isNumericallyEmpty_small_volume (lib := Exact.collaborators)
           (resources := Examples.resources)
           (Mesh_of_vertices [[0%Q]; [1%Q]])).
  reflexivity.
Defined.

(** ** The faces that are drawn *)

Lemma addFace_fold_elem (backfaceCulling : bool) (visuVertices : Sample)
    (verticesToSimplices : IndicesCollection) (faces : list (nat * nat * nat))
    (x : Q * list nat) :
  forall trianglesAndDepth,
    x ∈ fold_left (addFace backfaceCulling visuVertices verticesToSimplices)
          faces trianglesAndDepth
    <-> x ∈ trianglesAndDepth
        \/ exists a b c,
             (a, b, c) ∈ faces
             /\ (negb backfaceCulling
                 || isVisible (visuVertices !!! a) (visuVertices !!! b)
                      (visuVertices !!! c))
                && negb (isInnerFace (verticesToSimplices !!! a)
                           (verticesToSimplices !!! b)
                           (verticesToSimplices !!! c)) = true
             /\ x = (Qplus (Qplus (at2 visuVertices a 2)
                              (at2 visuVertices b 2))
                       (at2 visuVertices c 2),
                     [a; b; c]).
Proof.
  induction faces as [| [[a b] c] faces IH]; intros acc; cbn [fold_left].
  - split; [tauto |]. intros [H | (a & b & c & H & _)]; [exact H |].
    now apply elem_of_nil in H.
  - rewrite IH. unfold addFace.
    destruct ((negb backfaceCulling
               || isVisible (visuVertices !!! a) (visuVertices !!! b)
                    (visuVertices !!! c))
              && negb (isInnerFace (verticesToSimplices !!! a)
                         (verticesToSimplices !!! b)
                         (verticesToSimplices !!! c))) eqn:Ekeep.
    + rewrite elem_of_app, list_elem_of_singleton. split.
      * intros [[H | ->] | (a' & b' & c' & H & Hk & ->)].
        -- now left.
        -- right. exists a, b, c. split; [left | now split].
        -- right. exists a', b', c'. split; [now right | now split].
      * intros [H | (a' & b' & c' & H & Hk & ->)]; [left; now left |].
        apply elem_of_cons in H as [[= -> -> ->] | H].
        -- left. now right.
        -- right. exists a', b', c'. now repeat split.
    + split.
      * intros [H | (a' & b' & c' & H & Hk & ->)]; [now left |].
        right. exists a', b', c'. split; [now right | now split].
      * intros [H | (a' & b' & c' & H & Hk & ->)]; [now left |].
        apply elem_of_cons in H as [[= -> -> ->] | H].
        -- rewrite Ekeep in Hk. discriminate.
        -- right. exists a', b', c'. now repeat split.
Qed.

Lemma triangles_fold_elem (backfaceCulling : bool) (visuVertices : Sample)
    (verticesToSimplices : IndicesCollection) (simplices : IndicesCollection)
    (range : list nat) (x : Q * list nat) :
  forall trianglesAndDepth,
    x ∈ fold_left
          (fun trianglesAndDepth i =>
             fold_left
               (addFace backfaceCulling visuVertices verticesToSimplices)
               (simplexFaces (simplices !!! i)) trianglesAndDepth)
          range trianglesAndDepth
    <-> x ∈ trianglesAndDepth
        \/ exists i a b c,
             i ∈ range
             /\ (a, b, c) ∈ simplexFaces (simplices !!! i)
             /\ (negb backfaceCulling
                 || isVisible (visuVertices !!! a) (visuVertices !!! b)
                      (visuVertices !!! c))
                && negb (isInnerFace (verticesToSimplices !!! a)
                           (verticesToSimplices !!! b)
                           (verticesToSimplices !!! c)) = true
             /\ x = (Qplus (Qplus (at2 visuVertices a 2)
                              (at2 visuVertices b 2))
                       (at2 visuVertices c 2),
                     [a; b; c]).
Proof.
  induction range as [| i range IH]; intros acc; cbn [fold_left].
  - split; [tauto |]. intros [H | (i & a & b & c & H & _)]; [exact H |].
    now apply elem_of_nil in H.
  - rewrite IH, addFace_fold_elem. split.
    + intros [[H | (a & b & c & H & Hk & ->)]
             | (i' & a & b & c & Hi & H & Hk & ->)].
      * now left.
      * right. exists i, a, b, c. split; [left | now repeat split].
      * right. exists i', a, b, c. split; [now right | now repeat split].
    + intros [H | (i' & a & b & c & Hi & H & Hk & ->)]; [left; now left |].
      apply elem_of_cons in Hi as [-> | Hi].
      * left. right. exists a, b, c. now repeat split.
      * right. exists i', a, b, c. now repeat split.
Qed.

(** The vertices of a face of a simplex of four entries are entries of the
    simplex. *)
Lemma simplexFaces_entries (simplex : Indices) (a b c : nat) :
  length simplex = 4 ->
  (a, b, c) ∈ simplexFaces simplex ->
  a ∈ simplex /\ b ∈ simplex /\ c ∈ simplex.
Proof.
  intros Hlen Hface. unfold simplexFaces in Hface.
  assert (Hentry : forall j, j < 4 -> simplex !!! j ∈ simplex)
    by (intros j Hj; apply list_elem_of_lookup_total_2; lia).
  repeat (apply elem_of_cons in Hface as [[= -> -> ->] | Hface];
          [repeat split; apply Hentry; lia |]).
  now apply elem_of_nil in Hface.
Qed.

Section Faces.
Context {lib : Collaborators} {resources : Resources}.

(** X30: With culling of the back faces off, the third step of [draw3D] enters,
    for a valid mesh of tetrahedra none of which names a vertex twice,
    exactly the faces that no second simplex shares, each with the sum of the
    depths of its three vertices. *)
Theorem draw3D_keeps_unshared_faces (visuVertices : Sample) (m : Mesh) :
  reachable m ->
  isValid m = true ->
  dimension_ m = 3 ->
  Forall NoDup (simplices_ m) ->
  Mesh_BackfaceCulling = false ->
  exists trianglesAndDepth,
    fst (splitIntoTriangles visuVertices m) = Ok trianglesAndDepth
    /\ forall depth a b c,
         (depth, [a; b; c]) ∈ trianglesAndDepth
         <-> exists i,
               i < getSimplicesNumber m
               /\ (a, b, c) ∈ simplexFaces (simplices_ m !!! i)
               /\ depth = Qplus (Qplus (at2 visuVertices a 2)
                                   (at2 visuVertices b 2))
                            (at2 visuVertices c 2)
               /\ forall t,
                    t < getSimplicesNumber m -> t <> i ->
                    ~ (a ∈ simplices_ m !!! t /\ b ∈ simplices_ m !!! t
                       /\ c ∈ simplices_ m !!! t).
Proof.
  intros Hm Hvalid Hdim Hnd Hculling.
  destruct (getVerticesToSimplicesMap_spec m) as (_ & Hs & _).
  destruct Hs as (_ & _ & Hss & _).
  pose proof (getVerticesToSimplicesMap_fresh m
                (reachable_incidence_coherent m Hm)) as Hfresh.
  unfold splitIntoTriangles, bind, gets, ret.
  rewrite refreshVerticesToSimplicesMap_spec. cbn [fst].
  eexists. split; [reflexivity |].
  unfold getSimplicesNumber. rewrite Hfresh, Hss, Hculling.
  pose proof (isValid_simplices m Hvalid) as Hall.
  rewrite Forall_forall in Hall.
  assert (Hsimplex : forall i, i < length (simplices_ m) ->
             length (simplices_ m !!! i) = 4
             /\ forall v, v ∈ simplices_ m !!! i -> v < getVerticesNumber m).
  { intros i Hi.
    destruct (Hall (simplices_ m !!! i)) as [Hlen Hbelow].
    - now apply list_elem_of_lookup_total_2.
    - split; [lia |]. now rewrite Forall_forall in Hbelow. }
  intros depth a b c. rewrite triangles_fold_elem. split.
  - intros [H | (i & a' & b' & c' & Hi & Hface & Hkeep & [= -> -> -> ->])];
      [now apply elem_of_nil in H |].
    apply elem_of_seq in Hi. destruct (Hsimplex i ltac:(lia)) as [Hlen Hbelow].
    destruct (simplexFaces_entries _ _ _ _ Hlen Hface) as (Ha & Hb & Hc).
    exists i. split; [lia |]. split; [exact Hface |].
    split; [reflexivity |].
    intros t Ht Hne Hown.
    cbn [negb orb andb] in Hkeep. apply negb_true_iff in Hkeep.
    enough (isInnerFace
              (incidenceLoop 0 (simplices_ m)
                 (replicate (getVerticesNumber m) []) !!! a')
              (incidenceLoop 0 (simplices_ m)
                 (replicate (getVerticesNumber m) []) !!! b')
              (incidenceLoop 0 (simplices_ m)
                 (replicate (getVerticesNumber m) []) !!! c') = true)
      by congruence.
    apply (isInnerFace_owners (simplices_ m) (getVerticesNumber m) a' b' c');
      [exact Hnd | now apply Hbelow .. |].
    exists i, t. split; [congruence |]. split; [lia |].
    split; [exact Ht |]. now split.
  - intros (i & Hi & Hface & -> & Hunshared).
    destruct (Hsimplex i Hi) as [Hlen Hbelow].
    destruct (simplexFaces_entries _ _ _ _ Hlen Hface) as (Ha & Hb & Hc).
    right. exists i, a, b, c. split; [apply elem_of_seq; lia |].
    split; [exact Hface |]. split; [| reflexivity].
    cbn [negb orb andb]. apply negb_true_iff.
    destruct (isInnerFace _ _ _) eqn:Einner; [| reflexivity].
    exfalso.
    apply (isInnerFace_owners (simplices_ m) (getVerticesNumber m) a b c)
      in Einner; [| exact Hnd | now apply Hbelow ..].
    destruct Einner as (s & t & Hne & Hs & Ht & Hsown & Htown).
    destruct (decide (t = i)) as [-> | Hti].
    + apply (Hunshared s Hs Hne Hsown).
    + apply (Hunshared t Ht Hti Htown).
Qed.

End Faces.

Lemma draw3D_keeps_unshared_faces_witness :
  exists trianglesAndDepth,
    fst (splitIntoTriangles (lib := Exact.collaborators)
           (resources := Examples.resources)
           (vertices_ Examples.twoTetrahedra) Examples.twoTetrahedra)
    = Ok trianglesAndDepth
    /\ forall depth a b c,
         (depth, [a; b; c]) ∈ trianglesAndDepth
         <-> exists i,
               i < getSimplicesNumber Examples.twoTetrahedra
               /\ (a, b, c)
                  ∈ simplexFaces (simplices_ Examples.twoTetrahedra !!! i)
               /\ depth
                  = Qplus (Qplus
                             (at2 (vertices_ Examples.twoTetrahedra) a 2)
                             (at2 (vertices_ Examples.twoTetrahedra) b 2))
                      (at2 (vertices_ Examples.twoTetrahedra) c 2)
               /\ forall t,
                    t < getSimplicesNumber Examples.twoTetrahedra ->
                    t <> i ->
                    ~ (a ∈ simplices_ Examples.twoTetrahedra !!! t
                       /\ b ∈ simplices_ Examples.twoTetrahedra !!! t
                       /\ c ∈ simplices_ Examples.twoTetrahedra !!! t).
Proof.
  apply (draw3D_keeps_unshared_faces (lib := Exact.collaborators)
           (resources := Examples.resources)
           (vertices_ Examples.twoTetrahedra) Examples.twoTetrahedra).
  - apply reachable_of.
  - reflexivity.
  - reflexivity.
  - apply (bool_decide_unpack _). vm_compute. exact I.
  - reflexivity.
Defined.

(** The two tetrahedra at work: of their eight faces, the two copies of the
    shared face are left out. *)
Example twoTetrahedra_faces :
  fst (splitIntoTriangles (lib := Exact.collaborators)
         (resources := Examples.resources)
         (vertices_ Examples.twoTetrahedra) Examples.twoTetrahedra)
  = Ok [(0%Q, [0; 1; 2]); (1%Q, [0; 2; 3]); (1%Q, [0; 3; 1]);
        (2%Q, [1; 3; 4]); (1%Q, [1; 4; 2]); (2%Q, [2; 4; 3])].
Proof. vm_compute. reflexivity. Qed.

(** ** P1 Gram matrix *)

Lemma at2_outside (n : nat) (matrix : SquareMatrix) (a b : nat) :
  square n matrix -> ~ (a < n /\ b < n) -> at2 matrix a b = 0%Q.
Proof.
  intros [Hlen Hrows] Hout. unfold at2.
  destruct (le_lt_dec n a) as [Ha | Ha].
  - rewrite (list_lookup_total_alt matrix), lookup_ge_None_2 by lia.
    reflexivity.
  - rewrite list_lookup_total_alt, lookup_ge_None_2; [reflexivity |].
    rewrite (row_length _ a n Hrows) by lia. lia.
Qed.

Lemma at2_set2_square (n : nat) (matrix : SquareMatrix) (p q a b : nat)
    (x : Q) :
  square n matrix ->
  at2 (set2 matrix p q x) a b
  = if decide (p = a /\ q = b /\ a < n /\ b < n) then x else at2 matrix a b.
Proof.
  intros [Hlen Hrows]. unfold at2, set2. rewrite list_lookup_total_alter.
  case_decide as Hp.
  - destruct Hp as [<- Hp]. rewrite list_lookup_total_insert.
    rewrite (row_length _ p n Hrows) by exact Hp.
    case_decide as Hq.
    + destruct Hq as [<- Hq]. rewrite decide_True by (repeat split; lia).
      reflexivity.
    + rewrite decide_False by (intros (_ & -> & _ & Hb); apply Hq; now split).
      reflexivity.
  - rewrite decide_False by (intros (-> & _ & Ha & _); apply Hp; split; lia).
    reflexivity.
Qed.

Lemma set2_square (n : nat) (matrix : SquareMatrix) (p q : nat) (x : Q) :
  square n matrix -> square n (set2 matrix p q x).
Proof.
  intros [Hlen Hrows].
  destruct (set2_shape matrix p q n x Hrows) as [Hl Hr].
  split; [congruence | exact Hr].
Qed.

Lemma replicate_square (n : nat) (x : Q) :
  square n (replicate n (replicate n x))
  /\ forall a b, at2 (replicate n (replicate n x)) a b
                 = if decide (a < n /\ b < n) then x else 0%Q.
Proof.
  assert (Hsq : square n (replicate n (replicate n x))).
  { split; [apply length_replicate |].
    apply Forall_forall. intros row Hrow.
    apply elem_of_replicate in Hrow as [-> _]. apply length_replicate. }
  split; [exact Hsq |]. intros a b. case_decide as Hab.
  - unfold at2. destruct Hab as [Ha Hb].
    now rewrite !lookup_total_replicate_2.
  - now apply (at2_outside n).
Qed.

(** The entries of [elementaryGram]. *)
Lemma elementaryGram_entries (n : nat) :
  square n (elementaryGram n)
  /\ forall j k,
       at2 (elementaryGram n) j k
       = if decide (j < n /\ k < n)
         then if decide (j = k)
              then (1 / inject_Z (Z.of_nat (fact (n + 1))) * 2)%Q
              else (1 / inject_Z (Z.of_nat (fact (n + 1))))%Q
         else 0%Q.
Proof.
  unfold elementaryGram.
  set (g := (1 / inject_Z (Z.of_nat (fact (n + 1))))%Q).
  assert (Hgen : forall t,
             t <= n ->
             let matrix :=
               fold_left (fun matrix i => set2 matrix i i (at2 matrix i i * 2)%Q)
                 (seq 0 t) (replicate n (replicate n g)) in
             square n matrix
             /\ forall j k,
                  at2 matrix j k
                  = if decide (j < n /\ k < n)
                    then if decide (j = k /\ j < t) then (g * 2)%Q else g
                    else 0%Q).
  { induction t as [| t IH]; intros Ht; cbn zeta.
    - cbn [seq fold_left]. destruct (replicate_square n g) as [Hsq Hat].
      split; [exact Hsq |]. intros j k. rewrite Hat.
      case_decide; [| reflexivity].
      rewrite decide_False by lia. reflexivity.
    - rewrite seq_S, fold_left_app. cbn [fold_left Nat.add].
      destruct (IH ltac:(lia)) as [Hsq Hat]. cbn zeta in Hsq, Hat.
      split; [now apply set2_square |]. intros j k.
      rewrite (at2_set2_square n) by exact Hsq.
      rewrite !Hat.
      repeat case_decide; first [reflexivity | exfalso; lia]. }
  destruct (Hgen n (Nat.le_refl n)) as [Hsq Hat]. cbn zeta in Hsq, Hat.
  split; [exact Hsq |]. intros j k. rewrite Hat.
  repeat case_decide; first [reflexivity | exfalso; lia].
Qed.

Lemma elementaryGram_symmetric (n j k : nat) :
  at2 (elementaryGram n) j k = at2 (elementaryGram n) k j.
Proof.
  destruct (elementaryGram_entries n) as [_ Hat]. rewrite !Hat.
  repeat case_decide; first [reflexivity | exfalso; lia].
Qed.

Lemma Qsum_map_plus {A} (f g : A -> Q) (l : list A) :
  (Qsum (map (fun a => f a + g a) l) == Qsum (map f l) + Qsum (map g l))%Q.
Proof.
  induction l as [| a l IH]; cbn [map]; rewrite ?Qsum_nil, ?Qsum_cons.
  - lra.
  - rewrite IH. lra.
Qed.

Lemma Qsum_map_zero {A} (l : list A) : (Qsum (map (fun _ => 0) l) == 0)%Q.
Proof.
  induction l as [| a l IH]; cbn [map]; rewrite ?Qsum_nil, ?Qsum_cons.
  - lra.
  - rewrite IH. lra.
Qed.

Lemma Qsum_exchange {A B} (f : A -> B -> Q) (l1 : list A) (l2 : list B) :
  (Qsum (map (fun a => Qsum (map (fun b => f a b) l2)) l1)
   == Qsum (map (fun b => Qsum (map (fun a => f a b) l1)) l2))%Q.
Proof.
  induction l1 as [| a l1 IH]; cbn [map]; rewrite ?Qsum_nil, ?Qsum_cons.
  - now rewrite Qsum_map_zero.
  - rewrite IH, <- Qsum_map_plus.
    apply Qsum_map_ext. intros b. now rewrite Qsum_cons.
Qed.

Lemma gramShare_symmetric (n : nat) (simplex : Indices) (delta : Q)
    (N a b : nat) :
  (gramShare n (elementaryGram n) simplex delta N a b
   == gramShare n (elementaryGram n) simplex delta N b a)%Q.
Proof.
  unfold gramShare. rewrite Qsum_exchange.
  apply Qsum_map_ext. intros j. apply Qsum_map_ext. intros k.
  rewrite (elementaryGram_symmetric n k j).
  unfold gramHit.
  destruct (decide (simplex !!! k = a /\ simplex !!! j = b /\ a < N /\ b < N));
    destruct (decide (simplex !!! j = b /\ simplex !!! k = a
                      /\ b < N /\ a < N));
    try reflexivity; exfalso; tauto.
Qed.

Lemma gramStep_entry (N : nat) (simplex : Indices) (delta : Q)
    (elementary : SquareMatrix) (j k a b : nat) (gram : SquareMatrix) :
  square N gram ->
  square N (gramStep simplex delta elementary j gram k)
  /\ (at2 (gramStep simplex delta elementary j gram k) a b
      == at2 gram a b
         + gramHit simplex N a b j k * (delta * at2 elementary j k))%Q.
Proof.
  intros Hsq. unfold gramStep. split; [now apply set2_square |].
  rewrite (at2_set2_square N) by exact Hsq. unfold gramHit.
  case_decide as Hd.
  - destruct Hd as (Hj & Hk & _). rewrite Hj, Hk. ring.
  - ring.
Qed.

Lemma gramInner_entry (N : nat) (simplex : Indices) (delta : Q)
    (elementary : SquareMatrix) (j a b : nat) (ks : list nat) :
  forall gram,
    square N gram ->
    square N (fold_left (gramStep simplex delta elementary j) ks gram)
    /\ (at2 (fold_left (gramStep simplex delta elementary j) ks gram) a b
        == at2 gram a b
           + Qsum (map (fun k =>
                          (gramHit simplex N a b j k
                           * (delta * at2 elementary j k))%Q) ks))%Q.
Proof.
  induction ks as [| k ks IH]; intros gram Hsq; cbn [fold_left map];
    rewrite ?Qsum_nil, ?Qsum_cons.
  - split; [exact Hsq | lra].
  - destruct (gramStep_entry N simplex delta elementary j k a b gram Hsq)
      as [Hsq1 Hat1].
    destruct (IH _ Hsq1) as [Hsq2 Hat2].
    split; [exact Hsq2 |]. rewrite Hat2, Hat1. lra.
Qed.

Lemma gramOuter_entry (N n : nat) (simplex : Indices) (delta : Q)
    (elementary : SquareMatrix) (a b : nat) (js : list nat) :
  forall gram,
    square N gram ->
    square N
      (fold_left
         (fun gram j =>
            fold_left (gramStep simplex delta elementary j) (seq 0 n) gram)
         js gram)
    /\ (at2 (fold_left
               (fun gram j =>
                  fold_left (gramStep simplex delta elementary j) (seq 0 n)
                    gram)
               js gram) a b
        == at2 gram a b
           + Qsum (map (fun j =>
                          Qsum (map (fun k =>
                                       (gramHit simplex N a b j k
                                        * (delta * at2 elementary j k))%Q)
                                    (seq 0 n)))
                       js))%Q.
Proof.
  induction js as [| j js IH]; intros gram Hsq;
    cbn [fold_left map]; rewrite ?Qsum_nil, ?Qsum_cons.
  - split; [exact Hsq | lra].
  - destruct (gramInner_entry N simplex delta elementary j a b (seq 0 n)
                gram Hsq) as [Hsq1 Hat1].
    destruct (IH _ Hsq1) as [Hsq2 Hat2].
    split; [exact Hsq2 |]. rewrite Hat2, Hat1. lra.
Qed.

Lemma gramSimplex_entry (N n : nat) (simplex : Indices) (delta : Q)
    (elementary : SquareMatrix) (a b : nat) (gram : SquareMatrix) :
  square N gram ->
  square N (gramSimplex n elementary simplex delta gram)
  /\ (at2 (gramSimplex n elementary simplex delta gram) a b
      == at2 gram a b + gramShare n elementary simplex delta N a b)%Q.
Proof.
  apply (gramOuter_entry N n simplex delta elementary a b (seq 0 n)).
Qed.

Section P1GramProperties.
Context {lib : Collaborators}.

Lemma gramLoop_entry (m : Mesh) (N n : nat) (elementary : SquareMatrix)
    (a b : nat) (range : list nat) :
  Forall (fun i => i < getSimplicesNumber m) range ->
  forall gram,
    square N gram ->
    exists gram',
      gramLoop m n elementary range gram = Ok gram'
      /\ square N gram'
      /\ (at2 gram' a b
          == at2 gram a b
             + Qsum (map (fun i =>
                            gramShare n elementary (simplices_ m !!! i)
                              (simplexVolume m i) N a b) range))%Q.
Proof.
  induction range as [| i range IH]; intros Hrange gram Hsq;
    cbn [gramLoop map]; rewrite ?Qsum_nil, ?Qsum_cons.
  - exists gram. split; [reflexivity |]. split; [exact Hsq | lra].
  - apply Forall_cons in Hrange as [Hi Hrange].
    unfold getSimplex. rewrite (proj2 (Nat.leb_gt _ _) Hi).
    cbn [Result_bind]. rewrite (computeSimplexVolume_Ok i m Hi).
    cbn [Result_bind].
    destruct (gramSimplex_entry N n (simplices_ m !!! i) (simplexVolume m i)
                elementary a b gram Hsq) as [Hsq1 Hat1].
    destruct (IH Hrange _ Hsq1) as (gram' & Hrun & Hsq' & Hat').
    exists gram'. split; [exact Hrun |]. split; [exact Hsq' |].
    rewrite Hat', Hat1. lra.
Qed.

(** X27: [computeP1Gram] never fails, and the matrix it gives is symmetric: the
    symmetric view that it is given back as loses nothing. *)
Theorem computeP1Gram_symmetric (m : Mesh) :
  exists gram,
    computeP1Gram m = Ok gram
    /\ forall a b, (at2 gram a b == at2 gram b a)%Q.
Proof.
  unfold computeP1Gram.
  destruct (getSimplicesNumber m =? 0) eqn:E.
  - exists []. split; [reflexivity |]. intros a b. reflexivity.
  - set (n := Sample_getDimension (getVertices m) + 1).
    set (N := length (vertices_ m)).
    destruct (replicate_square N 0%Q) as [Hsq Hzero].
    assert (Hrange : Forall (fun i => i < getSimplicesNumber m)
                       (seq 0 (length (simplices_ m)))).
    { apply Forall_forall. intros i Hi. apply elem_of_seq in Hi.
      unfold getSimplicesNumber. lia. }
    destruct (gramLoop_entry m N n (elementaryGram n) 0 0 _ Hrange _ Hsq)
      as (gram & Hrun & _ & _).
    exists gram. split; [exact Hrun |]. intros a b.
    destruct (gramLoop_entry m N n (elementaryGram n) a b _ Hrange _ Hsq)
      as (gram1 & Hrun1 & _ & Hab).
    destruct (gramLoop_entry m N n (elementaryGram n) b a _ Hrange _ Hsq)
      as (gram2 & Hrun2 & _ & Hba).
    assert (gram1 = gram) as -> by congruence.
    assert (gram2 = gram) as -> by congruence.
    rewrite Hab, Hba, !Hzero.
    repeat case_decide; (apply Qplus_comp; [reflexivity |]);
      apply Qsum_map_ext; intros i; apply gramShare_symmetric.
Qed.

(** *** The sum of the entries *)

Lemma Qsum_insert (row : list Q) (q : nat) (x : Q) :
  q < length row ->
  (Qsum (<[q := x]> row) == Qsum row + x - row !!! q)%Q.
Proof.
  revert q. induction row as [| y row IH]; intros q Hq.
  - cbn in Hq. lia.
  - destruct q as [| q]; cbn [insert list_insert];
      rewrite !Qsum_cons.
    + change ((y :: row) !!! 0) with y. lra.
    + rewrite IH by (cbn in Hq; lia).
      change ((y :: row) !!! S q) with (row !!! q). lra.
Qed.

Lemma matrixTotal_set2 (matrix : SquareMatrix) (p q : nat) (x : Q) :
  p < length matrix -> q < length (matrix !!! p) ->
  (matrixTotal (set2 matrix p q x)
   == matrixTotal matrix + x - at2 matrix p q)%Q.
Proof.
  unfold matrixTotal, set2, at2. revert p.
  induction matrix as [| row matrix IH]; intros p Hp Hq.
  - cbn in Hp. lia.
  - destruct p as [| p].
    + change ((row :: matrix) !!! 0) with row in *.
      change (alter (fun row => <[q := x]> row) 0 (row :: matrix))
        with (<[q := x]> row :: matrix).
      cbn [map]. rewrite !Qsum_cons, Qsum_insert by exact Hq. lra.
    + change ((row :: matrix) !!! S p) with (matrix !!! p) in *.
      change (alter (fun row => <[q := x]> row) (S p) (row :: matrix))
        with (row :: alter (fun row => <[q := x]> row) p matrix).
      cbn [map]. rewrite !Qsum_cons, (IH p) by (cbn in Hp; first [lia | exact Hq]).
      lra.
Qed.

Lemma gramInner_total (N : nat) (simplex : Indices) (delta : Q)
    (elementary : SquareMatrix) (j : nat) (ks : list nat) :
  simplex !!! j < N ->
  Forall (fun k => simplex !!! k < N) ks ->
  forall gram,
    square N gram ->
    square N (fold_left (gramStep simplex delta elementary j) ks gram)
    /\ (matrixTotal (fold_left (gramStep simplex delta elementary j) ks gram)
        == matrixTotal gram
           + delta * Qsum (map (fun k => at2 elementary j k) ks))%Q.
Proof.
  intros Hj. induction 1 as [| k ks Hk _ IH]; intros gram Hsq;
    cbn [fold_left map]; rewrite ?Qsum_nil, ?Qsum_cons.
  - split; [exact Hsq | lra].
  - assert (Hsq1 : square N (gramStep simplex delta elementary j gram k))
      by (unfold gramStep; now apply set2_square).
    destruct (IH _ Hsq1) as [Hsq2 Htotal].
    split; [exact Hsq2 |]. rewrite Htotal.
    unfold gramStep at 1. destruct Hsq as [Hlen Hrows].
    rewrite matrixTotal_set2
      by (first [ now rewrite Hlen
                | rewrite (row_length _ _ N Hrows) by (now rewrite Hlen);
                  exact Hk ]).
    ring.
Qed.

Lemma gramOuter_total (N n : nat) (simplex : Indices) (delta : Q)
    (elementary : SquareMatrix) (js : list nat) :
  Forall (fun k => simplex !!! k < N) (seq 0 n) ->
  Forall (fun j => simplex !!! j < N) js ->
  forall gram,
    square N gram ->
    square N
      (fold_left
         (fun gram j =>
            fold_left (gramStep simplex delta elementary j) (seq 0 n) gram)
         js gram)
    /\ (matrixTotal
          (fold_left
             (fun gram j =>
                fold_left (gramStep simplex delta elementary j) (seq 0 n)
                  gram)
             js gram)
        == matrixTotal gram
           + delta
             * Qsum (map (fun j =>
                            Qsum (map (fun k => at2 elementary j k)
                                    (seq 0 n)))
                         js))%Q.
Proof.
  intros Hks. induction 1 as [| j js Hj _ IH]; intros gram Hsq;
    cbn [fold_left map]; rewrite ?Qsum_nil, ?Qsum_cons.
  - split; [exact Hsq | lra].
  - destruct (gramInner_total N simplex delta elementary j (seq 0 n) Hj Hks
                gram Hsq) as [Hsq1 Ht1].
    destruct (IH _ Hsq1) as [Hsq2 Ht2].
    split; [exact Hsq2 |]. rewrite Ht2, Ht1. ring.
Qed.

(** The entries of [elementaryGram] add up to [n (n + 1) / (n + 1)!]. *)
Lemma elementaryGram_total (n : nat) :
  (Qsum (map (fun j =>
                Qsum (map (fun k => at2 (elementaryGram n) j k) (seq 0 n)))
             (seq 0 n))
   == inject_Z (Z.of_nat (n * (n + 1)))
      * (1 / inject_Z (Z.of_nat (fact (n + 1)))))%Q.
Proof.
  destruct (elementaryGram_entries n) as [_ Hat].
  set (g := (1 / inject_Z (Z.of_nat (fact (n + 1))))%Q) in *.
  assert (Hrow : forall j t,
             j < n -> t <= n ->
             (Qsum (map (fun k => at2 (elementaryGram n) j k) (seq 0 t))
              == inject_Z (Z.of_nat t) * g + (if decide (j < t)%nat then g else 0))%Q).
  { intros j t Hj. induction t as [| t IH]; intros Ht.
    - cbn. rewrite decide_False by lia. ring.
    - rewrite seq_S, map_app, Qsum_app, IH by lia. cbn [Nat.add map].
      rewrite Qsum_cons, Qsum_nil, Hat.
      rewrite Nat2Z.inj_succ, <- Z.add_1_l, inject_Z_plus.
      repeat case_decide; first [ring | exfalso; lia]. }
  assert (Hall : forall t,
             t <= n ->
             (Qsum (map (fun j =>
                           Qsum (map (fun k => at2 (elementaryGram n) j k)
                                   (seq 0 n)))
                        (seq 0 t))
              == inject_Z (Z.of_nat t) * (inject_Z (Z.of_nat (n + 1)) * g))%Q).
  { induction t as [| t IH]; intros Ht.
    - cbn. ring.
    - rewrite seq_S, map_app, Qsum_app, IH by lia. cbn [Nat.add map].
      rewrite Qsum_cons, Qsum_nil, Hrow by lia.
      rewrite decide_True by lia.
      rewrite Nat2Z.inj_succ, <- Z.add_1_l, inject_Z_plus.
      rewrite Nat2Z.inj_add, inject_Z_plus. change (inject_Z (Z.of_nat 1)) with 1%Q.
      ring. }
  rewrite Hall by lia.
  rewrite Nat2Z.inj_mul, inject_Z_mult. ring.
Qed.

Lemma gramLoop_total (m : Mesh) (N n : nat) (range : list nat) :
  Forall (fun i => i < getSimplicesNumber m
                   /\ Forall (fun k => (simplices_ m !!! i) !!! k < N)
                        (seq 0 n)) range ->
  forall gram,
    square N gram ->
    exists gram',
      gramLoop m n (elementaryGram n) range gram = Ok gram'
      /\ square N gram'
      /\ (matrixTotal gram'
          == matrixTotal gram
             + Qsum (map (simplexVolume m) range)
               * (inject_Z (Z.of_nat (n * (n + 1)))
                  * (1 / inject_Z (Z.of_nat (fact (n + 1))))))%Q.
Proof.
  induction 1 as [| i range [Hi Hks] _ IH]; intros gram Hsq;
    cbn [gramLoop map]; rewrite ?Qsum_nil, ?Qsum_cons.
  - exists gram. split; [reflexivity |]. split; [exact Hsq | ring].
  - unfold getSimplex. rewrite (proj2 (Nat.leb_gt _ _) Hi).
    cbn [Result_bind]. rewrite (computeSimplexVolume_Ok i m Hi).
    cbn [Result_bind].
    destruct (gramOuter_total N n (simplices_ m !!! i) (simplexVolume m i)
                (elementaryGram n) (seq 0 n) Hks Hks gram Hsq)
      as [Hsq1 Ht1].
    fold (gramSimplex n (elementaryGram n) (simplices_ m !!! i)
            (simplexVolume m i) gram) in Hsq1, Ht1.
    destruct (IH _ Hsq1) as (gram' & Hrun & Hsq' & Ht').
    exists gram'. split; [exact Hrun |]. split; [exact Hsq' |].
    rewrite Ht', Ht1, elementaryGram_total. ring.
Qed.

Lemma matrixTotal_zero (n k : nat) :
  (matrixTotal (replicate k (replicate n 0%Q)) == 0)%Q.
Proof.
  unfold matrixTotal.
  assert (Hrow : (Qsum (replicate n 0%Q) == 0)%Q).
  { induction n as [| n IH]; cbn [replicate]; rewrite ?Qsum_nil, ?Qsum_cons.
    - reflexivity.
    - rewrite IH. ring. }
  induction k as [| k IH]; cbn [replicate map]; rewrite ?Qsum_nil, ?Qsum_cons.
  - reflexivity.
  - rewrite IH, Hrow. ring.
Qed.

(** X28: On a valid mesh whose vertices have the dimension of the mesh, the
    entries of the P1 Gram matrix add up to the volume of the mesh divided
    by the factorial of the dimension: to the volume itself on the line,
    to half of it in the plane. *)
Theorem computeP1Gram_total (m : Mesh) :
  isValid m = true ->
  Sample_getDimension (vertices_ m) = dimension_ m ->
  exists gram,
    computeP1Gram m = Ok gram
    /\ (matrixTotal gram * inject_Z (Z.of_nat (fact (dimension_ m)))
        == Qsum (map (simplexVolume m) (seq 0 (getSimplicesNumber m))))%Q.
Proof.
  intros Hvalid Hdim. unfold computeP1Gram.
  destruct (getSimplicesNumber m =? 0) eqn:E.
  - apply Nat.eqb_eq in E. rewrite E. exists []. split; [reflexivity |].
    cbn. reflexivity.
  - unfold getVertices. rewrite Hdim.
    set (n := dimension_ m + 1). set (N := length (vertices_ m)).
    destruct (replicate_square N 0%Q) as [Hsq _].
    destruct (gramLoop_total m N n (seq 0 (length (simplices_ m))))
      with (gram := replicate N (replicate N 0%Q))
      as (gram & Hrun & _ & Htotal).
    + apply Forall_forall. intros i Hi. apply elem_of_seq in Hi.
      split; [unfold getSimplicesNumber; lia |].
      pose proof (isValid_simplices m Hvalid) as Hall.
      rewrite Forall_forall in Hall.
      destruct (Hall (simplices_ m !!! i)) as [Hlen Hbelow].
      { apply list_elem_of_lookup_total_2. lia. }
      apply Forall_forall. intros k Hk. apply elem_of_seq in Hk.
      rewrite Forall_forall in Hbelow. apply Hbelow.
      apply list_elem_of_lookup_total_2. unfold n in Hk. lia.
    + exact Hsq.
    + exists gram. split; [exact Hrun |].
      rewrite Htotal, matrixTotal_zero. unfold getSimplicesNumber.
      unfold n.
      replace (dimension_ m + 1 + 1) with (S (S (dimension_ m))) by lia.
      replace (dimension_ m + 1) with (S (dimension_ m)) by lia.
      change (fact (S (S (dimension_ m))))
        with (S (S (dimension_ m)) * (S (dimension_ m) * fact (dimension_ m))).
      rewrite !Nat2Z.inj_mul, !inject_Z_mult.
      assert (H1 : ~ (inject_Z (Z.of_nat (S (S (dimension_ m)))) == 0)%Q).
      { change 0%Q with (inject_Z 0). rewrite inject_Z_injective. lia. }
      assert (H2 : ~ (inject_Z (Z.of_nat (S (dimension_ m))) == 0)%Q).
      { change 0%Q with (inject_Z 0). rewrite inject_Z_injective. lia. }
      assert (H3 : ~ (inject_Z (Z.of_nat (fact (dimension_ m))) == 0)%Q).
      { change 0%Q with (inject_Z 0). rewrite inject_Z_injective.
        pose proof (lt_O_fact (dimension_ m)). lia. }
      field. repeat split; assumption.
Qed.

(** *** The entries, simplex by simplex *)

Lemma Qsum_all_zero {A} (F : A -> Q) (l : list A) :
  (forall j, j ∈ l -> (F j == 0)%Q) -> (Qsum (map F l) == 0)%Q.
Proof.
  induction l as [| x l IH]; intros Hzero; cbn [map];
    rewrite ?Qsum_nil, ?Qsum_cons.
  - reflexivity.
  - rewrite (Hzero x) by left.
    rewrite IH by (intros j Hj; apply Hzero; now right). ring.
Qed.

Lemma Qsum_map_ext_in {A} (f g : A -> Q) (l : list A) :
  (forall a, a ∈ l -> (f a == g a)%Q) ->
  (Qsum (map f l) == Qsum (map g l))%Q.
Proof.
  induction l as [| a l IH]; intros Hfg; cbn [map];
    rewrite ?Qsum_nil, ?Qsum_cons.
  - reflexivity.
  - rewrite (Hfg a) by left.
    rewrite IH by (intros x Hx; apply Hfg; now right). reflexivity.
Qed.

Lemma Qsum_single (F : nat -> Q) (l : list nat) (j0 : nat) :
  NoDup l -> j0 ∈ l ->
  (forall j, j ∈ l -> j <> j0 -> (F j == 0)%Q) ->
  (Qsum (map F l) == F j0)%Q.
Proof.
  induction 1 as [| x l Hx Hnd IH]; intros Hin Hzero.
  - now apply elem_of_nil in Hin.
  - cbn [map]. rewrite Qsum_cons.
    destruct (decide (x = j0)) as [-> | Hne].
    + rewrite Qsum_all_zero; [ring |].
      intros j Hj. apply Hzero; [now right |]. intros ->. contradiction.
    + rewrite (Hzero x) by (first [left | exact Hne]).
      apply elem_of_cons in Hin as [-> | Hin]; [contradiction |].
      rewrite IH; [ring | exact Hin |].
      intros j Hj. apply Hzero. now right.
Qed.

(** What a simplex that names no vertex twice adds to the entry [(a, b)]:
    its volume times the entry of the elementary matrix when it names both
    [a] and [b], nothing otherwise. *)
Lemma gramShare_NoDup (n N : nat) (simplex : Indices) (delta : Q) (a b : nat) :
  NoDup simplex -> length simplex = n -> a < N -> b < N ->
  (gramShare n (elementaryGram n) simplex delta N a b
   == if decide (a ∈ simplex /\ b ∈ simplex)
      then delta * ((if decide (a = b) then 2 else 1)
                    * (1 / inject_Z (Z.of_nat (fact (n + 1)))))
      else 0)%Q.
Proof.
  intros Hnd Hlen Ha Hb. unfold gramShare.
  assert (Hseq : forall j, j ∈ seq 0 n <-> j < length simplex)
    by (intros j; rewrite elem_of_seq; lia).
  case_decide as Hab.
  - destruct Hab as [Hain Hbin].
    apply list_elem_of_lookup_total in Hain as (ja & Hja & Hsa).
    apply list_elem_of_lookup_total in Hbin as (kb & Hkb & Hsb).
    assert (Hunique : forall j j', j < length simplex -> j' < length simplex ->
                                   simplex !!! j = simplex !!! j' -> j = j').
    { intros j j' Hj Hj' Heq.
      apply (NoDup_lookup simplex j j' (simplex !!! j)); [exact Hnd | |].
      - now apply list_lookup_lookup_total_lt.
      - rewrite Heq. now apply list_lookup_lookup_total_lt. }
    rewrite (Qsum_single _ (seq 0 n) ja) by
      (first [ apply NoDup_seq | now apply Hseq
             | intros j Hj Hne; apply Qsum_all_zero; intros k Hk;
               unfold gramHit; rewrite decide_False; [ring |];
               intros (Hjs & _); apply Hne, Hunique;
               [now apply Hseq | exact Hja | congruence] ]).
    rewrite (Qsum_single _ (seq 0 n) kb) by
      (first [ apply NoDup_seq | now apply Hseq
             | intros k Hk Hne;
               unfold gramHit; rewrite decide_False; [ring |];
               intros (_ & Hks & _); apply Hne, Hunique;
               [now apply Hseq | exact Hkb | congruence] ]).
    unfold gramHit. rewrite decide_True by (repeat split; assumption).
    destruct (elementaryGram_entries n) as [_ Hat]. rewrite Hat.
    rewrite decide_True by (split; lia).
    destruct (decide (ja = kb)) as [-> | Hne].
    + rewrite decide_True by congruence. ring.
    + rewrite decide_False; [ring |].
      intros ->. apply Hne, Hunique; [exact Hja | exact Hkb | congruence].
  - apply Qsum_all_zero. intros j Hj. apply Qsum_all_zero. intros k Hk.
    unfold gramHit. rewrite decide_False; [ring |].
    intros (Hjs & Hks & _). apply Hab. split.
    + rewrite <- Hjs. apply list_elem_of_lookup_total_2. now apply Hseq.
    + rewrite <- Hks. apply list_elem_of_lookup_total_2. now apply Hseq.
Qed.

(** X29: On a valid mesh none of whose simplices names a vertex twice, the entry
    [(a, b)] of the P1 Gram matrix collects, from each simplex that names
    both [a] and [b], the volume of the simplex over the factorial of
    [dimension + 2], twice that on the diagonal. *)
Theorem computeP1Gram_entries (m : Mesh) (a b : nat) :
  isValid m = true ->
  Sample_getDimension (vertices_ m) = dimension_ m ->
  Forall NoDup (simplices_ m) ->
  a < getVerticesNumber m ->
  b < getVerticesNumber m ->
  exists gram,
    computeP1Gram m = Ok gram
    /\ (at2 gram a b
        == Qsum (map (fun i =>
                        if decide (a ∈ simplices_ m !!! i
                                   /\ b ∈ simplices_ m !!! i)
                        then simplexVolume m i
                             * ((if decide (a = b) then 2 else 1)
                                * (1 / inject_Z
                                         (Z.of_nat (fact (dimension_ m + 2)))))
                        else 0)
                   (seq 0 (getSimplicesNumber m))))%Q.
Proof.
  intros Hvalid Hdim Hnd Ha Hb. unfold computeP1Gram.
  destruct (getSimplicesNumber m =? 0) eqn:E.
  - apply Nat.eqb_eq in E. rewrite E. exists []. split; reflexivity.
  - unfold getVertices. rewrite Hdim.
    set (n := dimension_ m + 1). set (N := length (vertices_ m)).
    destruct (replicate_square N 0%Q) as [Hsq Hzero].
    assert (Hrange : Forall (fun i => i < getSimplicesNumber m)
                       (seq 0 (length (simplices_ m)))).
    { apply Forall_forall. intros i Hi. apply elem_of_seq in Hi.
      unfold getSimplicesNumber. lia. }
    destruct (gramLoop_entry m N n (elementaryGram n) a b _ Hrange _ Hsq)
      as (gram & Hrun & _ & Hat).
    exists gram. split; [exact Hrun |].
    rewrite Hat, Hzero. fold N in Ha, Hb. unfold getVerticesNumber in Ha, Hb.
    rewrite decide_True by now split.
    rewrite Qplus_0_l. unfold getSimplicesNumber.
    pose proof (isValid_simplices m Hvalid) as Hall.
    rewrite Forall_forall in Hall, Hnd.
    apply Qsum_map_ext_in. intros i Hi. apply elem_of_seq in Hi.
    assert (Hin : simplices_ m !!! i ∈ simplices_ m)
      by (apply list_elem_of_lookup_total_2; lia).
    destruct (Hall _ Hin) as [Hlen _].
    rewrite (gramShare_NoDup n N _ _ a b (Hnd _ Hin) Hlen Ha Hb).
    unfold n. replace (dimension_ m + 1 + 1) with (dimension_ m + 2) by lia.
    reflexivity.
Qed.

End P1GramProperties.

Lemma computeP1Gram_total_witness :
  exists gram,
    computeP1Gram (lib := Exact.collaborators) Exact.triangle = Ok gram
    /\ (matrixTotal gram * inject_Z (Z.of_nat (fact (dimension_ Exact.triangle)))
        == Qsum (map (simplexVolume (lib := Exact.collaborators) Exact.triangle)
                   (seq 0 (getSimplicesNumber Exact.triangle))))%Q.
Proof.
  apply (computeP1Gram_total (lib := Exact.collaborators) Exact.triangle);
    reflexivity.
Defined.

Lemma computeP1Gram_entries_witness :
  exists gram,
    computeP1Gram (lib := Exact.collaborators) Exact.triangle = Ok gram
    /\ (at2 gram 0 1
        == Qsum (map (fun i =>
                        if decide (0%nat ∈ simplices_ Exact.triangle !!! i
                                   /\ 1%nat ∈ simplices_ Exact.triangle !!! i)
                        then simplexVolume (lib := Exact.collaborators)
                               Exact.triangle i
                             * ((if decide (0%nat = 1%nat) then 2 else 1)
                                * (1 / inject_Z
                                         (Z.of_nat
                                            (fact (dimension_ Exact.triangle
                                                   + 2)))))
                        else 0)
                   (seq 0 (getSimplicesNumber Exact.triangle))))%Q.
Proof.
  apply (computeP1Gram_entries (lib := Exact.collaborators) Exact.triangle 0 1).
  - reflexivity.
  - reflexivity.
  - apply (bool_decide_unpack _). vm_compute. exact I.
  - vm_compute. lia.
  - vm_compute. lia.
Defined.
